(** * Prediction scoring and leaderboard consistency of the World Cup API

    A shallow embedding of the scoring, aggregation and ranking code of the
    Express/Mongoose server: [computeActualWinner], [recalcUserTotals],
    [calculateMatchPointsForAllUsers], the group-points handlers, the knockout
    results query and the two leaderboard queries.  The embedding follows
    the revised server file, the one that has [recalcUserTotals] and the
    admin routes; the earlier [server.js] has neither match scoring nor the
    leaderboard page.  A second part adds the handlers that save
    predictions, the predictions summary, the admin whitelist and the route
    that creates a match.

    Conventions of the embedding.
    - A Mongoose collection is a finite map from [_id] to document
      ([gmap ObjectId D]); [find] without a sort clause enumerates it in the
      order of [map_to_list].
    - An [async] function is a computation [M A]: it reads and writes the
      store and either returns or throws.  Writes made before a throw stay in
      the store, as they do in the database.
    - JavaScript numbers that hold counts and points are integers ([Z]); the
      one place where the program divides, the percentile of the
      my-position query, is evaluated in binary64 ([PrimFloat]).
    - [doc.save()] runs the validators the schema declares for the fields
      that are modelled ([required], [min]); it throws when one rejects.
    - The ids of stored documents are ObjectIds.  A string that a request
      gives in the place of one is an [IdParam]; a query throws when the
      string does not cast to an ObjectId.
    - The case mappings and [trim] are JavaScript's on strings of ASCII
      characters ([ascii_only]); a statement that depends on what they make
      of a string assumes that it is one. *)

From Stdlib Require Import ZArith Floats.
From stdpp Require Import gmap strings list fin_maps sorting lexico.

Local Open Scope Z_scope.

(** ** JavaScript values and coercions *)

Abbreviation ObjectId := string.

(** A string that a request gives where a query expects an id, in a path
    parameter or in the body: [Id oid] when it casts to the ObjectId [oid],
    [NotAnId] when the cast fails.  The ids of stored documents are
    ObjectIds. *)
Inductive IdParam :=
  | Id (oid : ObjectId)
  | NotAnId.

(** [v || 0] on a number: a falsy number is [0] itself. *)
Definition or0 (v : Z) : Z := if decide (v = 0) then 0 else v.

(** [v || 1] on a number. *)
Definition or1 (v : Z) : Z := if decide (v = 0) then 1 else v.

(** Values that reach the group handlers from a JSON request body. *)
Inductive JsVal :=
  | JUndefined
  | JNull
  | JStr (s : string).

Global Instance JsVal_eq_dec : EqDecision JsVal.
Proof. solve_decision. Defined.

(** [String(v)]. *)
Definition String_of (v : JsVal) : string :=
  match v with
  | JUndefined => "undefined"
  | JNull => "null"
  | JStr s => s
  end.

(** [String(ref)] for a stored reference: an ObjectId prints as its hex
    string, a missing one as ["null"]. *)
Definition String_of_ref (r : option ObjectId) : string :=
  match r with
  | Some oid => oid
  | None => "null"
  end.

(** Relational comparison [a > b] where either side may be [null]:
    [null] converts to [0]. *)
Definition ToNumber (v : option Z) : Z := default 0 v.
Definition js_gt (a b : option Z) : bool := bool_decide (ToNumber a > ToNumber b).

(** Strict equality [n === s] between a number and a possibly-[null] number. *)
Definition strict_eq (n : Z) (s : option Z) : bool := bool_decide (s = Some n).

(** [s || null] on a string. *)
Definition nonempty (s : string) : option string :=
  if decide (s = EmptyString) then None else Some s.

(** [[...new Set(l)]]: duplicates dropped, first occurrences kept in order. *)
Definition uniq (l : list string) : list string :=
  foldl (λ acc x, if decide (x ∈ acc) then acc else acc ++ [x]) [] l.

Definition sumZ (l : list Z) : Z := foldr Z.add 0 l.

(** Strings of ASCII characters only.  On these the case mappings and
    [trim] below are those of JavaScript; they do not follow the case
    mapping and the white space of Unicode outside ASCII. *)
Definition ascii_only (s : string) : bool :=
  forallb (λ c, bool_decide (Ascii.nat_of_ascii c < 128)%nat)
          (String.list_ascii_of_string s).

(** [s.toUpperCase()] on the ASCII letters; group codes are single letters
    [A]-[L]. *)
Definition upper_char (c : Ascii.ascii) : Ascii.ascii :=
  let n := Ascii.nat_of_ascii c in
  if bool_decide (97 ≤ n ≤ 122)%nat then Ascii.ascii_of_nat (n - 32) else c.

Fixpoint toUpperCase (s : string) : string :=
  match s with
  | EmptyString => EmptyString
  | String c s' => String (upper_char c) (toUpperCase s')
  end.

(** ** Binary64 arithmetic

    [position / totalUsers], [1 - _] and [_ * 100] are IEEE-754 double
    operations; integers enter them through [Z_to_float], which rounds to
    the nearest double and is exact below 2^53. *)
Definition Z_to_float (z : Z) : float :=
  SF2Prim (binary_normalize 53 1024 z 0 false).

(** The integer a finite double rounds to under [Math.round]: the nearest
    integer, a tie going towards +infinity, that is [floor (x + 1/2)]
    computed exactly on the mantissa and exponent of [x]. *)
Definition round_half_up (negative : bool) (mantissa : positive) (e : Z) : Z :=
  let v := if negative then Z.neg mantissa else Z.pos mantissa in
  if decide (0 ≤ e) then v * 2 ^ e
  else (2 * v + 2 ^ (- e)) `div` 2 ^ (1 - e).

(** [Math.round(x)]: zeros, infinities and NaN are returned as they are. *)
Definition Math_round (x : float) : float :=
  match Prim2SF x with
  | S754_finite s m e => Z_to_float (round_half_up s m e)
  | _ => x
  end.

(** The integer value of a double that holds one. *)
Definition float_to_Z (x : float) : option Z :=
  match Prim2SF x with
  | S754_zero _ => Some 0
  | S754_finite s m e =>
      let v := if s then Z.neg m else Z.pos m in
      if decide (0 ≤ e) then Some (v * 2 ^ e)
      else if decide (v `mod` 2 ^ (- e) = 0) then Some (v `div` 2 ^ (- e))
      else None
  | _ => None
  end.

(** ** Documents *)

Inductive Winner := HOME | AWAY | DRAW.

Global Instance Winner_eq_dec : EqDecision Winner.
Proof. solve_decision. Defined.

Inductive MatchStatus := Scheduled | Live | Finished | Postponed | Cancelled.

Global Instance MatchStatus_eq_dec : EqDecision MatchStatus.
Proof. solve_decision. Defined.

Module Team.
Record t := mk { name : string }.
End Team.

Module Match.
Record t := mk {
  homeTeam : ObjectId;
  awayTeam : ObjectId;
  homeScore : option Z;
  awayScore : option Z;
  phase : string;
  status : MatchStatus
}.
End Match.

(** A stored user.  [username] and [email] hold the empty string when the
    document has no such field; [status] reads as its default, ['Online'],
    when the document has none. *)
Module User.
Record t := mk {
  username : string;
  email : string;
  status : string;
  totalPoints : Z;
  correctMatches : Z;
  correctScores : Z
}.

Definition set_totals (u : t) (tp cm cs : Z) : t :=
  mk (username u) (email u) (status u) tp cm cs.

Definition set_totalPoints (u : t) (tp : Z) : t :=
  mk (username u) (email u) (status u) tp (correctMatches u) (correctScores u).

(** Schema: [username] and [email] required, [status] one of ['Online'] and
    ['Offline']; [required] rejects a string field that is missing or
    empty. *)
Definition validate (u : t) : bool :=
  bool_decide (username u ≠ EmptyString)
  && bool_decide (email u ≠ EmptyString)
  && bool_decide (status u ∈ ["Online"; "Offline"]).
End User.

Module MatchPrediction.
Record t := mk {
  user : option ObjectId;
  match_ : ObjectId;
  homeGoalsPred : Z;
  awayGoalsPred : Z;
  winnerPred : Winner;
  pointsAwarded : Z;
  isCorrectWinner : bool;
  isCorrectScore : bool
}.

Definition set_score (p : t) (pts : Z) (cw cs : bool) : t :=
  mk (user p) (match_ p) (homeGoalsPred p) (awayGoalsPred p) (winnerPred p)
     pts cw cs.

(** Schema: [user] required, [homeGoalsPred] and [awayGoalsPred] with
    [min: 0]; [winnerPred] is one of the three enum values by its type. *)
Definition validate (p : t) : bool :=
  bool_decide (is_Some (user p)) && bool_decide (0 ≤ homeGoalsPred p)
  && bool_decide (0 ≤ awayGoalsPred p).
End MatchPrediction.

Module GroupPrediction.
Record t := mk {
  user : option ObjectId;
  group : string;
  firstPlaceTeam : option ObjectId;
  secondPlaceTeam : option ObjectId;
  thirdPlaceTeam : option ObjectId;
  pointsAwarded : Z
}.

Definition set_points (p : t) (pts : Z) : t :=
  mk (user p) (group p) (firstPlaceTeam p) (secondPlaceTeam p)
     (thirdPlaceTeam p) pts.

Definition group_codes : list string :=
  ["A"; "B"; "C"; "D"; "E"; "F"; "G"; "H"; "I"; "J"; "K"; "L"]%string.

(** Schema: [user], [firstPlaceTeam] and [secondPlaceTeam] required;
    [group] must match [/^[A-L]$/]. *)
Definition validate (p : t) : bool :=
  bool_decide (is_Some (user p)) && bool_decide (group p ∈ group_codes)
  && bool_decide (is_Some (firstPlaceTeam p))
  && bool_decide (is_Some (secondPlaceTeam p)).
End GroupPrediction.

Module KnockoutPrediction.
Record t := mk {
  user : option ObjectId;
  stage : string;
  matchOrder : Z;
  match_ : option ObjectId;
  predictedWinnerTeam : ObjectId;
  pointsAwarded : Z
}.
End KnockoutPrediction.

Module TournamentPrediction.
Record t := mk {
  user : option ObjectId;
  pointsAwarded : Z
}.
End TournamentPrediction.

(** ** The store and the computations over it *)

Record Store := mkStore {
  teams : gmap string Team.t;
  matches : gmap string Match.t;
  users : gmap string User.t;
  matchPredictions : gmap string MatchPrediction.t;
  groupPredictions : gmap string GroupPrediction.t;
  knockoutPredictions : gmap string KnockoutPrediction.t;
  tournamentPredictions : gmap string TournamentPrediction.t
}.

Definition set_users (f : gmap string User.t → gmap string User.t) (st : Store) : Store :=
  mkStore (teams st) (matches st) (f (users st)) (matchPredictions st)
          (groupPredictions st) (knockoutPredictions st)
          (tournamentPredictions st).

Definition set_matches (f : gmap string Match.t → gmap string Match.t)
    (st : Store) : Store :=
  mkStore (teams st) (f (matches st)) (users st) (matchPredictions st)
          (groupPredictions st) (knockoutPredictions st)
          (tournamentPredictions st).

Definition set_matchPredictions
    (f : gmap string MatchPrediction.t → gmap string MatchPrediction.t)
    (st : Store) : Store :=
  mkStore (teams st) (matches st) (users st) (f (matchPredictions st))
          (groupPredictions st) (knockoutPredictions st)
          (tournamentPredictions st).

Definition set_groupPredictions
    (f : gmap string GroupPrediction.t → gmap string GroupPrediction.t)
    (st : Store) : Store :=
  mkStore (teams st) (matches st) (users st) (matchPredictions st)
          (f (groupPredictions st)) (knockoutPredictions st)
          (tournamentPredictions st).

Definition set_knockoutPredictions
    (f : gmap string KnockoutPrediction.t → gmap string KnockoutPrediction.t)
    (st : Store) : Store :=
  mkStore (teams st) (matches st) (users st) (matchPredictions st)
          (groupPredictions st) (f (knockoutPredictions st))
          (tournamentPredictions st).

Definition set_tournamentPredictions
    (f : gmap string TournamentPrediction.t → gmap string TournamentPrediction.t)
    (st : Store) : Store :=
  mkStore (teams st) (matches st) (users st) (matchPredictions st)
          (groupPredictions st) (knockoutPredictions st)
          (f (tournamentPredictions st)).

Inductive Error :=
  | ValidationError
  | CastError
  | TypeError
  | MongoError.

Inductive Outcome (A : Type) :=
  | Returned (a : A)
  | Threw (e : Error).
Arguments Returned {A} a.
Arguments Threw {A} e.

Definition M (A : Type) : Type := Store → Store * Outcome A.

Definition ret {A} (a : A) : M A := λ st, (st, Returned a).
Definition throw {A} (e : Error) : M A := λ st, (st, Threw e).
Definition bind {A B} (m : M A) (k : A → M B) : M B :=
  λ st, match m st with
        | (st', Returned a) => k a st'
        | (st', Threw e) => (st', Threw e)
        end.
Definition gets {A} (f : Store → A) : M A := λ st, (st, Returned (f st)).
Definition modify (f : Store → Store) : M unit := λ st, (f st, Returned tt).

Notation "'let!' x ':=' m 'in' k" := (bind m (λ x, k))
  (at level 10, x pattern, m at level 100, k at level 200,
   format "'[v' 'let!'  x  ':='  m  'in' '/' k ']'").
Notation "m ';;' k" := (bind m (λ _, k))
  (at level 100, k at level 200, right associativity).

(** [for (const x of l) { await body(x) }]: the first throw ends the loop. *)
Fixpoint forOf {A} (body : A → M unit) (l : list A) : M unit :=
  match l with
  | [] => ret tt
  | x :: l' => body x ;; forOf body l'
  end.

(** [for (const x of l) { acc = await body(acc, x) }] *)
Fixpoint foldOf {A B} (body : B → A → M B) (acc : B) (l : list A) : M B :=
  match l with
  | [] => ret acc
  | x :: l' => let! acc' := body acc x in foldOf body acc' l'
  end.

(** ** Queries and answers *)

(** The cast of the id of a query: a string that is no ObjectId makes the
    query throw before it reaches the database. *)
Definition castId (id : IdParam) : M ObjectId :=
  match id with
  | Id oid => ret oid
  | NotAnId => throw CastError
  end.

(** [Model.find(q)]: the matching documents with their ids, in store order. *)
Definition find {D} (c : gmap string D) (q : D → Prop) `{!∀ d, Decision (q d)}
    : list (string * D) :=
  filter (λ kd, q kd.2) (map_to_list c).

Definition findOne {D} (c : gmap string D) (q : D → Prop) `{!∀ d, Decision (q d)}
    : option (string * D) :=
  head (find c q).

(** [Model.countDocuments(q)] *)
Definition countDocuments {D} (c : gmap string D) (q : D → Prop)
    `{!∀ d, Decision (q d)} : Z :=
  Z.of_nat (length (find c q)).

(** [.populate(path)]: the referenced document, or [null] when the
    reference is [null] or dangling. *)
Definition populate {D} (c : gmap string D) (ref : option ObjectId)
    : option (ObjectId * D) :=
  id ← ref; d ← c !! id; Some (id, d).

(** What a handler sends: a JSON body, or an error status with a message. *)
Inductive Response (A : Type) :=
  | Json (body : A)
  | Failure (status : Z).
Arguments Json {A} body.
Arguments Failure {A} status.

(** The [try { ... } catch (error) { res.status(500) ... }] around a
    handler body. *)
Definition respond {A} (body : M (Response A)) (st : Store)
    : Store * Response A :=
  match body st with
  | (st', Returned r) => (st', r)
  | (st', Threw _) => (st', Failure 500)
  end.

(** ** Aggregate recomputation *)

(** [user.save()] *)
Definition save_User (id : ObjectId) (u : User.t) : M unit :=
  if User.validate u
  then modify (set_users <[id := u]>)
  else throw ValidationError.

(** [recalcUserTotals(userId)]: [None] is the [null] returned when the user
    does not exist. *)
Definition recalcUserTotals (userId : ObjectId) : M (option User.t) :=
  let! user := gets (λ st, users st !! userId) in
  match user with
  | None => ret None
  | Some user =>
    let! groupPreds :=
      gets (λ st, find (groupPredictions st)
                       (λ p, GroupPrediction.user p = Some userId)) in
    let! matchPreds :=
      gets (λ st, find (matchPredictions st)
                       (λ p, MatchPrediction.user p = Some userId)) in
    let! knockoutPreds :=
      gets (λ st, find (knockoutPredictions st)
                       (λ p, KnockoutPrediction.user p = Some userId)) in
    let! tournamentPred :=
      gets (λ st, findOne (tournamentPredictions st)
                          (λ p, TournamentPrediction.user p = Some userId)) in
    let totalPoints :=
      foldl (λ s p, s + or0 (GroupPrediction.pointsAwarded p.2)) 0 groupPreds
      + foldl (λ s p, s + or0 (MatchPrediction.pointsAwarded p.2)) 0 matchPreds
      + foldl (λ s p, s + or0 (KnockoutPrediction.pointsAwarded p.2)) 0 knockoutPreds
      + match tournamentPred with
        | Some p => or0 (TournamentPrediction.pointsAwarded p.2)
        | None => 0
        end in
    let correctMatches :=
      Z.of_nat (length (filter (λ p, MatchPrediction.isCorrectWinner p.2 = true)
                               matchPreds)) in
    let correctScores :=
      Z.of_nat (length (filter (λ p, MatchPrediction.isCorrectScore p.2 = true)
                               matchPreds)) in
    let user := User.set_totals user totalPoints correctMatches correctScores in
    save_User userId user ;;
    ret (Some user)
  end.

(** ** Match scoring *)

(** [computeActualWinner(match)] *)
Definition computeActualWinner (m : Match.t) : Winner :=
  if js_gt (Match.homeScore m) (Match.awayScore m) then HOME
  else if js_gt (Match.awayScore m) (Match.homeScore m) then AWAY
  else DRAW.

(** The body of the scoring loop of [calculateMatchPointsForAllUsers], up to
    the assignment of the three fields of [pred]. *)
Definition scoreMatchPrediction (m : Match.t) (actualWinner : Winner)
    (pred : MatchPrediction.t) : MatchPrediction.t :=
  let isCorrectWinner :=
    bool_decide (MatchPrediction.winnerPred pred = actualWinner) in
  let isCorrectScore :=
    isCorrectWinner
    && strict_eq (MatchPrediction.homeGoalsPred pred) (Match.homeScore m)
    && strict_eq (MatchPrediction.awayGoalsPred pred) (Match.awayScore m) in
  let points := 0 in
  let points := if isCorrectWinner then points + 3 else points in
  let points := if isCorrectScore then points + 5 else points in
  MatchPrediction.set_score pred points isCorrectWinner isCorrectScore.

(** [pred.save()] *)
Definition save_MatchPrediction (id : ObjectId) (p : MatchPrediction.t) : M unit :=
  if MatchPrediction.validate p
  then modify (set_matchPredictions <[id := p]>)
  else throw ValidationError.

(** [calculateMatchPointsForAllUsers(matchId)].  A prediction without an
    owner is rejected by [save] before the owner list is built, so the
    string ["null"] never reaches [recalcUserTotals]. *)
Definition calculateMatchPointsForAllUsers (matchId : ObjectId) : M unit :=
  let! found := gets (λ st, matches st !! matchId) in
  match found with
  | None => ret tt
  | Some m =>
    if decide (Match.status m ≠ Finished) then ret tt else
    let! preds :=
      gets (λ st, find (matchPredictions st)
                       (λ p, MatchPrediction.match_ p = matchId)) in
    let actualWinner := computeActualWinner m in
    forOf (λ pred : ObjectId * MatchPrediction.t,
             save_MatchPrediction pred.1
               (scoreMatchPrediction m actualWinner pred.2)) preds ;;
    let affectedUserIds :=
      uniq ((λ p : ObjectId * MatchPrediction.t,
               String_of_ref (MatchPrediction.user p.2)) <$> preds) in
    forOf (λ uid, recalcUserTotals uid ;; ret tt) affectedUserIds
  end.

(** [PUT /api/admin/matches/:id] for a request that gives the three fields
    [homeScore], [awayScore] (a number or [null]) and [status]. *)
Definition adminUpdateMatch (id : IdParam) (homeScore awayScore : option Z)
    (status : MatchStatus) : Store → Store * Response Match.t :=
  respond (
    let! id := castId id in
    let! found := gets (λ st, matches st !! id) in
    match found with
    | None => ret (Failure 404)
    | Some m =>
      let m := Match.mk (Match.homeTeam m) (Match.awayTeam m) homeScore
                 awayScore (Match.phase m) status in
      modify (set_matches <[id := m]>) ;;
      (if decide (Match.status m = Finished ∧ Match.homeScore m ≠ None
                  ∧ Match.awayScore m ≠ None)
       then calculateMatchPointsForAllUsers id
       else ret tt) ;;
      ret (Json m)
    end).

(** ** Group scoring *)

(** The standings object of a request.  A field holding another JSON value
    (a number, say) compares as the string it prints to, so [JStr] of that
    string covers it. *)
Module Standings.
Record t := mk { first : JsVal; second : JsVal; third : JsVal }.
End Standings.

(** The points both group handlers compute for a prediction, from
    [let points = 0] to the perfect-group bonus. *)
Definition groupPoints (prediction : GroupPrediction.t)
    (standings : Standings.t) : Z :=
  let points := 0 in
  let points :=
    if decide (String_of_ref (GroupPrediction.firstPlaceTeam prediction)
               = String_of (Standings.first standings))
    then points + 5 else points in
  let points :=
    if decide (String_of_ref (GroupPrediction.secondPlaceTeam prediction)
               = String_of (Standings.second standings))
    then points + 3 else points in
  let points :=
    if bool_decide (is_Some (GroupPrediction.thirdPlaceTeam prediction))
       && bool_decide
            (String_of_ref (GroupPrediction.thirdPlaceTeam prediction)
             = String_of (Standings.third standings))
    then points + 2 else points in
  if decide (points = 10) then points + 5 else points.

(** [prediction.save()] *)
Definition save_GroupPrediction (id : ObjectId) (p : GroupPrediction.t) : M unit :=
  if GroupPrediction.validate p
  then modify (set_groupPredictions <[id := p]>)
  else throw ValidationError.

Module CalculatePoints.
Record t := mk {
  group : string;
  pointsEarned : Z;
  previousPoints : Z;
  totalPoints : Z
}.
End CalculatePoints.

(** [POST /api/predictions/groups/calculate-points] for the signed-in user
    [reqUser]; the [details] object of the answer is left out. *)
Definition groupsCalculatePoints (reqUser : ObjectId) (group : string)
    (actualStandings : option Standings.t)
    : Store → Store * Response CalculatePoints.t :=
  respond (
    match actualStandings with
    | None => ret (Failure 400)
    | Some actualStandings =>
      if decide (group = EmptyString) then ret (Failure 400) else
      let g := toUpperCase group in
      let! prediction :=
        gets (λ st, findOne (groupPredictions st)
                (λ p, GroupPrediction.user p = Some reqUser
                      ∧ GroupPrediction.group p = g)) in
      match prediction with
      | None => ret (Failure 404)
      | Some (id, prediction) =>
        let points := groupPoints prediction actualStandings in
        let oldPoints := or0 (GroupPrediction.pointsAwarded prediction) in
        save_GroupPrediction id (GroupPrediction.set_points prediction points) ;;
        let! user := gets (λ st, users st !! reqUser) in
        match user with
        | None => throw TypeError
        | Some user =>
          let user :=
            User.set_totalPoints user
              (or0 (User.totalPoints user) - oldPoints + points) in
          save_User reqUser user ;;
          ret (Json (CalculatePoints.mk g points oldPoints
                       (User.totalPoints user)))
        end
      end
    end).

Module RecalcResult.
Record t := mk {
  userId : option ObjectId;
  group : string;
  newPoints : Z
}.
End RecalcResult.

Module RecalcGroups.
Record t := mk {
  updated : Z;
  results : list RecalcResult.t
}.
End RecalcGroups.

(** [POST /api/admin/recalculate-group-points]; [groupResults] is the list
    of [Object.entries] of the request object, [None] when the body has no
    such object. *)
Definition adminRecalculateGroupPoints
    (groupResults : option (list (string * Standings.t)))
    : Store → Store * Response RecalcGroups.t :=
  respond (
    match groupResults with
    | None => ret (Failure 400)
    | Some entries =>
      let! results :=
        foldOf (λ results (entry : string * Standings.t),
          let g := toUpperCase entry.1 in
          let! predictions :=
            gets (λ st, find (groupPredictions st)
                             (λ p, GroupPrediction.group p = g)) in
          foldOf (λ results (prediction : ObjectId * GroupPrediction.t),
            let points := groupPoints prediction.2 entry.2 in
            save_GroupPrediction prediction.1
              (GroupPrediction.set_points prediction.2 points) ;;
            ret (results ++
                 [RecalcResult.mk (GroupPrediction.user prediction.2) g points]))
            results predictions)
          [] entries in
      let touched :=
        uniq ((λ r, String_of_ref (RecalcResult.userId r)) <$> results) in
      forOf (λ uid, recalcUserTotals uid ;; ret tt) touched ;;
      ret (Json (RecalcGroups.mk (Z.of_nat (length results)) results))
    end).

(** ** Recomputing all users, and deleting predictions *)

(** [POST /api/admin/calculate-all-points]: the answer carries the number
    of users only. *)
Definition adminCalculateAllPoints : Store → Store * Response Z :=
  respond (
    let! us := gets (λ st, find (users st) (λ _, True)) in
    forOf (λ u : ObjectId * User.t, recalcUserTotals u.1 ;; ret tt) us ;;
    ret (Json (Z.of_nat (length us)))).

(** [DELETE /api/predictions/match/:matchId] *)
Definition deleteMatchPrediction (reqUser : ObjectId) (matchId : IdParam)
    : Store → Store * Response MatchPrediction.t :=
  respond (
    let! matchId := castId matchId in
    let! pred :=
      gets (λ st, findOne (matchPredictions st)
              (λ p, MatchPrediction.user p = Some reqUser
                    ∧ MatchPrediction.match_ p = matchId)) in
    match pred with
    | None => ret (Failure 404)
    | Some pred =>
      modify (set_matchPredictions (delete pred.1)) ;;
      recalcUserTotals reqUser ;;
      ret (Json pred.2)
    end).

(** [DELETE /api/predictions/group/:group] *)
Definition deleteGroupPrediction (reqUser : ObjectId) (group : string)
    : Store → Store * Response GroupPrediction.t :=
  respond (
    let group := toUpperCase group in
    let! pred :=
      gets (λ st, findOne (groupPredictions st)
              (λ p, GroupPrediction.user p = Some reqUser
                    ∧ GroupPrediction.group p = group)) in
    match pred with
    | None => ret (Failure 404)
    | Some pred =>
      modify (set_groupPredictions (delete pred.1)) ;;
      recalcUserTotals reqUser ;;
      ret (Json pred.2)
    end).

(** [DELETE /api/predictions/tournament] *)
Definition deleteTournamentPrediction (reqUser : ObjectId)
    : Store → Store * Response (option TournamentPrediction.t) :=
  respond (
    let! pred :=
      gets (λ st, findOne (tournamentPredictions st)
              (λ p, TournamentPrediction.user p = Some reqUser)) in
    match pred with
    | None => ret tt
    | Some pred => modify (set_tournamentPredictions (delete pred.1))
    end ;;
    recalcUserTotals reqUser ;;
    ret (Json (snd <$> pred))).

(** [DELETE /api/predictions/knockout]: the answer is the deleted count. *)
Definition deleteKnockoutPredictions (reqUser : ObjectId)
    : Store → Store * Response Z :=
  respond (
    let! deleted :=
      gets (λ st, countDocuments (knockoutPredictions st)
              (λ p, KnockoutPrediction.user p = Some reqUser)) in
    modify (set_knockoutPredictions
      (filter (λ kp : ObjectId * KnockoutPrediction.t,
                 KnockoutPrediction.user kp.2 ≠ Some reqUser))) ;;
    recalcUserTotals reqUser ;;
    ret (Json deleted)).

(** [DELETE /api/matches/:id]: the predictions of the match go with it and
    knockout predictions lose their link; no aggregate is recomputed. *)
Definition deleteMatch (id : IdParam) : Store → Store * Response Match.t :=
  respond (
    let! id := castId id in
    let! found := gets (λ st, matches st !! id) in
    match found with
    | None => ret (Failure 404)
    | Some m =>
      modify (set_matches (delete id)) ;;
      modify (set_matchPredictions
        (filter (λ kp : ObjectId * MatchPrediction.t,
                   MatchPrediction.match_ kp.2 ≠ id))) ;;
      modify (set_knockoutPredictions
        (fmap (λ p, if decide (KnockoutPrediction.match_ p = Some id)
                    then KnockoutPrediction.mk (KnockoutPrediction.user p)
                           (KnockoutPrediction.stage p)
                           (KnockoutPrediction.matchOrder p) None
                           (KnockoutPrediction.predictedWinnerTeam p)
                           (KnockoutPrediction.pointsAwarded p)
                    else p))) ;;
      ret (Json m)
    end).

(** ** Knockout results *)

Definition knockout_phases : list string :=
  ["Round of 32"; "Round of 16"; "Quarter Finals"; "Semi Finals";
   "Third Place"; "Final"]%string.

Definition phasePoints : gmap string Z :=
  list_to_map [("Round of 32", 1); ("Round of 16", 2); ("Quarter Finals", 3);
               ("Semi Finals", 5); ("Third Place", 3); ("Final", 10)]%string.

(** A finished knockout match with its two teams populated. *)
Module Played.
Record t := mk {
  id : ObjectId;
  doc : Match.t;
  homeTeam : option Team.t;
  awayTeam : option Team.t
}.
End Played.

(** The values of the [realById] map. *)
Module Real.
Record t := mk {
  winnerId : option string;
  winnerName : string;
  phase : string
}.
End Real.

(** The body of the loop over [played]; [None] is the [TypeError] of
    reading [_id] on a team that did not populate. *)
Definition realFor (m : Played.t) : option Real.t :=
  if js_gt (Match.homeScore (Played.doc m)) (Match.awayScore (Played.doc m))
  then t ← Played.homeTeam m;
       Some (Real.mk (Some (Match.homeTeam (Played.doc m))) (Team.name t)
                     (Match.phase (Played.doc m)))
  else if js_gt (Match.awayScore (Played.doc m)) (Match.homeScore (Played.doc m))
  then t ← Played.awayTeam m;
       Some (Real.mk (Some (Match.awayTeam (Played.doc m))) (Team.name t)
                     (Match.phase (Played.doc m)))
  else Some (Real.mk None "Empate" (Match.phase (Played.doc m))).

(** A knockout prediction with [predictedWinnerTeam] and [match]
    populated. *)
Module Populated.
Record t := mk {
  doc : KnockoutPrediction.t;
  predictedWinnerTeam : option (ObjectId * Team.t);
  match_ : option (ObjectId * Match.t)
}.
End Populated.

Module KnockoutResult.
Record t := mk {
  stage : string;
  matchOrder : Z;
  matchId : option string;
  myPrediction : option string;
  actualWinner : option string;
  isCorrect : option bool;
  pointsEarned : Z
}.
End KnockoutResult.

Module KnockoutSummary.
Record t := mk {
  totalPredictions : Z;
  completedMatches : Z;
  pendingMatches : Z;
  correctPredictions : Z;
  pointsFromKnockout : Z
}.
End KnockoutSummary.

Module KnockoutResults.
Record t := mk {
  results : list KnockoutResult.t;
  summary : KnockoutSummary.t
}.
End KnockoutResults.

(** One turn of the loop over [preds]: the entry pushed on [results].
    [String(p.predictedWinnerTeam?._id) === String(real.winnerId)] compares
    two id strings; the ["undefined"] printed for a team that did not
    populate is no ObjectId string, and an ObjectId string is never empty. *)
Definition resultFor (realById : gmap string Real.t) (p : Populated.t)
    : KnockoutResult.t :=
  let matchId := fst <$> Populated.match_ p in
  let real := id ← matchId; realById !! id in
  let verdict :=
    match real with
    | Some real =>
      match Real.winnerId real with
      | Some winnerId =>
        let isCorrect :=
          bool_decide
            (fst <$> Populated.predictedWinnerTeam p = Some winnerId) in
        (Some isCorrect,
         if isCorrect
         then match phasePoints !! KnockoutPrediction.stage (Populated.doc p) with
              | Some v => or1 v
              | None => 1
              end
         else 0)
      | None => (None, 0)
      end
    | None => (None, 0)
    end in
  KnockoutResult.mk
    (KnockoutPrediction.stage (Populated.doc p))
    (KnockoutPrediction.matchOrder (Populated.doc p))
    matchId
    (t ← Populated.predictedWinnerTeam p; nonempty (Team.name t.2))
    (r ← real; nonempty (Real.winnerName r))
    verdict.1 verdict.2.

(** The order of [.sort({ stage: 1, matchOrder: 1 })]. *)
Definition knockoutOrder (a b : ObjectId * KnockoutPrediction.t) : Prop :=
  String.ltb (KnockoutPrediction.stage a.2) (KnockoutPrediction.stage b.2) = true
  ∨ (KnockoutPrediction.stage a.2 = KnockoutPrediction.stage b.2
     ∧ KnockoutPrediction.matchOrder a.2 ≤ KnockoutPrediction.matchOrder b.2).

Global Instance knockoutOrder_dec : RelDecision knockoutOrder.
Proof. intros a b. unfold knockoutOrder. apply _. Defined.

(** [GET /api/predictions/knockout/results] for the signed-in user.  The
    counters [correctPredictions] and [pointsFromKnockout] of the loop are
    the number of entries with [isCorrect = true] and the sum of their
    [pointsEarned]. *)
Definition knockoutResults (userId : ObjectId)
    : Store → Store * Response KnockoutResults.t :=
  respond (
    let! preds :=
      gets (λ st,
        (λ kp : ObjectId * KnockoutPrediction.t,
           Populated.mk kp.2
             (populate (teams st)
                (Some (KnockoutPrediction.predictedWinnerTeam kp.2)))
             (populate (matches st) (KnockoutPrediction.match_ kp.2)))
        <$> merge_sort knockoutOrder
              (find (knockoutPredictions st)
                    (λ p, KnockoutPrediction.user p = Some userId))) in
    let! played :=
      gets (λ st,
        (λ km : ObjectId * Match.t,
           Played.mk km.1 km.2 (teams st !! Match.homeTeam km.2)
                     (teams st !! Match.awayTeam km.2))
        <$> find (matches st)
              (λ m, Match.phase m ∈ knockout_phases
                    ∧ Match.status m = Finished)) in
    let! realById :=
      foldOf (λ (realById : gmap string Real.t) m,
                match realFor m with
                | Some real => ret (<[Played.id m := real]> realById)
                | None => throw TypeError
                end) ∅ played in
    let results := resultFor realById <$> preds in
    let correct :=
      filter (λ r, KnockoutResult.isCorrect r = Some true) results in
    let correctPredictions := Z.of_nat (length correct) in
    let pointsFromKnockout := sumZ (KnockoutResult.pointsEarned <$> correct) in
    ret (Json (KnockoutResults.mk results
      (KnockoutSummary.mk
         (Z.of_nat (length preds))
         (Z.of_nat (length (filter
            (λ r, KnockoutResult.isCorrect r ≠ None) results)))
         (Z.of_nat (length (filter
            (λ r, KnockoutResult.isCorrect r = None) results)))
         correctPredictions pointsFromKnockout)))).

(** ** Leaderboard *)

(** The [$or] filter of the my-position query: the documents that rank
    above [user]. *)
Definition betterThan (user other : User.t) : Prop :=
  User.totalPoints other > User.totalPoints user
  ∨ (User.totalPoints other = User.totalPoints user
     ∧ User.correctScores other > User.correctScores user)
  ∨ (User.totalPoints other = User.totalPoints user
     ∧ User.correctScores other = User.correctScores user
     ∧ User.correctMatches other > User.correctMatches user).

Global Instance betterThan_dec user other : Decision (betterThan user other).
Proof. unfold betterThan. apply _. Defined.

Module MyPosition.
Record t := mk {
  position : Z;
  totalUsers : Z;
  totalPoints : Z;
  correctMatches : Z;
  correctScores : Z;
  percentile : float
}.
End MyPosition.

(** [totalUsers > 0 ? Math.round((1 - position / totalUsers) * 100) : 0] *)
Definition percentileOf (position totalUsers : Z) : float :=
  if decide (totalUsers > 0)
  then Math_round
         (PrimFloat.mul
            (PrimFloat.sub 1%float
               (PrimFloat.div (Z_to_float position) (Z_to_float totalUsers)))
            100%float)
  else 0%float.

(** [GET /api/leaderboard/my-position] for the signed-in user [reqUser].
    Reading a field of a missing user is a [TypeError]. *)
Definition leaderboardMyPosition (reqUser : ObjectId)
    : Store → Store * Response MyPosition.t :=
  respond (
    let! user := gets (λ st, users st !! reqUser) in
    match user with
    | None => throw TypeError
    | Some user =>
      let! betterUsers :=
        gets (λ st, countDocuments (users st) (betterThan user)) in
      let position := betterUsers + 1 in
      let! totalUsers :=
        gets (λ st, countDocuments (users st) (λ u, User.totalPoints u > 0)) in
      ret (Json (MyPosition.mk position totalUsers (User.totalPoints user)
                   (User.correctMatches user) (User.correctScores user)
                   (percentileOf position totalUsers)))
    end).

(** The order of [.sort({ totalPoints: -1, correctScores: -1,
    correctMatches: -1 })]: [a] may come before [b].  Documents equal on the
    three fields may come in either order. *)
Definition sortsBefore (a b : ObjectId * User.t) : Prop :=
  User.totalPoints a.2 > User.totalPoints b.2
  ∨ (User.totalPoints a.2 = User.totalPoints b.2
     ∧ (User.correctScores a.2 > User.correctScores b.2
        ∨ (User.correctScores a.2 = User.correctScores b.2
           ∧ User.correctMatches b.2 ≤ User.correctMatches a.2))).

Global Instance sortsBefore_dec : RelDecision sortsBefore.
Proof. intros a b. unfold sortsBefore. apply _. Defined.

(** The cursors the sorted query over all users may return: the users in
    an order the sort clause allows.  The database fixes no order among
    documents equal on the three fields, and may give them another one at
    the next query. *)
Definition sorted_cursor (st : Store) (l : list (ObjectId * User.t)) : Prop :=
  l ≡ₚ map_to_list (users st) ∧ StronglySorted sortsBefore l.

(** One of the sorted cursors, for running the leaderboard. *)
Definition ranking (st : Store) : list (ObjectId * User.t) :=
  merge_sort sortsBefore (map_to_list (users st)).

(** [.skip(skip).limit(limit)]: a limit of [0] means no limit, a negative
    limit counts as its absolute value. *)
Definition skip_limit {A} (skip limit : Z) (l : list A) : list A :=
  let l := drop (Z.to_nat skip) l in
  if decide (limit = 0) then l else take (Z.to_nat (Z.abs limit)) l.

Module Entry.
Record t := mk {
  position : Z;
  username : string;
  totalPoints : Z;
  correctMatches : Z;
  correctScores : Z
}.
End Entry.

Module Leaderboard.
Record t := mk {
  leaderboard : list Entry.t;
  page : Z;
  totalUsers : Z
}.
End Leaderboard.

(** [GET /api/leaderboard], given the cursor that its sorted query over the
    users returns: [page] and [limit] are the numeric query parameters when
    given.  The driver rejects a negative skip.  The [totalPages] field of
    the answer is left out. *)
Definition leaderboardFrom (cursor : list (ObjectId * User.t))
    (page limit : option Z) : Store → Store * Response Leaderboard.t :=
  respond (
    let page := default 1 page in
    let limit := default 50 limit in
    let skip := (page - 1) * limit in
    if decide (skip < 0) then throw MongoError else
    let found := skip_limit skip limit cursor in
    let! totalUsers := gets (λ st, countDocuments (users st) (λ _, True)) in
    let leaderboard :=
      imap (λ i (u : ObjectId * User.t),
              Entry.mk (skip + Z.of_nat i + 1) (User.username u.2)
                (User.totalPoints u.2) (User.correctMatches u.2)
                (User.correctScores u.2)) found in
    ret (Json (Leaderboard.mk leaderboard page totalUsers))).

(** The handler on the cursor [ranking]. *)
Definition leaderboard (page limit : option Z)
    : Store → Store * Response Leaderboard.t :=
  λ st, leaderboardFrom (ranking st) page limit st.

(** ** The operations that write a score or a user *)

Inductive Operation :=
  | RecalcUserTotals (userId : ObjectId)
  | CalculateMatchPoints (matchId : ObjectId)
  | AdminUpdateMatch (id : IdParam) (homeScore awayScore : option Z)
      (status : MatchStatus)
  | AdminRecalculateGroupPoints
      (groupResults : option (list (string * Standings.t)))
  | AdminCalculateAllPoints
  | GroupsCalculatePoints (reqUser : ObjectId) (group : string)
      (actualStandings : option Standings.t)
  | DeleteMatchPrediction (reqUser : ObjectId) (matchId : IdParam)
  | DeleteGroupPrediction (reqUser : ObjectId) (group : string)
  | DeleteTournamentPrediction (reqUser : ObjectId)
  | DeleteKnockoutPredictions (reqUser : ObjectId)
  | DeleteMatch (id : IdParam).

(** The store an operation leaves. *)
Definition run (op : Operation) (st : Store) : Store :=
  match op with
  | RecalcUserTotals userId => (recalcUserTotals userId st).1
  | CalculateMatchPoints matchId => (calculateMatchPointsForAllUsers matchId st).1
  | AdminUpdateMatch id homeScore awayScore status =>
      (adminUpdateMatch id homeScore awayScore status st).1
  | AdminRecalculateGroupPoints groupResults =>
      (adminRecalculateGroupPoints groupResults st).1
  | AdminCalculateAllPoints => (adminCalculateAllPoints st).1
  | GroupsCalculatePoints reqUser group actualStandings =>
      (groupsCalculatePoints reqUser group actualStandings st).1
  | DeleteMatchPrediction reqUser matchId =>
      (deleteMatchPrediction reqUser matchId st).1
  | DeleteGroupPrediction reqUser group => (deleteGroupPrediction reqUser group st).1
  | DeleteTournamentPrediction reqUser => (deleteTournamentPrediction reqUser st).1
  | DeleteKnockoutPredictions reqUser => (deleteKnockoutPredictions reqUser st).1
  | DeleteMatch id => (deleteMatch id st).1
  end.

(** ** What the design asks for

    The sums and counts the data model prescribes for the aggregate, the
    ranking key, the knockout rows of the rule table, and the policy the
    design states for batch scoring. *)

Definition owned_by {D} (owner : D → option ObjectId) (userId : ObjectId)
    (c : gmap string D) : list D :=
  (filter (λ kd : string * D, owner kd.2 = Some userId) (map_to_list c)).*2.

Definition sum_of_points (st : Store) (userId : ObjectId) : Z :=
  sumZ (GroupPrediction.pointsAwarded
          <$> owned_by GroupPrediction.user userId (groupPredictions st))
  + sumZ (MatchPrediction.pointsAwarded
            <$> owned_by MatchPrediction.user userId (matchPredictions st))
  + sumZ (KnockoutPrediction.pointsAwarded
            <$> owned_by KnockoutPrediction.user userId (knockoutPredictions st))
  + sumZ (TournamentPrediction.pointsAwarded
            <$> owned_by TournamentPrediction.user userId
                         (tournamentPredictions st)).

Definition count_correct_winner (st : Store) (userId : ObjectId) : Z :=
  Z.of_nat (length (filter (λ p, MatchPrediction.isCorrectWinner p = true)
    (owned_by MatchPrediction.user userId (matchPredictions st)))).

Definition count_correct_score (st : Store) (userId : ObjectId) : Z :=
  Z.of_nat (length (filter (λ p, MatchPrediction.isCorrectScore p = true)
    (owned_by MatchPrediction.user userId (matchPredictions st)))).

(** The unique index on [TournamentPrediction.user]. *)
Definition unique_owner (c : gmap string TournamentPrediction.t) : Prop :=
  NoDup (TournamentPrediction.user <$> (map_to_list c).*2).

(** The ranking key of the design: the tuple compared lexicographically. *)
Definition rank_key (u : User.t) : Z * Z * Z :=
  (User.totalPoints u, User.correctScores u, User.correctMatches u).

(** The design's account of ties, read on an answer of the leaderboard: two
    rows of different users with the same tuple stand at consecutive
    positions. *)
Definition tied_rows_consecutive (r : Leaderboard.t) : Prop :=
  ∀ ea eb, ea ∈ Leaderboard.leaderboard r → eb ∈ Leaderboard.leaderboard r →
    Entry.username ea ≠ Entry.username eb →
    Entry.totalPoints ea = Entry.totalPoints eb →
    Entry.correctScores ea = Entry.correctScores eb →
    Entry.correctMatches ea = Entry.correctMatches eb →
    Entry.position ea = Entry.position eb + 1
    ∨ Entry.position eb = Entry.position ea + 1.

(** The knockout rows of the rule table. *)
Definition stage_values : list (string * Z) :=
  [("Round of 32", 1); ("Round of 16", 2); ("Quarter Finals", 3);
   ("Semi Finals", 5); ("Third Place", 3); ("Final", 10)]%string.

(** The rule of the design for the knockout predictions of a user whose
    pick is the winner of the linked match, finished with unequal scores:
    the row of the results query is correct and earns the value of the
    stage. *)
Definition correct_pick_earns_stage_value (st : Store) (userId : ObjectId)
    : Prop :=
  ∀ r id p mid m h a v,
    knockoutResults userId st = (st, Json r) →
    knockoutPredictions st !! id = Some p →
    KnockoutPrediction.user p = Some userId →
    KnockoutPrediction.match_ p = Some mid → matches st !! mid = Some m →
    Match.status m = Finished →
    Match.homeScore m = Some h → Match.awayScore m = Some a → h ≠ a →
    KnockoutPrediction.predictedWinnerTeam p
    = (if decide (h > a) then Match.homeTeam m else Match.awayTeam m) →
    (KnockoutPrediction.stage p, v) ∈ stage_values →
    ∃ res, res ∈ KnockoutResults.results r
      ∧ KnockoutResult.stage res = KnockoutPrediction.stage p
      ∧ KnockoutResult.matchOrder res = KnockoutPrediction.matchOrder p
      ∧ KnockoutResult.isCorrect res = Some true
      ∧ KnockoutResult.pointsEarned res = v.

(** The percentile in exact arithmetic: [(1 - position / totalUsers) * 100]
    rounded to the nearest integer, a tie going up. *)
Definition exact_percentile (position totalUsers : Z) : Z :=
  (200 * (totalUsers - position) + totalUsers) `div` (2 * totalUsers).

(** The percentile the design asks of an answer of the my-position query:
    the exactly rounded value, and 0 when no user is ranked. *)
Definition percentile_as_designed (r : MyPosition.t) : Prop :=
  float_to_Z (MyPosition.percentile r)
  = Some (if decide (MyPosition.totalUsers r > 0)
          then exact_percentile (MyPosition.position r)
                                (MyPosition.totalUsers r)
          else 0).

(** The pairs whose exact percentile lies halfway between two integers. *)
Definition percentile_tie (position totalUsers : Z) : Prop :=
  (200 * (totalUsers - position)) `mod` (2 * totalUsers) = totalUsers.

(** How a double-precision percentile [z] may stand to the exact one: equal
    to it, or one below it where the exact value is a tie. *)
Definition percentile_close (position totalUsers : Z) (z : option Z) : Prop :=
  z = Some (exact_percentile position totalUsers)
  ∨ (percentile_tie position totalUsers
     ∧ z = Some (exact_percentile position totalUsers - 1)).

Global Instance percentile_close_dec position totalUsers z :
  Decision (percentile_close position totalUsers z).
Proof. unfold percentile_close, percentile_tie. apply _. Defined.

(** Whether the double-precision percentile is close to the exact one for
    every [totalUsers] from 1 to [n] and [position] from 1 to [2 n]. *)
Definition percentile_checked (n : nat) : bool :=
  forallb (λ t : nat,
    forallb (λ p : nat,
      bool_decide (percentile_close (Z.of_nat p) (Z.of_nat t)
                     (float_to_Z (percentileOf (Z.of_nat p) (Z.of_nat t)))))
    (seq 1 (2 * n)))
  (seq 1 n).

(** The collect-errors-and-continue policy, for one store and match: however
    the run ends, every prediction of the match that passes validation has
    been scored. *)
Definition scores_every_valid_prediction (st : Store) (matchId : ObjectId)
    : Prop :=
  ∀ m, matches st !! matchId = Some m → Match.status m = Finished →
  ∀ id p, matchPredictions st !! id = Some p →
    MatchPrediction.match_ p = matchId →
    MatchPrediction.validate p = true →
    matchPredictions (calculateMatchPointsForAllUsers matchId st).1 !! id
    = Some (scoreMatchPrediction m (computeActualWinner m) p).

(** ** Derived forms used in the proofs *)

(** The three aggregate values [recalcUserTotals] computes for a user. *)
Definition totalPointsOf (st : Store) (userId : ObjectId) : Z :=
  foldl (λ s p, s + or0 (GroupPrediction.pointsAwarded p.2)) 0
        (find (groupPredictions st) (λ p, GroupPrediction.user p = Some userId))
  + foldl (λ s p, s + or0 (MatchPrediction.pointsAwarded p.2)) 0
          (find (matchPredictions st) (λ p, MatchPrediction.user p = Some userId))
  + foldl (λ s p, s + or0 (KnockoutPrediction.pointsAwarded p.2)) 0
          (find (knockoutPredictions st)
                (λ p, KnockoutPrediction.user p = Some userId))
  + match findOne (tournamentPredictions st)
                  (λ p, TournamentPrediction.user p = Some userId) with
    | Some p => or0 (TournamentPrediction.pointsAwarded p.2)
    | None => 0
    end.

Definition correctMatchesOf (st : Store) (userId : ObjectId) : Z :=
  Z.of_nat (length (filter (λ p, MatchPrediction.isCorrectWinner p.2 = true)
    (find (matchPredictions st) (λ p, MatchPrediction.user p = Some userId)))).

Definition correctScoresOf (st : Store) (userId : ObjectId) : Z :=
  Z.of_nat (length (filter (λ p, MatchPrediction.isCorrectScore p.2 = true)
    (find (matchPredictions st) (λ p, MatchPrediction.user p = Some userId)))).

Definition recomputed (st : Store) (userId : ObjectId) (u : User.t) : User.t :=
  User.set_totals u (totalPointsOf st userId) (correctMatchesOf st userId)
                  (correctScoresOf st userId).

(** The effect of a loop of [save] calls on a collection: each listed
    document is written back after [f] has been applied to it. *)
Definition write_all {D} (f : D → D) (c : gmap string D)
    (l : list (string * D)) : gmap string D :=
  foldl (λ c kp, <[kp.1 := f kp.2]> c) c l.

(** What the scoring loop makes of one stored prediction. *)
Definition rescore (m : Match.t) (matchId : ObjectId)
    (p : MatchPrediction.t) : MatchPrediction.t :=
  if decide (MatchPrediction.match_ p = matchId)
  then scoreMatchPrediction m (computeActualWinner m) p
  else p.

(** The owners of the predictions of a match, as the loop lists them. *)
Definition affectedUserIds (st : Store) (matchId : ObjectId) : list ObjectId :=
  uniq ((λ p : ObjectId * MatchPrediction.t,
           String_of_ref (MatchPrediction.user p.2))
        <$> find (matchPredictions st) (λ p, MatchPrediction.match_ p = matchId)).

(** The users after [recalcUserTotals] has returned for each id of
    [uids]. *)
Definition recalc_users (st : Store) (uids : list ObjectId)
    (us : gmap string User.t) : gmap string User.t :=
  foldl (λ us uid, match us !! uid with
                   | Some u => <[uid := recomputed st uid u]> us
                   | None => us
                   end) us uids.

(** Whether [save] accepts the document of user [uid], if there is one. *)
Definition valid_user (st : Store) (uid : ObjectId) : bool :=
  match users st !! uid with
  | Some u => User.validate u
  | None => true
  end.

(** The store a successful run of [calculateMatchPointsForAllUsers] leaves. *)
Definition finalized (m : Match.t) (matchId : ObjectId) (st : Store) : Store :=
  let scored := set_matchPredictions (fmap (rescore m matchId)) st in
  set_users (recalc_users scored (affectedUserIds st matchId)) scored.

(** The entry the leaderboard shows for the document at index [i] of the
    sorted cursor. *)
Definition entry_at (i : nat) (u : User.t) : Entry.t :=
  Entry.mk (Z.of_nat i + 1) (User.username u) (User.totalPoints u)
    (User.correctMatches u) (User.correctScores u).

(** A run in which the aggregate fields change only through
    [recalcUserTotals]: the users it leaves are the users it found, with the
    aggregate recomputed for some of them. *)
Definition aggregates_only_recomputed (op : Operation) (st : Store) : Prop :=
  ∃ uids, users (run op st) = recalc_users (run op st) uids (users st).

(** A computation that leaves the users as they are. *)
Definition preserves_users {A} (m : M A) : Prop :=
  ∀ st st' o, m st = (st', o) → users st' = users st.

(** A computation that changes users only by recomputing aggregates. *)
Definition writes_by_recalc {A} (m : M A) : Prop :=
  ∀ st st' o, m st = (st', o) →
    ∃ uids, users st' = recalc_users st' uids (users st).

(** ** Sample data used to exercise the definitions *)

Module Sample.
Local Open Scope string_scope.

Definition ana := User.mk "ana" "ana@example.com" "Online" 0 0 0.
Definition bea := User.mk "bea" "bea@example.com" "Online" 0 0 0.

(** Actual result HOME 2-0 AWAY. *)
Definition m1 := Match.mk "t1" "t2" (Some 2) (Some 0) "Group Stage" Finished.

Definition exact_guess := MatchPrediction.mk (Some "ana") "m1" 2 0 HOME 0 false false.
Definition winner_guess := MatchPrediction.mk (Some "bea") "m1" 1 0 HOME 0 false false.
(** A record that [save] rejects: its owner reference is missing. *)
Definition orphan_guess := MatchPrediction.mk None "m1" 0 0 DRAW 0 false false.

Definition store : Store :=
  mkStore
    (list_to_map [("t1", Team.mk "Mexico"); ("t2", Team.mk "Canada")])
    (list_to_map [("m1", m1)])
    (list_to_map [("ana", ana); ("bea", bea)])
    (list_to_map [("p1", exact_guess); ("p2", winner_guess)])
    (list_to_map [("g1", GroupPrediction.mk (Some "ana") "A" (Some "t1")
                           (Some "t2") None 8)])
    (list_to_map [("k1", KnockoutPrediction.mk (Some "ana") "Final" 1 None
                           "t1" 10)])
    (list_to_map [("w1", TournamentPrediction.mk (Some "ana") 5)]).

Definition perfect_group :=
  GroupPrediction.mk (Some "ana") "A" (Some "t1") (Some "t2") (Some "t3") 0.
Definition two_team_group :=
  GroupPrediction.mk (Some "bea") "A" (Some "t1") (Some "t2") None 0.
Definition standings_A := Standings.mk (JStr "t1") (JStr "t2") (JStr "t3").

(** A consistent store: the match has been scored and both aggregates are
    the sums of the stored points. *)
Definition scored_store : Store :=
  mkStore
    (list_to_map [("t1", Team.mk "Mexico"); ("t2", Team.mk "Canada")])
    (list_to_map [("m1", m1)])
    (list_to_map [("ana", User.mk "ana" "ana@example.com" "Online" 8 1 1);
                  ("bea", User.mk "bea" "bea@example.com" "Online" 3 1 0)])
    (list_to_map [("p1", MatchPrediction.set_score exact_guess 8 true true);
                  ("p2", MatchPrediction.set_score winner_guess 3 true false)])
    (list_to_map [("g1", GroupPrediction.mk (Some "ana") "A" (Some "t1")
                           (Some "t2") None 0)])
    ∅ ∅.

(** Standings of group A in which only the first place is as predicted. *)
Definition standings_first_only := Standings.mk (JStr "t1") (JStr "t9") JNull.

Definition dan := User.mk "dan" "dan@example.com" "Online" 0 0 0.
Definition eva := User.mk "eva" "eva@example.com" "Online" 0 0 0.

(** One ranked user and three users without points, one of which differs
    from the other two on a tie-break field. *)
Definition standings_store : Store :=
  mkStore ∅ ∅
    (list_to_map [("ana", User.mk "ana" "ana@example.com" "Online" 10 0 0);
                  ("bea", User.mk "bea" "bea@example.com" "Online" 0 1 0);
                  ("dan", dan); ("eva", eva)])
    ∅ ∅ ∅ ∅.

(** A leader and three users with one and the same tuple. *)
Definition tied_store : Store :=
  mkStore ∅ ∅
    (list_to_map [("ana", User.mk "ana" "ana@example.com" "Online" 10 0 0);
                  ("bea", User.mk "bea" "bea@example.com" "Online" 5 2 1);
                  ("dan", User.mk "dan" "dan@example.com" "Online" 5 2 1);
                  ("eva", User.mk "eva" "eva@example.com" "Online" 5 2 1)])
    ∅ ∅ ∅ ∅.

(** Forty users, the user numbered [n] holding [n] points. *)
Definition numbered (n : nat) : string :=
  String (Ascii.ascii_of_nat (48 + n / 10))
    (String (Ascii.ascii_of_nat (48 + n mod 10)) EmptyString).

Definition forty_store : Store :=
  mkStore ∅ ∅
    (list_to_map
       ((λ n, ("u" +:+ numbered n,
               User.mk ("u" +:+ numbered n)
                 ("u" +:+ numbered n +:+ "@example.com") "Online"
                 (Z.of_nat n) 0 0))
        <$> seq 1 40))
    ∅ ∅ ∅ ∅.

(** A final won 2-1 by the home team and a drawn semi-final, with a right
    guess, a guess on the drawn match and a wrong guess. *)
Definition final := Match.mk "t1" "t2" (Some 2) (Some 1) "Final" Finished.
Definition semi := Match.mk "t1" "t2" (Some 1) (Some 1) "Semi Finals" Finished.
Definition right_guess := KnockoutPrediction.mk (Some "ana") "Final" 1 (Some "k1") "t1" 0.
Definition drawn_guess := KnockoutPrediction.mk (Some "ana") "Semi Finals" 1 (Some "k2") "t1" 0.
Definition wrong_guess := KnockoutPrediction.mk (Some "ana") "Final" 2 (Some "k1") "t2" 0.

Definition knockout_store : Store :=
  mkStore
    (list_to_map [("t1", Team.mk "Mexico"); ("t2", Team.mk "Canada")])
    (list_to_map [("k1", final); ("k2", semi)])
    (list_to_map [("ana", ana)])
    ∅ ∅
    (list_to_map [("a", right_guess); ("b", drawn_guess); ("c", wrong_guess)])
    ∅.

(** The sample store with one more user, whose document has no address. *)
Definition unsaved_store : Store :=
  set_users <["zoe" := User.mk "zoe" "" "Online" 0 0 0]> store.

(** A pick for the final that is linked to the group-stage match [m1], won
    2-0 by the team picked. *)
Definition linked_guess :=
  KnockoutPrediction.mk (Some "ana") "Final" 1 (Some "m1") "t1" 0.

Definition linked_store : Store :=
  mkStore (teams store) (matches store) (users store) ∅ ∅
    (list_to_map [("a", linked_guess)]) ∅.

(** The same match with a prediction whose owner reference is missing. *)
Definition orphan_store : Store :=
  mkStore (teams store) (matches store) (users store)
    (list_to_map [("p1", orphan_guess); ("p2", winner_guess)])
    (groupPredictions store) (knockoutPredictions store)
    (tournamentPredictions store).
End Sample.


(** * Further parts of the server *)

(** ** The admin whitelist *)

(** [s.toLowerCase()] on the ASCII letters. *)
Definition lower_char (c : Ascii.ascii) : Ascii.ascii :=
  let n := Ascii.nat_of_ascii c in
  if bool_decide (65 ≤ n ≤ 90)%nat then Ascii.ascii_of_nat (n + 32) else c.

Fixpoint toLowerCase (s : string) : string :=
  match s with
  | EmptyString => EmptyString
  | String c s' => String (lower_char c) (toLowerCase s')
  end.

(** The white space [trim] strips, among the ASCII characters: tab, line
    feed, vertical tab, form feed, carriage return and space. *)
Definition is_space (c : Ascii.ascii) : bool :=
  bool_decide (Ascii.nat_of_ascii c ∈ [9; 10; 11; 12; 13; 32]%nat).

Fixpoint trimStart (s : string) : string :=
  match s with
  | EmptyString => EmptyString
  | String c s' => if is_space c then trimStart s' else s
  end.

Fixpoint trimEnd (s : string) : string :=
  match s with
  | EmptyString => EmptyString
  | String c s' =>
      match trimEnd s' with
      | EmptyString => if is_space c then EmptyString else String c EmptyString
      | t => String c t
      end
  end.

(** [s.trim()] *)
Definition trim (s : string) : string := trimEnd (trimStart s).

(** The separator of the whitelist, [','] (code 44). *)
Definition comma : Ascii.ascii := Ascii.ascii_of_nat 44.

(** [s.split(sep)] for a separator of one character. *)
Fixpoint split (sep : Ascii.ascii) (s : string) : list string :=
  match s with
  | EmptyString => [EmptyString]
  | String c s' =>
      if decide (c = sep) then EmptyString :: split sep s'
      else match split sep s' with
           | piece :: pieces => String c piece :: pieces
           | [] => [String c EmptyString]
           end
  end.

(** The user of a session: [email] is [None] when the field is missing. *)
Module SessionUser.
Record t := mk { email : option string }.
End SessionUser.

(** [isAdmin(user)], with the value of [process.env.ADMIN_EMAILS]. *)
Definition isAdmin (ADMIN_EMAILS : option string)
    (user : option SessionUser.t) : bool :=
  match user with
  | None => false
  | Some user =>
    match SessionUser.email user ≫= nonempty with
    | None => false
    | Some email =>
      let adminEmails :=
        filter (λ e, e ≠ EmptyString)
          ((λ e, toLowerCase (trim e))
           <$> split comma
                 (default EmptyString (ADMIN_EMAILS ≫= nonempty))) in
      bool_decide (toLowerCase email ∈ adminEmails)
    end
  end.

(** What a middleware does with a request: pass it on, or answer it. *)
Inductive Guard :=
  | Next
  | Rejected (status : Z).

(** [ensureAuthenticated] and [requireAdmin]; [isAuthenticated] is the
    value of [req.isAuthenticated && req.isAuthenticated()]. *)
Definition ensureAuthenticated (isAuthenticated : bool) : Guard :=
  if isAuthenticated then Next else Rejected 401.

Definition requireAdmin (ADMIN_EMAILS : option string) (isAuthenticated : bool)
    (user : option SessionUser.t) : Guard :=
  if negb isAuthenticated then Rejected 401
  else if negb (isAdmin ADMIN_EMAILS user) then Rejected 403
  else Next.

(** ** Creating a match *)

Definition match_phases : list string :=
  ["Group Stage"; "Round of 32"; "Round of 16"; "Quarter Finals";
   "Semi Finals"; "Third Place"; "Final"]%string.

(** The enum value a [status] string names, if any. *)
Definition Status_of (s : string) : option MatchStatus :=
  if decide (s = "Scheduled"%string) then Some Scheduled
  else if decide (s = "Live"%string) then Some Live
  else if decide (s = "Finished"%string) then Some Finished
  else if decide (s = "Postponed"%string) then Some Postponed
  else if decide (s = "Cancelled"%string) then Some Cancelled
  else None.

(** The object given to [Match.create], with the fields that decide whether
    the document is accepted; [matchKey] is [None] when the object has no
    such field. *)
Module NewMatch.
Record t := mk {
  matchKey : option string;
  homeTeam : ObjectId;
  awayTeam : ObjectId;
  matchDate : string;
  phase : string;
  status : string
}.
End NewMatch.

(** [Match.create(doc)] for well-formed ids and date.  The schema requires
    [matchKey], which has a unique index, and takes [phase] and [status]
    from their enums; [matchKeys] are the keys of the stored matches and
    [newId] is the [_id] the driver generates.  The stored document starts
    without scores. *)
Definition createMatch (newId : ObjectId) (matchKeys : list string)
    (doc : NewMatch.t) : M (ObjectId * Match.t) :=
  match NewMatch.matchKey doc ≫= nonempty, Status_of (NewMatch.status doc) with
  | Some matchKey, Some status =>
    if decide (NewMatch.phase doc ∈ match_phases)
    then
      if decide (matchKey ∈ matchKeys) then throw MongoError else
      let m := Match.mk (NewMatch.homeTeam doc) (NewMatch.awayTeam doc) None
                 None (NewMatch.phase doc) status in
      modify (set_matches <[newId := m]>) ;;
      ret (newId, m)
    else throw ValidationError
  | _, _ => throw ValidationError
  end.

(** [POST /api/matches]; a field is [None] when the body lacks it.  [Json]
    is the answer 201, with the created match read back. *)
Definition postMatch (newId : ObjectId) (matchKeys : list string)
    (homeTeam awayTeam matchDate phase status : option string)
    : Store → Store * Response (option Match.t) :=
  respond (
    match homeTeam ≫= nonempty, awayTeam ≫= nonempty,
          matchDate ≫= nonempty with
    | Some homeTeam, Some awayTeam, Some matchDate =>
      if decide (homeTeam = awayTeam) then ret (Failure 400) else
      let! newMatch :=
        createMatch newId matchKeys
          (NewMatch.mk None homeTeam awayTeam matchDate
             (default "Group Stage"%string (phase ≫= nonempty))
             (default "Scheduled"%string (status ≫= nonempty))) in
      let! populated := gets (λ st, matches st !! newMatch.1) in
      ret (Json populated)
    | _, _, _ => ret (Failure 400)
    end).

(** ** Saving a match prediction *)

(** The enum value a [winnerPred] string names, if any. *)
Definition Winner_of (s : string) : option Winner :=
  if decide (s = "HOME"%string) then Some HOME
  else if decide (s = "AWAY"%string) then Some AWAY
  else if decide (s = "DRAW"%string) then Some DRAW
  else None.

(** [MatchPrediction.findOneAndUpdate({ user, match }, { homeGoalsPred,
    awayGoalsPred, winnerPred }, { new: true, upsert: true, runValidators:
    true })].  The update validators check the three paths of the update
    before anything is written.  An update leaves the other fields of the
    document it finds as they are; an insert gives them their schema
    defaults, under the [_id] the driver generates, [newId]. *)
Definition upsertMatchPrediction (newId user match_ : ObjectId)
    (homeGoalsPred awayGoalsPred : Z) (winnerPred : string)
    : M (ObjectId * MatchPrediction.t) :=
  match Winner_of winnerPred with
  | None => throw ValidationError
  | Some winnerPred =>
    if bool_decide (0 ≤ homeGoalsPred) && bool_decide (0 ≤ awayGoalsPred)
    then
      let! found :=
        gets (λ st, findOne (matchPredictions st)
                (λ p, MatchPrediction.user p = Some user
                      ∧ MatchPrediction.match_ p = match_)) in
      let doc :=
        match found with
        | Some (id, p) =>
            (id, MatchPrediction.mk (MatchPrediction.user p)
                   (MatchPrediction.match_ p) homeGoalsPred awayGoalsPred
                   winnerPred (MatchPrediction.pointsAwarded p)
                   (MatchPrediction.isCorrectWinner p)
                   (MatchPrediction.isCorrectScore p))
        | None =>
            (newId, MatchPrediction.mk (Some user) match_ homeGoalsPred
                      awayGoalsPred winnerPred 0 false false)
        end in
      modify (set_matchPredictions <[doc.1 := doc.2]>) ;;
      ret doc
    else throw ValidationError
  end.

(** [POST /api/predictions/match] for the signed-in user [reqUser] and a
    request that gives both goal counts; [matchId] and [winnerPred] are
    [None] when the body lacks them.  [Json] is the answer 201. *)
Definition postMatchPrediction (newId reqUser : ObjectId)
    (matchId : option ObjectId) (homeGoalsPred awayGoalsPred : Z)
    (winnerPred : option string)
    : Store → Store * Response MatchPrediction.t :=
  respond (
    match matchId ≫= nonempty, winnerPred ≫= nonempty with
    | Some matchId, Some winnerPred =>
      let! found := gets (λ st, matches st !! matchId) in
      match found with
      | None => ret (Failure 404)
      | Some m =>
        if decide (Match.status m = Finished) then ret (Failure 400) else
        let! prediction :=
          upsertMatchPrediction newId reqUser matchId homeGoalsPred
            awayGoalsPred winnerPred in
        ret (Json prediction.2)
      end
    | _, _ => ret (Failure 400)
    end).

(** ** Saving group predictions in bulk *)

(** [try { m } catch (err) { h(err) }]: what [m] wrote before it threw is
    kept. *)
Definition catch {A} (m : M A) (h : Error → M A) : M A :=
  λ st, match m st with
        | (st', Returned a) => (st', Returned a)
        | (st', Threw e) => h e st'
        end.

(** The value of one key of the [predictions] object: the three picks, each
    absent, [null] or a string. *)
Module GroupPick.
Record t := mk { first : JsVal; second : JsVal; third : JsVal }.
End GroupPick.

(** The id a truthy pick holds; [undefined], [null] and the empty string
    are falsy. *)
Definition truthy (v : JsVal) : option ObjectId :=
  match v with
  | JStr s => nonempty s
  | _ => None
  end.

Inductive BulkError :=
  | InvalidGroup
  | MissingPlaces
  | TeamsNotFound
  | Thrown (e : Error).

Module Bulk.
Record t := mk {
  saved : Z;
  total : Z;
  predictions : list GroupPrediction.t;
  errors : list (string * BulkError)
}.
End Bulk.

(** [Team.find({ _id: { $in: teamIds } })] *)
Definition findByIds {D} (c : gmap string D) (ids : list ObjectId)
    : list (ObjectId * D) :=
  filter (λ kd : ObjectId * D, kd.1 ∈ ids) (map_to_list c).

(** [GroupPrediction.findOneAndUpdate({ user, group }, { firstPlaceTeam,
    secondPlaceTeam, thirdPlaceTeam }, { new: true, upsert: true,
    runValidators: true })] for picks that are ids.  [newId] is the [_id]
    the driver generates for a document inserted into the collection it is
    given. *)
Definition upsertGroupPrediction
    (newId : gmap string GroupPrediction.t → ObjectId) (user : ObjectId)
    (group : string) (first second : ObjectId) (third : option ObjectId)
    : M (ObjectId * GroupPrediction.t) :=
  let! found :=
    gets (λ st, findOne (groupPredictions st)
            (λ p, GroupPrediction.user p = Some user
                  ∧ GroupPrediction.group p = group)) in
  let! fresh := gets (λ st, newId (groupPredictions st)) in
  let doc :=
    match found with
    | Some (id, p) =>
        (id, GroupPrediction.mk (GroupPrediction.user p)
               (GroupPrediction.group p) (Some first) (Some second) third
               (GroupPrediction.pointsAwarded p))
    | None =>
        (fresh, GroupPrediction.mk (Some user) group (Some first)
                  (Some second) third 0)
    end in
  modify (set_groupPredictions <[doc.1 := doc.2]>) ;;
  ret doc.

(** One turn of the loop of the bulk handler, with its own [try]/[catch];
    [acc] holds [savedPredictions] and [errors].  A value that is [null]
    ([None]) makes the read of its [first] a [TypeError]. *)
Definition bulkItem (newId : gmap string GroupPrediction.t → ObjectId)
    (reqUser : ObjectId)
    (acc : list GroupPrediction.t * list (string * BulkError))
    (entry : string * option GroupPick.t)
    : M (list GroupPrediction.t * list (string * BulkError)) :=
  let savedPredictions := acc.1 in
  let errors := acc.2 in
  let groupKey := entry.1 in
  catch (
    let g := toUpperCase groupKey in
    if decide (g ∉ GroupPrediction.group_codes)
    then ret (savedPredictions, errors ++ [(g, InvalidGroup)]) else
    let! groupPred :=
      match entry.2 with
      | None => throw TypeError
      | Some groupPred => ret groupPred
      end in
    match truthy (GroupPick.first groupPred),
          truthy (GroupPick.second groupPred) with
    | Some first, Some second =>
      let third := truthy (GroupPick.third groupPred) in
      let teamIds := first :: second :: option_list third in
      let! found := gets (λ st, findByIds (teams st) teamIds) in
      if decide (length found < 2)%nat
      then ret (savedPredictions, errors ++ [(g, TeamsNotFound)]) else
      let! prediction :=
        upsertGroupPrediction newId reqUser g first second third in
      ret (savedPredictions ++ [prediction.2], errors)
    | _, _ => ret (savedPredictions, errors ++ [(g, MissingPlaces)])
    end)
  (λ err, ret (savedPredictions, errors ++ [(groupKey, Thrown err)])).

(** [POST /api/predictions/groups/bulk] for the signed-in user [reqUser];
    [predictions] is the list of [Object.entries] of the request object,
    [None] when the body has no such object, and the picks that are strings
    are well-formed ids.  [Json] is the answer 201; the saved predictions
    are listed without their populated teams. *)
Definition postGroupsBulk (newId : gmap string GroupPrediction.t → ObjectId)
    (reqUser : ObjectId)
    (predictions : option (list (string * option GroupPick.t)))
    : Store → Store * Response Bulk.t :=
  respond (
    match predictions with
    | None => ret (Failure 400)
    | Some entries =>
      let! acc := foldOf (bulkItem newId reqUser) ([], []) entries in
      ret (Json (Bulk.mk (Z.of_nat (length acc.1))
                   (Z.of_nat (length entries)) acc.1 acc.2))
    end).

(** ** The predictions summary *)

Module Summary.
Record t := mk {
  username : string;
  totalPoints : Z;
  correctMatches : Z;
  correctScores : Z;
  groupsTotal : Z;
  groupsCompleted : Z;
  groupPointsEarned : Z;
  matchesTotal : Z;
  matchPointsEarned : Z
}.
End Summary.

(** [GET /api/predictions/summary] for the signed-in user [reqUser]; the
    [tournament] part of the answer is left out.  Reading [username] of a
    missing user is a [TypeError]. *)
Definition predictionsSummary (reqUser : ObjectId)
    : Store → Store * Response Summary.t :=
  respond (
    let! user := gets (λ st, users st !! reqUser) in
    let! groupPredictions :=
      gets (λ st, find (groupPredictions st)
                       (λ p, GroupPrediction.user p = Some reqUser)) in
    let! matchPredictions :=
      gets (λ st, find (matchPredictions st)
                       (λ p, MatchPrediction.user p = Some reqUser)) in
    let groupsCompleted :=
      Z.of_nat (length (filter
        (λ p : ObjectId * GroupPrediction.t,
           is_Some (GroupPrediction.firstPlaceTeam p.2)
           ∧ is_Some (GroupPrediction.secondPlaceTeam p.2))
        groupPredictions)) in
    let groupPointsEarned :=
      foldl (λ sum p, sum + or0 (GroupPrediction.pointsAwarded p.2)) 0
            groupPredictions in
    let matchPointsEarned :=
      foldl (λ sum p, sum + or0 (MatchPrediction.pointsAwarded p.2)) 0
            matchPredictions in
    match user with
    | None => throw TypeError
    | Some user =>
      ret (Json (Summary.mk (User.username user) (User.totalPoints user)
                   (User.correctMatches user) (User.correctScores user)
                   12 groupsCompleted groupPointsEarned
                   (Z.of_nat (length matchPredictions)) matchPointsEarned))
    end).

(** ** Indexes, consistency and what the operations preserve *)

(** The unique index on [(user, group)] of the group predictions. *)
Definition unique_user_group (c : gmap string GroupPrediction.t) : Prop :=
  NoDup ((λ p, (GroupPrediction.user p, GroupPrediction.group p))
         <$> (map_to_list c).*2).

(** The unique index on [(user, match)] of the match predictions. *)
Definition unique_user_match (c : gmap string MatchPrediction.t) : Prop :=
  NoDup ((λ p, (MatchPrediction.user p, MatchPrediction.match_ p))
         <$> (map_to_list c).*2).

(** No two users have the same (totalPoints, correctScores, correctMatches):
    the sort clause of the leaderboard then fixes the order of the cursor. *)
Definition no_ties (st : Store) : Prop :=
  NoDup ((λ kd : ObjectId * User.t, rank_key kd.2) <$> map_to_list (users st)).

(** The aggregate of user [uid], when the user exists, is the sum and the
    counts over the predictions stored for that user. *)
Definition aggregate_consistent (st : Store) (uid : ObjectId) : Prop :=
  ∀ u, users st !! uid = Some u →
    User.totalPoints u = sum_of_points st uid
    ∧ User.correctMatches u = count_correct_winner st uid
    ∧ User.correctScores u = count_correct_score st uid.

(** No knockout prediction has appeared in [st'], and each one has the
    owner, the slot, the pick and the points it had in [st]. *)
Definition knockout_points_kept (st st' : Store) : Prop :=
  ∀ id p', knockoutPredictions st' !! id = Some p' →
    ∃ p, knockoutPredictions st !! id = Some p
      ∧ KnockoutPrediction.user p' = KnockoutPrediction.user p
      ∧ KnockoutPrediction.stage p' = KnockoutPrediction.stage p
      ∧ KnockoutPrediction.matchOrder p' = KnockoutPrediction.matchOrder p
      ∧ KnockoutPrediction.predictedWinnerTeam p'
        = KnockoutPrediction.predictedWinnerTeam p
      ∧ KnockoutPrediction.pointsAwarded p' = KnockoutPrediction.pointsAwarded p.

(** A correct score is a correct winner, in every stored prediction and in
    the counts of every user. *)
Definition score_implies_winner (st : Store) : Prop :=
  (∀ id p, matchPredictions st !! id = Some p →
     MatchPrediction.isCorrectScore p = true →
     MatchPrediction.isCorrectWinner p = true)
  ∧ (∀ uid u, users st !! uid = Some u →
       0 ≤ User.correctScores u ≤ User.correctMatches u).

(** The winning side of match [m] is a team that is not in the store. *)
Definition winner_missing (st : Store) (m : Match.t) : Prop :=
  (computeActualWinner m = HOME ∧ teams st !! Match.homeTeam m = None)
  ∨ (computeActualWinner m = AWAY ∧ teams st !! Match.awayTeam m = None).

(** The group predictions of [st'] against those of [st] after saves by
    [reqUser]: a document that was there keeps its owner, its group and its
    points, stays valid if it was, and is untouched if it is not
    [reqUser]'s; a document that was not there is [reqUser]'s, valid, and
    has no points; the unique index is kept. *)
Definition picks_saved (reqUser : ObjectId) (st st' : Store) : Prop :=
  (∀ id p, groupPredictions st !! id = Some p →
     ∃ p', groupPredictions st' !! id = Some p'
       ∧ GroupPrediction.user p' = GroupPrediction.user p
       ∧ GroupPrediction.group p' = GroupPrediction.group p
       ∧ GroupPrediction.pointsAwarded p' = GroupPrediction.pointsAwarded p
       ∧ (GroupPrediction.validate p = true →
          GroupPrediction.validate p' = true)
       ∧ (GroupPrediction.user p ≠ Some reqUser → p' = p))
  ∧ (∀ id p', groupPredictions st' !! id = Some p' →
       groupPredictions st !! id = None →
       GroupPrediction.user p' = Some reqUser
       ∧ GroupPrediction.pointsAwarded p' = 0
       ∧ GroupPrediction.validate p' = true)
  ∧ (unique_user_group (groupPredictions st) →
     unique_user_group (groupPredictions st')).

(** ** Further derived forms used in the proofs *)

(** Every run of [m] takes a store to one that [R] relates to it, whether
    it returns or throws. *)
Definition keeps {A} (R : relation Store) (m : M A) : Prop :=
  ∀ st st' o, m st = (st', o) → R st st'.

(** The relation of a store to those in which [I] still holds if it held. *)
Definition invariant (I : Store → Prop) : relation Store :=
  λ st st', I st → I st'.

(** The relation of a store to those with the same value of [f]. *)
Definition unchanged {A} (f : Store → A) : relation Store :=
  λ st st', f st' = f st.

(** What the recalculation makes of one stored group prediction when it
    processes the standings [s] of group [g]. *)
Definition regroup (g : string) (s : Standings.t) (p : GroupPrediction.t)
    : GroupPrediction.t :=
  if decide (GroupPrediction.group p = g)
  then GroupPrediction.set_points p (groupPoints p s)
  else p.

(** ... and when it has processed all [entries], in their order. *)
Definition regroup_all (entries : list (string * Standings.t))
    (p : GroupPrediction.t) : GroupPrediction.t :=
  foldl (λ p (e : string * Standings.t), regroup (toUpperCase e.1) e.2 p)
        p entries.

(** What one successful turn of the bulk loop writes: the document [doc]
    under [id], for a valid group code and two picks. *)
Definition upserted (newId : gmap string GroupPrediction.t → ObjectId)
    (reqUser : ObjectId) (st : Store) (id : ObjectId)
    (doc : GroupPrediction.t) : Prop :=
  ∃ g first second third,
    g ∈ GroupPrediction.group_codes
    ∧ match findOne (groupPredictions st)
              (λ p, GroupPrediction.user p = Some reqUser
                    ∧ GroupPrediction.group p = g) with
      | Some (id0, p) =>
          id = id0
          ∧ doc = GroupPrediction.mk (GroupPrediction.user p)
                    (GroupPrediction.group p) (Some first) (Some second)
                    third (GroupPrediction.pointsAwarded p)
      | None =>
          id = newId (groupPredictions st)
          ∧ doc = GroupPrediction.mk (Some reqUser) g (Some first)
                    (Some second) third 0
      end.

(** ** More sample data *)

Module Cases.
Local Open Scope string_scope.

(** A match still to be played. *)
Definition m2 := Match.mk "t1" "t2" None None "Group Stage" Scheduled.

(** The sample store with that match added. *)
Definition open_store : Store :=
  set_matches <["m2" := m2]> Sample.store.

(** A generator of ids for inserted documents: an id longer than every id
    in the collection. *)
Definition long_id {D} (c : gmap string D) : ObjectId :=
  "n" +:+ foldr (λ (kd : string * D) acc, kd.1 +:+ acc) "" (map_to_list c).
End Cases.
(** * Proofs *)

(** ** Sums and folds *)

Lemma or0_id v : or0 v = v.
Proof. unfold or0. case_decide; lia. Qed.

Lemma sumZ_cons x l : sumZ (x :: l) = x + sumZ l.
Proof. reflexivity. Qed.

Lemma foldl_or0_sum {A} (f : A → Z) (l : list A) (a : Z) :
  foldl (λ s p, s + or0 (f p)) a l = a + sumZ (f <$> l).
Proof.
  revert a. induction l as [|x l IH]; intros a.
  - unfold sumZ. simpl. lia.
  - rewrite fmap_cons, sumZ_cons. cbn [foldl]. rewrite IH, or0_id. lia.
Qed.

Lemma owned_points {D} (owner : D → option ObjectId) (pts : D → Z) uid
    (c : gmap string D) :
  foldl (λ s p, s + or0 (pts p.2)) 0 (find c (λ p, owner p = Some uid))
  = sumZ (pts <$> owned_by owner uid c).
Proof.
  rewrite foldl_or0_sum. unfold owned_by, find.
  rewrite <- list_fmap_compose. simpl. reflexivity.
Qed.

Lemma filter_snd_length {D} (P : D → Prop) `{!∀ d, Decision (P d)}
    (l : list (string * D)) :
  length (filter (λ kd : string * D, P kd.2) l) = length (filter P (l.*2)).
Proof.
  induction l as [|[k d] l IH]; [done|].
  rewrite fmap_cons, !filter_cons. simpl.
  destruct (decide (P d)); simpl; congruence.
Qed.

(** ** [recalcUserTotals] *)

Lemma validate_recomputed st uid u :
  User.validate (recomputed st uid u) = User.validate u.
Proof. reflexivity. Qed.

Lemma recalcUserTotals_unfold uid st :
  recalcUserTotals uid st =
  match users st !! uid with
  | None => (st, Returned None)
  | Some u =>
      if User.validate u
      then (set_users <[uid := recomputed st uid u]> st,
            Returned (Some (recomputed st uid u)))
      else (st, Threw ValidationError)
  end.
Proof.
  unfold recalcUserTotals, bind, gets. simpl.
  destruct (users st !! uid) as [u|]; [|reflexivity].
  unfold save_User.
  change (User.validate (User.set_totals u _ _ _)) with (User.validate u).
  destruct (User.validate u); reflexivity.
Qed.

Lemma recalcUserTotals_returns uid st u0 :
  users st !! uid = Some u0 → User.validate u0 = true →
  recalcUserTotals uid st =
    (set_users <[uid := recomputed st uid u0]> st,
     Returned (Some (recomputed st uid u0))).
Proof. intros H Hv. by rewrite recalcUserTotals_unfold, H, Hv. Qed.

Lemma recalcUserTotals_missing uid st :
  users st !! uid = None → recalcUserTotals uid st = (st, Returned None).
Proof. intros H. rewrite recalcUserTotals_unfold, H. reflexivity. Qed.

(** A user document that the schema rejects is not saved: the
    recomputation throws and writes nothing. *)
Lemma recalcUserTotals_throws uid st u0 :
  users st !! uid = Some u0 → User.validate u0 = false →
  recalcUserTotals uid st = (st, Threw ValidationError).
Proof. intros H Hv. by rewrite recalcUserTotals_unfold, H, Hv. Qed.

(** With the unique index, [findOne] sees every tournament prediction of the
    user: there is at most one. *)
Lemma tournament_findOne_sum (c : gmap string TournamentPrediction.t) uid :
  unique_owner c →
  match findOne c (λ p, TournamentPrediction.user p = Some uid) with
  | Some p => or0 (TournamentPrediction.pointsAwarded p.2)
  | None => 0
  end
  = sumZ (TournamentPrediction.pointsAwarded
            <$> owned_by TournamentPrediction.user uid c).
Proof.
  intros Hu. unfold findOne, owned_by, find.
  assert (Hnd : NoDup (TournamentPrediction.user <$>
    (filter (λ kd : string * TournamentPrediction.t,
               TournamentPrediction.user kd.2 = Some uid) (map_to_list c)).*2)).
  { eapply sublist_NoDup; [exact Hu|].
    do 2 apply fmap_sublist. apply sublist_filter. }
  assert (Hall : Forall (λ kd : string * TournamentPrediction.t,
                           TournamentPrediction.user kd.2 = Some uid)
    (filter (λ kd : string * TournamentPrediction.t,
               TournamentPrediction.user kd.2 = Some uid) (map_to_list c))).
  { apply Forall_forall. intros x Hx. by apply list_elem_of_filter in Hx as [? _]. }
  destruct (filter _ (map_to_list c)) as [|[i p] [|[j q] l]].
  - reflexivity.
  - simpl. rewrite or0_id. unfold sumZ. simpl. lia.
  - exfalso. inversion Hall as [|? ? Hp Hall']; subst.
    inversion Hall' as [|? ? Hq _]; subst. simpl in *.
    cbn in Hnd. rewrite Hp, Hq in Hnd.
    apply NoDup_cons in Hnd as [Hnin _]. apply Hnin. left.
Qed.

Lemma totalPointsOf_sum st uid :
  unique_owner (tournamentPredictions st) →
  totalPointsOf st uid = sum_of_points st uid.
Proof.
  intros Hu. unfold totalPointsOf, sum_of_points.
  rewrite !owned_points, tournament_findOne_sum by done. reflexivity.
Qed.

Lemma correctMatchesOf_count st uid :
  correctMatchesOf st uid = count_correct_winner st uid.
Proof.
  unfold correctMatchesOf, count_correct_winner, owned_by, find.
  f_equal.
  exact (filter_snd_length (λ p, MatchPrediction.isCorrectWinner p = true) _).
Qed.

Lemma correctScoresOf_count st uid :
  correctScoresOf st uid = count_correct_score st uid.
Proof.
  unfold correctScoresOf, count_correct_score, owned_by, find.
  f_equal.
  exact (filter_snd_length (λ p, MatchPrediction.isCorrectScore p = true) _).
Qed.

(** C1. After [recalcUserTotals] returns a user, the stored user carries the
    exact sum of [pointsAwarded] over all of their Group, Match, Knockout and
    Tournament predictions (an empty category adds zero), and the counts of
    their Match predictions flagged [isCorrectWinner] and [isCorrectScore]. *)
Theorem recalcUserTotals_consistent (st st' : Store) (userId : ObjectId)
    (u : User.t) :
  unique_owner (tournamentPredictions st) →
  recalcUserTotals userId st = (st', Returned (Some u)) →
  users st' !! userId = Some u
  ∧ User.totalPoints u = sum_of_points st' userId
  ∧ User.correctMatches u = count_correct_winner st' userId
  ∧ User.correctScores u = count_correct_score st' userId.
Proof.
  intros Hu Hrun. rewrite recalcUserTotals_unfold in Hrun.
  destruct (users st !! userId) as [u0|] eqn:Hu0; [|discriminate].
  destruct (User.validate u0); [|discriminate].
  injection Hrun as <- <-. split.
  - simpl. apply lookup_insert_eq.
  - rewrite <- (totalPointsOf_sum _ userId) by exact Hu.
    rewrite <- correctMatchesOf_count, <- correctScoresOf_count.
    repeat split.
Qed.

Lemma recalcUserTotals_consistent_witness :
  ∃ st' u,
    recalcUserTotals "ana" Sample.store = (st', Returned (Some u))
    ∧ users st' !! "ana" = Some u
    ∧ User.totalPoints u = sum_of_points st' "ana"
    ∧ User.totalPoints u = 23.
Proof.
  assert (Hu : unique_owner (tournamentPredictions Sample.store))
    by (apply (bool_decide_unpack _); vm_compute; exact I).
  eexists _, _. split; [apply recalcUserTotals_returns; reflexivity|].
  pose proof (recalcUserTotals_consistent Sample.store _ "ana" _ Hu
    (recalcUserTotals_returns "ana" Sample.store Sample.ana eq_refl eq_refl))
    as (H1 & H2 & _).
  split; [exact H1|]. split; [exact H2|]. reflexivity.
Defined.

(** ** Loops of [save] calls *)

Lemma forOf_app {A} (body : A → M unit) l1 l2 st :
  forOf body (l1 ++ l2) st = (forOf body l1 ;; forOf body l2) st.
Proof.
  revert st. induction l1 as [|x l1 IH]; intros st; simpl.
  - reflexivity.
  - unfold bind in *. destruct (body x st) as [st1 [[]|e]]; [apply IH|done].
Qed.

Section write_all.
Context {D : Type} (f : D → D).

Lemma write_all_notin (l : list (string * D)) (c : gmap string D) k :
  k ∉ l.*1 → write_all f c l !! k = c !! k.
Proof.
  revert c. induction l as [|[i d] l IH]; intros c Hk; [done|].
  rewrite fmap_cons in Hk. apply not_elem_of_cons in Hk as [Hne Hk].
  unfold write_all in *. simpl. rewrite IH by done.
  by apply lookup_insert_ne.
Qed.

Lemma write_all_in (l : list (string * D)) (c : gmap string D) k d :
  NoDup l.*1 → (k, d) ∈ l → write_all f c l !! k = Some (f d).
Proof.
  revert c. induction l as [|[i e] l IH]; intros c Hnd Hin.
  - by apply elem_of_nil in Hin.
  - rewrite fmap_cons in Hnd. apply NoDup_cons in Hnd as [Hi Hnd].
    apply elem_of_cons in Hin as [Heq|Hin].
    + injection Heq as -> ->. unfold write_all. simpl.
      change (write_all f (<[i:=f e]> c) l !! i = Some (f e)).
      rewrite write_all_notin by done. apply lookup_insert_eq.
    + unfold write_all in *. simpl. by apply IH.
Qed.

Lemma write_all_find (c : gmap string D) (P : D → Prop)
    `{!∀ d, Decision (P d)} :
  write_all f c (find c P) = (λ d, if decide (P d) then f d else d) <$> c.
Proof.
  apply map_eq. intros k. rewrite lookup_fmap.
  assert (Hnd : NoDup (find c P).*1).
  { unfold find. eapply sublist_NoDup; [apply (NoDup_fst_map_to_list c)|].
    apply fmap_sublist, sublist_filter. }
  destruct (c !! k) as [d|] eqn:Hk; simpl.
  - destruct (decide (P d)) as [HP|HP].
    + apply write_all_in; [done|]. unfold find.
      apply list_elem_of_filter. split; [done|].
      by apply elem_of_map_to_list.
    + rewrite write_all_notin; [done|]. intros Hin.
      apply list_elem_of_fmap in Hin as ([k' d'] & -> & Hin).
      apply list_elem_of_filter in Hin as [HP' Hin].
      apply elem_of_map_to_list in Hin. simpl in *. congruence.
  - rewrite write_all_notin; [done|]. intros Hin.
    apply list_elem_of_fmap in Hin as ([k' d'] & -> & Hin).
    apply list_elem_of_filter in Hin as [_ Hin].
    apply elem_of_map_to_list in Hin. simpl in *. congruence.
Qed.
End write_all.

Lemma set_matchPredictions_id st : set_matchPredictions (λ c, c) st = st.
Proof. by destruct st. Qed.

Lemma save_loop_returns (f : MatchPrediction.t → MatchPrediction.t)
    (l : list (ObjectId * MatchPrediction.t)) st :
  Forall (λ kp, MatchPrediction.validate (f kp.2) = true) l →
  forOf (λ kp : ObjectId * MatchPrediction.t,
           save_MatchPrediction kp.1 (f kp.2)) l st
  = (set_matchPredictions (λ c, write_all f c l) st, Returned tt).
Proof.
  revert st. induction l as [|[k d] l IH]; intros st Hall.
  - simpl. unfold ret. by rewrite set_matchPredictions_id.
  - inversion Hall as [|? ? Hv Hall']; subst. simpl in Hv.
    simpl. unfold bind, save_MatchPrediction. rewrite Hv. simpl.
    rewrite IH by done. by destruct st.
Qed.

Lemma save_loop_throws (f : MatchPrediction.t → MatchPrediction.t)
    (l1 l2 : list (ObjectId * MatchPrediction.t)) k d st :
  Forall (λ kp, MatchPrediction.validate (f kp.2) = true) l1 →
  MatchPrediction.validate (f d) = false →
  forOf (λ kp : ObjectId * MatchPrediction.t,
           save_MatchPrediction kp.1 (f kp.2)) (l1 ++ (k, d) :: l2) st
  = (set_matchPredictions (λ c, write_all f c l1) st, Threw ValidationError).
Proof.
  intros Hall Hbad. rewrite forOf_app. unfold bind.
  rewrite save_loop_returns by done. simpl.
  unfold bind, save_MatchPrediction. simpl. by rewrite Hbad.
Qed.

Lemma first_failure {A} (P : A → Prop) `{!∀ x, Decision (P x)} (l : list A) :
  Forall P l ∨ ∃ l1 x l2, l = l1 ++ x :: l2 ∧ Forall P l1 ∧ ¬ P x.
Proof.
  induction l as [|x l [IH|(l1 & y & l2 & -> & Hl1 & Hy)]].
  - by left.
  - destruct (decide (P x)) as [Hx|Hx].
    + left. by constructor.
    + right. by exists [], x, l.
  - destruct (decide (P x)) as [Hx|Hx].
    + right. exists (x :: l1), y, l2. repeat split; [|done]. by constructor.
    + right. by exists [], x, (l1 ++ y :: l2).
Qed.

Lemma find_fmap {D} (g : D → D) (c : gmap string D) (P : D → Prop)
    `{!∀ d, Decision (P d)} :
  (∀ d, P (g d) ↔ P d) →
  find (g <$> c) P = prod_map id g <$> find c P.
Proof.
  intros HP. unfold find. rewrite map_to_list_fmap.
  induction (map_to_list c) as [|[k d] l IH]; [done|].
  rewrite fmap_cons, !filter_cons. simpl.
  destruct (decide (P (g d))) as [H1|H1], (decide (P d)) as [H2|H2].
  - by rewrite fmap_cons, IH.
  - exfalso. apply H2, HP, H1.
  - exfalso. apply H1, HP, H2.
  - exact IH.
Qed.

Lemma find_NoDup_keys {D} (c : gmap string D) (P : D → Prop)
    `{!∀ d, Decision (P d)} :
  NoDup (find c P).*1.
Proof.
  unfold find. eapply sublist_NoDup; [apply (NoDup_fst_map_to_list c)|].
  apply fmap_sublist, sublist_filter.
Qed.

Lemma find_lookup {D} (c : gmap string D) (P : D → Prop)
    `{!∀ d, Decision (P d)} k d :
  (k, d) ∈ find c P ↔ c !! k = Some d ∧ P d.
Proof.
  unfold find. rewrite list_elem_of_filter, elem_of_map_to_list. simpl.
  tauto.
Qed.

(** ** The loop of recomputations *)

Lemma set_users_id st : set_users (λ us, us) st = st.
Proof. by destruct st. Qed.

Lemma recomputed_idemp st uid u :
  recomputed st uid (recomputed st uid u) = recomputed st uid u.
Proof. reflexivity. Qed.

Lemma recalc_users_cons st uid uids (us : gmap string User.t) :
  recalc_users st (uid :: uids) us
  = recalc_users st uids (match us !! uid with
                          | Some u => <[uid := recomputed st uid u]> us
                          | None => us
                          end).
Proof. reflexivity. Qed.

Lemma recalc_users_lookup st uids (us : gmap string User.t) k :
  recalc_users st uids us !! k
  = if decide (k ∈ uids) then recomputed st k <$> us !! k else us !! k.
Proof.
  revert us. induction uids as [|uid uids IH]; intros us.
  - rewrite decide_False by apply not_elem_of_nil. reflexivity.
  - rewrite recalc_users_cons, IH. clear IH.
    destruct (decide (k = uid)) as [->|Hne].
    + rewrite (decide_True (P := uid ∈ uid :: uids)) by left.
      destruct (us !! uid) as [u|] eqn:Hu.
      * rewrite lookup_insert_eq. simpl. by case_decide.
      * rewrite Hu. by case_decide.
    + assert (Hk : (match us !! uid with
                    | Some u => <[uid := recomputed st uid u]> us
                    | None => us
                    end) !! k = us !! k).
      { destruct (us !! uid); [by apply lookup_insert_ne|done]. }
      rewrite Hk. destruct (decide (k ∈ uids)) as [Hin|Hin].
      * by rewrite decide_True by (by right).
      * rewrite decide_False; [done|]. intros [?|?]%elem_of_cons; done.
Qed.

Lemma valid_user_recalc st0 uids st uid :
  valid_user (set_users (recalc_users st0 uids) st) uid = valid_user st uid.
Proof.
  unfold valid_user. simpl. rewrite recalc_users_lookup.
  case_decide; [|done]. by destruct (users st !! uid).
Qed.

Lemma valid_user_recomputed st0 st uid u k :
  users st !! uid = Some u →
  valid_user (set_users <[uid := recomputed st0 uid u]> st) k = valid_user st k.
Proof.
  intros Hu. unfold valid_user. simpl. destruct (decide (k = uid)) as [->|Hne].
  - by rewrite lookup_insert_eq, Hu.
  - by rewrite lookup_insert_ne.
Qed.

Lemma recalc_users_app st l1 l2 (us : gmap string User.t) :
  recalc_users st (l1 ++ l2) us = recalc_users st l2 (recalc_users st l1 us).
Proof. unfold recalc_users. apply foldl_app. Qed.

(** The loop of recomputations returns when [save] accepts every user it
    meets ... *)
Lemma recalc_loop_returns uids st :
  Forall (λ uid, valid_user st uid = true) uids →
  forOf (λ uid, recalcUserTotals uid ;; ret tt) uids st
  = (set_users (recalc_users st uids) st, Returned tt).
Proof.
  revert st. induction uids as [|uid uids IH]; intros st Hall.
  - simpl. unfold ret. by rewrite set_users_id.
  - apply Forall_cons in Hall as [Hv Hall]. unfold valid_user in Hv.
    simpl. unfold bind at 1 2. rewrite recalcUserTotals_unfold.
    destruct (users st !! uid) as [u|] eqn:Hu.
    + rewrite Hv. unfold ret at 1. rewrite IH.
      * unfold recalc_users, set_users. simpl. by rewrite Hu.
      * eapply Forall_impl; [exact Hall|]. intros k Hk.
        by rewrite valid_user_recomputed.
    + unfold ret at 1. rewrite IH by done.
      unfold recalc_users, set_users. simpl. by rewrite Hu.
Qed.

(** ... and stops at the first user that [save] rejects, the users before
    it recomputed. *)
Lemma recalc_loop_throws l1 uid l2 st :
  Forall (λ uid, valid_user st uid = true) l1 → valid_user st uid = false →
  forOf (λ uid, recalcUserTotals uid ;; ret tt) (l1 ++ uid :: l2) st
  = (set_users (recalc_users st l1) st, Threw ValidationError).
Proof.
  intros Hall Hbad. rewrite forOf_app. unfold bind at 1.
  rewrite recalc_loop_returns by done. simpl. unfold bind at 1 2.
  rewrite <- (valid_user_recalc st l1 st uid) in Hbad.
  unfold valid_user in Hbad.
  destruct (users (set_users (recalc_users st l1) st) !! uid) as [u|] eqn:Hu;
    [|discriminate].
  by rewrite (recalcUserTotals_throws _ _ u).
Qed.

Lemma recalc_loop_outcome uids st :
  (Forall (λ uid, valid_user st uid = true) uids
   ∧ forOf (λ uid, recalcUserTotals uid ;; ret tt) uids st
     = (set_users (recalc_users st uids) st, Returned tt))
  ∨ ∃ l1 uid l2, uids = l1 ++ uid :: l2
      ∧ Forall (λ uid, valid_user st uid = true) l1
      ∧ valid_user st uid = false
      ∧ forOf (λ uid, recalcUserTotals uid ;; ret tt) uids st
        = (set_users (recalc_users st l1) st, Threw ValidationError).
Proof.
  destruct (first_failure (λ uid, valid_user st uid = true) uids)
    as [Hall|(l1 & uid & l2 & -> & Hl1 & Hbad)].
  - left. split; [done|]. by apply recalc_loop_returns.
  - apply not_true_is_false in Hbad. right. exists l1, uid, l2.
    repeat split; try done. by apply recalc_loop_throws.
Qed.

(** ** [calculateMatchPointsForAllUsers] *)

Lemma validate_scored m w p :
  MatchPrediction.validate (scoreMatchPrediction m w p)
  = MatchPrediction.validate p.
Proof. reflexivity. Qed.

Lemma calculate_missing mid st :
  matches st !! mid = None →
  calculateMatchPointsForAllUsers mid st = (st, Returned tt).
Proof.
  intros H. unfold calculateMatchPointsForAllUsers, bind, gets. by rewrite H.
Qed.

Lemma calculate_not_finished mid st m :
  matches st !! mid = Some m → Match.status m ≠ Finished →
  calculateMatchPointsForAllUsers mid st = (st, Returned tt).
Proof.
  intros H Hs. unfold calculateMatchPointsForAllUsers, bind, gets.
  rewrite H. by rewrite decide_True.
Qed.

Lemma scored_store m mid st :
  set_matchPredictions
    (λ c, write_all (scoreMatchPrediction m (computeActualWinner m)) c
       (find (matchPredictions st) (λ p, MatchPrediction.match_ p = mid))) st
  = set_matchPredictions (fmap (rescore m mid)) st.
Proof. unfold set_matchPredictions. f_equal. apply write_all_find. Qed.

Lemma calculate_returns mid st m :
  matches st !! mid = Some m → Match.status m = Finished →
  Forall (λ kp : ObjectId * MatchPrediction.t,
            MatchPrediction.validate kp.2 = true)
         (find (matchPredictions st) (λ p, MatchPrediction.match_ p = mid)) →
  Forall (λ uid, valid_user st uid = true) (affectedUserIds st mid) →
  calculateMatchPointsForAllUsers mid st = (finalized m mid st, Returned tt).
Proof.
  intros H Hs Hall Hus.
  unfold calculateMatchPointsForAllUsers, bind at 1, gets at 1.
  rewrite H. rewrite decide_False by (intros ?; done).
  unfold bind at 1, gets. unfold bind at 1.
  rewrite (save_loop_returns (scoreMatchPrediction m (computeActualWinner m)))
    by done.
  rewrite recalc_loop_returns by exact Hus. unfold finalized. f_equal.
  by rewrite scored_store.
Qed.

(** When [save] rejects the document of a user who predicted the match, the
    predictions have all been scored and the users listed before that one
    recomputed. *)
Lemma calculate_throws_user mid st m l1 uid l2 :
  matches st !! mid = Some m → Match.status m = Finished →
  Forall (λ kp : ObjectId * MatchPrediction.t,
            MatchPrediction.validate kp.2 = true)
         (find (matchPredictions st) (λ p, MatchPrediction.match_ p = mid)) →
  affectedUserIds st mid = l1 ++ uid :: l2 →
  Forall (λ uid, valid_user st uid = true) l1 → valid_user st uid = false →
  calculateMatchPointsForAllUsers mid st
  = (let scored := set_matchPredictions (fmap (rescore m mid)) st in
     set_users (recalc_users scored l1) scored, Threw ValidationError).
Proof.
  intros H Hs Hall Hl Hl1 Hbad.
  unfold calculateMatchPointsForAllUsers, bind at 1, gets at 1.
  rewrite H. rewrite decide_False by (intros ?; done).
  unfold bind at 1, gets. unfold bind at 1.
  rewrite (save_loop_returns (scoreMatchPrediction m (computeActualWinner m)))
    by done.
  fold (affectedUserIds st mid). rewrite Hl.
  rewrite recalc_loop_throws by done. by rewrite scored_store.
Qed.

Lemma calculate_throws mid st m l1 k d l2 :
  matches st !! mid = Some m → Match.status m = Finished →
  find (matchPredictions st) (λ p, MatchPrediction.match_ p = mid)
    = l1 ++ (k, d) :: l2 →
  Forall (λ kp : ObjectId * MatchPrediction.t,
            MatchPrediction.validate kp.2 = true) l1 →
  MatchPrediction.validate d = false →
  calculateMatchPointsForAllUsers mid st
  = (set_matchPredictions
       (λ c, write_all (scoreMatchPrediction m (computeActualWinner m)) c l1) st,
     Threw ValidationError).
Proof.
  intros H Hs Hl Hall Hbad.
  unfold calculateMatchPointsForAllUsers, bind at 1, gets at 1.
  rewrite H. rewrite decide_False by (intros ?; done).
  unfold bind at 1, gets. unfold bind at 1. rewrite Hl.
  by rewrite (save_loop_throws (scoreMatchPrediction m (computeActualWinner m))).
Qed.

(** The three ways a run on a finished match can end. *)
Lemma calculate_outcome mid st m :
  matches st !! mid = Some m → Match.status m = Finished →
  (Forall (λ kp : ObjectId * MatchPrediction.t,
             MatchPrediction.validate kp.2 = true)
          (find (matchPredictions st) (λ p, MatchPrediction.match_ p = mid))
   ∧ Forall (λ uid, valid_user st uid = true) (affectedUserIds st mid)
   ∧ calculateMatchPointsForAllUsers mid st = (finalized m mid st, Returned tt))
  ∨ (∃ l1 k d l2,
       find (matchPredictions st) (λ p, MatchPrediction.match_ p = mid)
       = l1 ++ (k, d) :: l2
       ∧ MatchPrediction.validate d = false
       ∧ calculateMatchPointsForAllUsers mid st
         = (set_matchPredictions
              (λ c, write_all (scoreMatchPrediction m (computeActualWinner m))
                              c l1) st,
            Threw ValidationError))
  ∨ (Forall (λ kp : ObjectId * MatchPrediction.t,
               MatchPrediction.validate kp.2 = true)
            (find (matchPredictions st) (λ p, MatchPrediction.match_ p = mid))
     ∧ ∃ l1 uid l2, affectedUserIds st mid = l1 ++ uid :: l2
         ∧ valid_user st uid = false
         ∧ calculateMatchPointsForAllUsers mid st
           = (let scored := set_matchPredictions (fmap (rescore m mid)) st in
              set_users (recalc_users scored l1) scored,
              Threw ValidationError)).
Proof.
  intros Hm Hs.
  destruct (first_failure
    (λ kp : ObjectId * MatchPrediction.t, MatchPrediction.validate kp.2 = true)
    (find (matchPredictions st) (λ p, MatchPrediction.match_ p = mid)))
    as [Hall|(l1 & [k d] & l2 & Hl & Hl1 & Hbad)].
  - destruct (first_failure (λ uid, valid_user st uid = true)
                (affectedUserIds st mid))
      as [Hus|(l1 & uid & l2 & Hl & Hl1 & Hbad)].
    + left. split; [done|]. split; [done|]. by apply calculate_returns.
    + apply not_true_is_false in Hbad. right. right. split; [done|].
      exists l1, uid, l2. split; [done|]. split; [done|].
      by apply (calculate_throws_user _ _ m l1 uid l2).
  - apply not_true_is_false in Hbad. right. left. exists l1, k, d, l2.
    split; [done|]. split; [done|]. by apply (calculate_throws _ _ m l1 k d l2).
Qed.

(** A run that returns on a finished match has met no document that [save]
    rejects. *)
Lemma calculate_success mid st st1 m :
  matches st !! mid = Some m → Match.status m = Finished →
  calculateMatchPointsForAllUsers mid st = (st1, Returned tt) →
  st1 = finalized m mid st
  ∧ Forall (λ kp : ObjectId * MatchPrediction.t,
              MatchPrediction.validate kp.2 = true)
           (find (matchPredictions st) (λ p, MatchPrediction.match_ p = mid))
  ∧ Forall (λ uid, valid_user st uid = true) (affectedUserIds st mid).
Proof.
  intros Hm Hs Hrun.
  destruct (calculate_outcome mid st m Hm Hs)
    as [(Hall & Hus & Hret)|[(l1 & k & d & l2 & _ & _ & Hthrow)
                            |(_ & l1 & uid & l2 & _ & _ & Hthrow)]].
  - rewrite Hret in Hrun. by injection Hrun as <-.
  - rewrite Hthrow in Hrun. discriminate.
  - rewrite Hthrow in Hrun. discriminate.
Qed.

Lemma score_overwrites m w p pts cw cs :
  scoreMatchPrediction m w (MatchPrediction.set_score p pts cw cs)
  = scoreMatchPrediction m w p.
Proof. reflexivity. Qed.

Lemma rescore_idemp m mid p : rescore m mid (rescore m mid p) = rescore m mid p.
Proof.
  unfold rescore. destruct (decide (MatchPrediction.match_ p = mid)) as [Hp|Hp].
  - rewrite decide_True by exact Hp. reflexivity.
  - by rewrite decide_False.
Qed.

Lemma rescore_match m mid p :
  MatchPrediction.match_ (rescore m mid p) = MatchPrediction.match_ p.
Proof. unfold rescore. by case_decide. Qed.

Lemma rescore_user m mid p :
  MatchPrediction.user (rescore m mid p) = MatchPrediction.user p.
Proof. unfold rescore. by case_decide. Qed.

Lemma rescore_validate m mid p :
  MatchPrediction.validate (rescore m mid p) = MatchPrediction.validate p.
Proof. unfold rescore. by case_decide. Qed.

Lemma find_rescored m mid (c : gmap string MatchPrediction.t) :
  find (rescore m mid <$> c) (λ p, MatchPrediction.match_ p = mid)
  = prod_map id (rescore m mid)
      <$> find c (λ p, MatchPrediction.match_ p = mid).
Proof. apply find_fmap. intros d. by rewrite rescore_match. Qed.

Lemma recalc_users_same_predictions st st' :
  matchPredictions st = matchPredictions st' →
  groupPredictions st = groupPredictions st' →
  knockoutPredictions st = knockoutPredictions st' →
  tournamentPredictions st = tournamentPredictions st' →
  recalc_users st = recalc_users st'.
Proof. destruct st, st'. simpl. by intros -> -> -> ->. Qed.

Lemma affectedUserIds_finalized m mid st :
  affectedUserIds (finalized m mid st) mid = affectedUserIds st mid.
Proof.
  unfold affectedUserIds, finalized. simpl. rewrite find_rescored.
  rewrite <- list_fmap_compose. f_equal. apply list_fmap_ext.
  intros i [k p] _. simpl. by rewrite rescore_user.
Qed.

Lemma finalized_idemp m mid st :
  finalized m mid (finalized m mid st) = finalized m mid st.
Proof.
  assert (Hc : rescore m mid <$> (rescore m mid <$> matchPredictions st)
               = rescore m mid <$> matchPredictions st).
  { rewrite <- map_fmap_compose. apply map_fmap_ext. intros i p _.
    apply rescore_idemp. }
  unfold finalized at 1. rewrite affectedUserIds_finalized.
  rewrite (recalc_users_same_predictions _
    (set_matchPredictions (fmap (rescore m mid)) st)); try reflexivity.
  2: { simpl. exact Hc. }
  unfold finalized, set_users, set_matchPredictions. simpl. rewrite Hc.
  f_equal. apply map_eq. intros k. rewrite !recalc_users_lookup.
  case_decide; [|done]. rewrite <- option_fmap_compose.
  by destruct (users st !! k).
Qed.

(** C2. Running the finalization of a match a second time, with nothing
    changed in between, leaves the whole store as the first run left it:
    every prediction's [pointsAwarded] and flags and every user's aggregate.
    The score written does not depend on the value it replaces. *)
Theorem finalization_idempotent (st st1 : Store) (matchId : ObjectId) :
  calculateMatchPointsForAllUsers matchId st = (st1, Returned tt) →
  calculateMatchPointsForAllUsers matchId st1 = (st1, Returned tt)
  ∧ ∀ m w p pts cw cs,
      scoreMatchPrediction m w (MatchPrediction.set_score p pts cw cs)
      = scoreMatchPrediction m w p.
Proof.
  intros Hrun. split; [|reflexivity].
  destruct (matches st !! matchId) as [m|] eqn:Hm.
  2: { rewrite calculate_missing in Hrun by done. injection Hrun as <-.
       by apply calculate_missing. }
  destruct (decide (Match.status m = Finished)) as [Hs|Hs].
  2: { rewrite (calculate_not_finished _ _ m) in Hrun by done.
       injection Hrun as <-. by apply (calculate_not_finished _ _ m). }
  destruct (calculate_success _ _ _ _ Hm Hs Hrun) as (-> & Hall & Hus).
  rewrite (calculate_returns _ _ m); [by rewrite finalized_idemp|done|done| |].
  - simpl. rewrite find_rescored. apply Forall_fmap.
    eapply Forall_impl; [exact Hall|]. intros [i p] Hp. simpl in *.
    by rewrite rescore_validate.
  - rewrite affectedUserIds_finalized.
    eapply Forall_impl; [exact Hus|]. intros uid Hv.
    unfold finalized. rewrite valid_user_recalc. exact Hv.
Qed.

Lemma finalization_idempotent_witness :
  let st1 := finalized Sample.m1 "m1" Sample.store in
  calculateMatchPointsForAllUsers "m1" Sample.store = (st1, Returned tt)
  ∧ calculateMatchPointsForAllUsers "m1" st1 = (st1, Returned tt)
  ∧ User.totalPoints <$> users st1 !! "ana" = Some 31.
Proof.
  intros st1.
  assert (H : calculateMatchPointsForAllUsers "m1" Sample.store
              = (st1, Returned tt)) by (vm_compute; reflexivity).
  split; [exact H|]. split.
  - exact (proj1 (finalization_idempotent Sample.store st1 "m1" H)).
  - vm_compute. reflexivity.
Defined.

(** ** The match scoring rule *)

Lemma computeActualWinner_scores m h a :
  Match.homeScore m = Some h → Match.awayScore m = Some a →
  computeActualWinner m
  = if decide (h > a) then HOME else if decide (a > h) then AWAY else DRAW.
Proof.
  intros Hh Ha. unfold computeActualWinner, js_gt. rewrite Hh, Ha. simpl.
  repeat case_bool_decide; repeat case_decide; done.
Qed.

Lemma scoreMatchPrediction_rule m h a p :
  Match.homeScore m = Some h → Match.awayScore m = Some a →
  let p' := scoreMatchPrediction m (computeActualWinner m) p in
  MatchPrediction.isCorrectWinner p'
    = bool_decide (MatchPrediction.winnerPred p = computeActualWinner m)
  ∧ MatchPrediction.isCorrectScore p'
    = bool_decide (MatchPrediction.isCorrectWinner p' = true
                   ∧ MatchPrediction.homeGoalsPred p = h
                   ∧ MatchPrediction.awayGoalsPred p = a)
  ∧ MatchPrediction.pointsAwarded p'
    = 3 * Z.b2z (MatchPrediction.isCorrectWinner p')
      + 5 * Z.b2z (MatchPrediction.isCorrectScore p').
Proof.
  intros Hh Ha. unfold scoreMatchPrediction, strict_eq. rewrite Hh, Ha. simpl.
  split; [reflexivity|]. split.
  - repeat case_bool_decide; simpl; try reflexivity; exfalso;
      simplify_eq; intuition congruence.
  - repeat case_bool_decide; reflexivity.
Qed.

Lemma listed {D} (c : gmap string D) (P : string * D → Prop) :
  Forall P (map_to_list c) → ∀ k d, c !! k = Some d → P (k, d).
Proof.
  rewrite Forall_forall. intros H k d Hk. apply H.
  by apply elem_of_map_to_list.
Qed.

Lemma validate_owner p :
  MatchPrediction.validate p = true → is_Some (MatchPrediction.user p).
Proof.
  unfold MatchPrediction.validate. rewrite !andb_true_iff.
  intros [[H _] _]. by apply bool_decide_eq_true in H.
Qed.

Lemma elem_of_uniq_acc (l acc : list string) x :
  x ∈ foldl (λ acc x, if decide (x ∈ acc) then acc else acc ++ [x]) acc l
  ↔ x ∈ acc ∨ x ∈ l.
Proof.
  revert acc. induction l as [|y l IH]; intros acc; simpl.
  - rewrite elem_of_nil. tauto.
  - rewrite IH, elem_of_cons. destruct (decide (y ∈ acc)) as [Hy|Hy].
    + split; [tauto|]. intros [?|[->|?]]; tauto.
    + rewrite elem_of_app, list_elem_of_singleton. tauto.
Qed.

Lemma elem_of_uniq (l : list string) x : x ∈ uniq l ↔ x ∈ l.
Proof. unfold uniq. rewrite elem_of_uniq_acc, elem_of_nil. tauto. Qed.

Lemma affectedUserIds_owner st mid uid :
  Forall (λ kp : ObjectId * MatchPrediction.t,
            MatchPrediction.validate kp.2 = true)
         (find (matchPredictions st) (λ p, MatchPrediction.match_ p = mid)) →
  uid ∈ affectedUserIds st mid
  ↔ ∃ id p, matchPredictions st !! id = Some p
      ∧ MatchPrediction.match_ p = mid ∧ MatchPrediction.user p = Some uid.
Proof.
  intros Hall. unfold affectedUserIds. rewrite elem_of_uniq, list_elem_of_fmap.
  split.
  - intros ([id p] & -> & Hin). exists id, p.
    rewrite Forall_forall in Hall. specialize (Hall _ Hin).
    apply validate_owner in Hall as [x Hx]. simpl in *.
    apply find_lookup in Hin as [? ?]. by rewrite Hx.
  - intros (id & p & Hp & Hm & Hu). exists (id, p). simpl. rewrite Hu.
    split; [done|]. by apply find_lookup.
Qed.

(** The run on a finished match returns exactly when [save] accepts every
    prediction of the match and the document of every user who made one. *)
Lemma calculate_returns_iff mid st m :
  matches st !! mid = Some m → Match.status m = Finished →
  (∃ st', calculateMatchPointsForAllUsers mid st = (st', Returned tt))
  ↔ (∀ id p, matchPredictions st !! id = Some p →
       MatchPrediction.match_ p = mid → MatchPrediction.validate p = true)
    ∧ (∀ id p uid, matchPredictions st !! id = Some p →
         MatchPrediction.match_ p = mid → MatchPrediction.user p = Some uid →
         valid_user st uid = true).
Proof.
  intros Hm Hs. split.
  - intros [st' Hrun].
    destruct (calculate_success _ _ _ _ Hm Hs Hrun) as (_ & Hall & Hus).
    split.
    + intros id p Hp Hpm. rewrite Forall_forall in Hall.
      apply (Hall (id, p)). by apply find_lookup.
    + intros id p uid Hp Hpm Hpu. rewrite Forall_forall in Hus.
      apply Hus. apply affectedUserIds_owner; [done|]. by exists id, p.
  - intros [Hall Hus].
    assert (Hall' : Forall (λ kp : ObjectId * MatchPrediction.t,
                              MatchPrediction.validate kp.2 = true)
              (find (matchPredictions st)
                    (λ p, MatchPrediction.match_ p = mid))).
    { apply Forall_forall. intros [id p] Hin.
      apply find_lookup in Hin as [Hp Hpm]. by apply (Hall id). }
    eexists. apply (calculate_returns _ _ m); [done..|].
    apply Forall_forall. intros uid Hin.
    apply affectedUserIds_owner in Hin as (id & p & Hp & Hpm & Hpu); [|done].
    by apply (Hus id p).
Qed.

(** C4. Scoring a finished match with both scores present.  The actual
    winner is HOME when the home score is higher, AWAY when the away score
    is higher, DRAW when they are equal.  What the scoring loop assigns to a
    prediction keeps what the user predicted and carries: [isCorrectWinner]
    iff [winnerPred] is the actual winner; [isCorrectScore] iff in addition
    both predicted goal counts equal the scores; and [pointsAwarded =
    3·isCorrectWinner + 5·isCorrectScore].  When [save] accepts the
    predictions of the match and the users who made them, the run returns
    and every prediction of the match is stored with these values. *)
Theorem match_scoring_rule (st : Store) (matchId : ObjectId) (m : Match.t)
    (h a : Z) :
  matches st !! matchId = Some m → Match.status m = Finished →
  Match.homeScore m = Some h → Match.awayScore m = Some a →
  let actual :=
    if decide (h > a) then HOME else if decide (a > h) then AWAY else DRAW in
  computeActualWinner m = actual
  ∧ (∀ p0,
       let p := scoreMatchPrediction m actual p0 in
       MatchPrediction.winnerPred p = MatchPrediction.winnerPred p0
       ∧ MatchPrediction.homeGoalsPred p = MatchPrediction.homeGoalsPred p0
       ∧ MatchPrediction.awayGoalsPred p = MatchPrediction.awayGoalsPred p0
       ∧ MatchPrediction.isCorrectWinner p
         = bool_decide (MatchPrediction.winnerPred p0 = actual)
       ∧ MatchPrediction.isCorrectScore p
         = bool_decide (MatchPrediction.isCorrectWinner p = true
                        ∧ MatchPrediction.homeGoalsPred p0 = h
                        ∧ MatchPrediction.awayGoalsPred p0 = a)
       ∧ MatchPrediction.pointsAwarded p
         = 3 * Z.b2z (MatchPrediction.isCorrectWinner p)
           + 5 * Z.b2z (MatchPrediction.isCorrectScore p))
  ∧ ((∀ id p, matchPredictions st !! id = Some p →
        MatchPrediction.match_ p = matchId →
        MatchPrediction.validate p = true) →
     (∀ id p uid, matchPredictions st !! id = Some p →
        MatchPrediction.match_ p = matchId →
        MatchPrediction.user p = Some uid → valid_user st uid = true) →
     ∃ st', calculateMatchPointsForAllUsers matchId st = (st', Returned tt)
       ∧ ∀ id p0, matchPredictions st !! id = Some p0 →
           MatchPrediction.match_ p0 = matchId →
           matchPredictions st' !! id
           = Some (scoreMatchPrediction m actual p0)).
Proof.
  intros Hm Hs Hh Ha actual.
  assert (Hw : computeActualWinner m = actual)
    by (by apply computeActualWinner_scores).
  split; [exact Hw|]. split.
  - intros p0. cbv zeta. rewrite <- Hw.
    destruct (scoreMatchPrediction_rule m h a p0 Hh Ha) as (Hcw & Hsc & Hpts).
    repeat split; assumption.
  - intros Hall Hus.
    destruct (proj2 (calculate_returns_iff matchId st m Hm Hs) (conj Hall Hus))
      as [st' Hrun].
    exists st'. split; [exact Hrun|]. intros id p0 Hp0 Hmid.
    destruct (calculate_success _ _ _ _ Hm Hs Hrun) as (-> & _ & _).
    simpl. rewrite lookup_fmap, Hp0. simpl. unfold rescore.
    by rewrite decide_True, Hw.
Qed.

Lemma match_scoring_rule_witness :
  Match.homeScore Sample.m1 = Some 2 ∧ Match.awayScore Sample.m1 = Some 0
  ∧ ∃ st', calculateMatchPointsForAllUsers "m1" Sample.store
           = (st', Returned tt)
      ∧ (∃ p, matchPredictions st' !! "p1" = Some p
            ∧ MatchPrediction.winnerPred p = HOME
            ∧ MatchPrediction.homeGoalsPred p = 2
            ∧ MatchPrediction.awayGoalsPred p = 0
            ∧ MatchPrediction.isCorrectWinner p = true
            ∧ MatchPrediction.isCorrectScore p = true
            ∧ MatchPrediction.pointsAwarded p = 8)
      ∧ (∃ p, matchPredictions st' !! "p2" = Some p
            ∧ MatchPrediction.winnerPred p = HOME
            ∧ MatchPrediction.homeGoalsPred p = 1
            ∧ MatchPrediction.awayGoalsPred p = 0
            ∧ MatchPrediction.isCorrectWinner p = true
            ∧ MatchPrediction.isCorrectScore p = false
            ∧ MatchPrediction.pointsAwarded p = 3).
Proof.
  assert (Hall : ∀ id p, matchPredictions Sample.store !! id = Some p →
            MatchPrediction.match_ p = "m1"%string →
            MatchPrediction.validate p = true).
  { intros id p Hp _.
    assert (HF : Forall (λ kp : ObjectId * MatchPrediction.t,
                           MatchPrediction.validate kp.2 = true)
                   (map_to_list (matchPredictions Sample.store)))
      by (apply (bool_decide_unpack _); vm_compute; exact I).
    exact (listed _ _ HF id p Hp). }
  assert (Hus : ∀ id p uid, matchPredictions Sample.store !! id = Some p →
            MatchPrediction.match_ p = "m1"%string →
            MatchPrediction.user p = Some uid →
            valid_user Sample.store uid = true).
  { intros id p uid _ _ _. unfold valid_user.
    destruct (users Sample.store !! uid) as [u|] eqn:Hu; [|done].
    assert (HF : Forall (λ ku : ObjectId * User.t, User.validate ku.2 = true)
                   (map_to_list (users Sample.store)))
      by (apply (bool_decide_unpack _); vm_compute; exact I).
    exact (listed _ _ HF uid u Hu). }
  destruct (match_scoring_rule Sample.store "m1" Sample.m1 2 0
              eq_refl eq_refl eq_refl eq_refl) as (_ & _ & Hrule).
  destruct (Hrule Hall Hus) as (st' & Hrun & H).
  split; [reflexivity|]. split; [reflexivity|].
  exists st'. split; [exact Hrun|]. split.
  - eexists. split; [exact (H "p1" Sample.exact_guess eq_refl eq_refl)|].
    repeat split; reflexivity.
  - eexists. split; [exact (H "p2" Sample.winner_guess eq_refl eq_refl)|].
    repeat split; reflexivity.
Defined.

(** ** Failure during the scoring loop *)

(** C7 as stated fails: with a prediction that [save] rejects listed first,
    the valid prediction after it is never scored. *)
Lemma scores_every_valid_prediction_fails :
  ¬ scores_every_valid_prediction Sample.orphan_store "m1".
Proof.
  intros H.
  specialize (H Sample.m1 eq_refl eq_refl "p2" Sample.winner_guess
                eq_refl eq_refl eq_refl).
  vm_compute in H. discriminate.
Qed.

(** C7, as the code has it.  The scoring loop has no handler of its own: the
    first prediction whose [save] is rejected ends the run with the error.
    The predictions listed before it keep their new scores, the rejected one
    and all later ones are left as they were, and no aggregate is
    recomputed. *)
Theorem finalization_stops_at_first_failure (st : Store) (matchId : ObjectId)
    (m : Match.t) (l1 l2 : list (ObjectId * MatchPrediction.t))
    (k : ObjectId) (bad : MatchPrediction.t) :
  matches st !! matchId = Some m → Match.status m = Finished →
  find (matchPredictions st) (λ p, MatchPrediction.match_ p = matchId)
    = l1 ++ (k, bad) :: l2 →
  Forall (λ kp : ObjectId * MatchPrediction.t,
            MatchPrediction.validate kp.2 = true) l1 →
  MatchPrediction.validate bad = false →
  ∃ st', calculateMatchPointsForAllUsers matchId st = (st', Threw ValidationError)
    ∧ users st' = users st
    ∧ (∀ i p, (i, p) ∈ l1 →
        matchPredictions st' !! i
        = Some (scoreMatchPrediction m (computeActualWinner m) p))
    ∧ (∀ i p, (i, p) ∈ (k, bad) :: l2 → matchPredictions st' !! i = Some p).
Proof.
  intros Hm Hs Hl Hl1 Hbad. eexists. split.
  { by apply (calculate_throws _ _ m l1 k bad l2). }
  pose proof (find_NoDup_keys (matchPredictions st)
                (λ p, MatchPrediction.match_ p = matchId)) as Hnd.
  rewrite Hl, fmap_app in Hnd. apply NoDup_app in Hnd as (Hnd1 & Hdisj & _).
  split; [reflexivity|]. split.
  - intros i p Hin. simpl. by apply write_all_in.
  - intros i p Hin. simpl. rewrite write_all_notin.
    + assert (Hf : (i, p) ∈ find (matchPredictions st)
                     (λ p, MatchPrediction.match_ p = matchId)).
      { rewrite Hl. apply elem_of_app. by right. }
      by apply find_lookup in Hf as [? _].
    + intros Hi. apply (Hdisj i Hi).
      apply list_elem_of_fmap. by exists (i, p).
Qed.

Lemma finalization_stops_at_first_failure_witness :
  ∃ st', calculateMatchPointsForAllUsers "m1" Sample.orphan_store
         = (st', Threw ValidationError)
    ∧ users st' = users Sample.orphan_store
    ∧ matchPredictions st' !! "p2" = Some Sample.winner_guess.
Proof.
  destruct (finalization_stops_at_first_failure Sample.orphan_store "m1"
    Sample.m1 [] [("p2", Sample.winner_guess)] "p1" Sample.orphan_guess
    eq_refl eq_refl ltac:(vm_compute; reflexivity) ltac:(constructor) eq_refl)
    as (st' & Hrun & Hu & _ & Hrest).
  exists st'. split; [exact Hrun|]. split; [exact Hu|].
  apply Hrest. right. left.
Defined.

(** The caller of the scoring loop answers 500 when the loop throws; the
    prediction after the rejected one is left unscored. *)
Example adminUpdateMatch_failure :
  (adminUpdateMatch (Id "m1") (Some 2) (Some 0) Finished Sample.orphan_store).2
  = Failure 500
  ∧ matchPredictions
      (adminUpdateMatch (Id "m1") (Some 2) (Some 0) Finished Sample.orphan_store).1
    !! "p2" = Some Sample.winner_guess.
Proof. split; vm_compute; reflexivity. Qed.

Example adminUpdateMatch_success :
  (adminUpdateMatch (Id "m1") (Some 2) (Some 0) Finished Sample.store).2
  = Json Sample.m1
  ∧ MatchPrediction.pointsAwarded
      <$> matchPredictions
            (adminUpdateMatch (Id "m1") (Some 2) (Some 0) Finished Sample.store).1
          !! "p1" = Some 8.
Proof. split; vm_compute; reflexivity. Qed.

(** ** The group scoring rule *)

(** C5. A group prediction earns 5 for the right first place, 3 for the
    right second place and 2 for the right third place, plus 5 when that sum
    is exactly 10; all three right is 15, and no prediction scores 10 or 20.
    Without a third-place team the prediction earns exactly what its first
    and second places earn: no third-place points, no bonus, no penalty. *)
Theorem group_scoring_rule (p : GroupPrediction.t) (s : Standings.t) :
  let c1 := bool_decide (String_of_ref (GroupPrediction.firstPlaceTeam p)
                         = String_of (Standings.first s)) in
  let c2 := bool_decide (String_of_ref (GroupPrediction.secondPlaceTeam p)
                         = String_of (Standings.second s)) in
  let c3 := bool_decide (is_Some (GroupPrediction.thirdPlaceTeam p)
                         ∧ String_of_ref (GroupPrediction.thirdPlaceTeam p)
                           = String_of (Standings.third s)) in
  let raw := 5 * Z.b2z c1 + 3 * Z.b2z c2 + 2 * Z.b2z c3 in
  groupPoints p s = (if decide (raw = 10) then raw + 5 else raw)
  ∧ (c1 = true → c2 = true → c3 = true → groupPoints p s = 15)
  ∧ groupPoints p s ≠ 10
  ∧ groupPoints p s ≠ 20
  ∧ (GroupPrediction.thirdPlaceTeam p = None →
     groupPoints p s = 5 * Z.b2z c1 + 3 * Z.b2z c2).
Proof.
  intros c1 c2 c3 raw.
  assert (Heq : groupPoints p s = if decide (raw = 10) then raw + 5 else raw).
  { unfold groupPoints, raw, c1, c2, c3.
    destruct (decide (String_of_ref (GroupPrediction.firstPlaceTeam p)
                      = String_of (Standings.first s))) as [E1|E1];
    destruct (decide (String_of_ref (GroupPrediction.secondPlaceTeam p)
                      = String_of (Standings.second s))) as [E2|E2];
    rewrite ?(bool_decide_eq_true_2 _ E1), ?(bool_decide_eq_false_2 _ E1),
            ?(bool_decide_eq_true_2 _ E2), ?(bool_decide_eq_false_2 _ E2);
    repeat case_bool_decide; simpl; repeat case_decide;
      try lia; exfalso; tauto. }
  split; [exact Heq|]. split; [|split; [|split]].
  - intros E1 E2 E3. rewrite Heq. unfold raw. rewrite E1, E2, E3. reflexivity.
  - rewrite Heq. unfold raw. destruct c1, c2, c3; simpl; case_decide; lia.
  - rewrite Heq. unfold raw. destruct c1, c2, c3; simpl; case_decide; lia.
  - intros Hnone. rewrite Heq. unfold raw.
    assert (E3 : c3 = false).
    { unfold c3. apply bool_decide_eq_false_2. rewrite Hnone.
      intros [[? ?] _]. discriminate. }
    rewrite E3. destruct c1, c2; simpl; case_decide; lia.
Qed.

Lemma group_scoring_rule_witness :
  groupPoints Sample.perfect_group Sample.standings_A = 15
  ∧ groupPoints Sample.two_team_group Sample.standings_A = 8.
Proof.
  destruct (group_scoring_rule Sample.perfect_group Sample.standings_A)
    as (_ & Hperfect & _).
  destruct (group_scoring_rule Sample.two_team_group Sample.standings_A)
    as (_ & _ & _ & _ & Hnothird).
  split.
  - apply Hperfect; reflexivity.
  - rewrite Hnothird; reflexivity.
Defined.

(** ** The personal position query *)

Lemma betterThan_lexico user other :
  betterThan user other ↔ lexico (rank_key user) (rank_key other).
Proof.
  unfold betterThan, rank_key, lexico, prod_lexico, lexico, Z_lexico. simpl.
  unfold lexico, prod_lexico, lexico, Z_lexico. simpl.
  split.
  - intros [H|[[H1 H2]|(H1 & H2 & H3)]].
    + left. left. lia.
    + left. right. split; [congruence|lia].
    + right. split; [congruence|lia].
  - intros [[H|[H1 H2]]|[H1 H2]].
    + left. lia.
    + right. left. split; [congruence|lia].
    + right. right. injection H1 as H1 H1'. repeat split; [congruence..|lia].
Qed.

Lemma leaderboardMyPosition_returns st reqUser user :
  users st !! reqUser = Some user →
  leaderboardMyPosition reqUser st
  = (st, Json (MyPosition.mk
       (countDocuments (users st) (betterThan user) + 1)
       (countDocuments (users st) (λ u, User.totalPoints u > 0))
       (User.totalPoints user) (User.correctMatches user)
       (User.correctScores user)
       (percentileOf (countDocuments (users st) (betterThan user) + 1)
          (countDocuments (users st) (λ u, User.totalPoints u > 0))))).
Proof.
  intros Hu. unfold leaderboardMyPosition, respond, bind, gets. rewrite Hu.
  reflexivity.
Qed.

Lemma percentile_checked_spec n t p :
  percentile_checked n = true →
  (1 ≤ t ≤ Z.of_nat n) → (1 ≤ p ≤ 2 * Z.of_nat n) →
  percentile_close p t (float_to_Z (percentileOf p t)).
Proof.
  unfold percentile_checked. rewrite forallb_forall. intros Hall Ht Hp.
  specialize (Hall (Z.to_nat t)). rewrite forallb_forall in Hall.
  assert (Hin : List.In (Z.to_nat t) (seq 1 n)) by (apply in_seq; lia).
  specialize (Hall Hin (Z.to_nat p)).
  assert (Hin' : List.In (Z.to_nat p) (seq 1 (2 * n))) by (apply in_seq; lia).
  specialize (Hall Hin'). apply bool_decide_eq_true in Hall.
  by rewrite !Z2Nat.id in Hall by lia.
Qed.

Lemma percentile_checked_100 : percentile_checked 100 = true.
Proof. vm_compute. reflexivity. Qed.

(** C8 as stated fails: with 40 ranked users the user at position 17 has the
    exact percentile 57.5, which rounds to 58, but the double-precision
    value of (1 - 17 / 40) * 100 falls just below 57.5 and the handler
    answers 57. *)
Lemma percentile_not_exactly_rounded :
  ∃ r, leaderboardMyPosition "u24" Sample.forty_store
       = (Sample.forty_store, Json r)
    ∧ MyPosition.position r = 17
    ∧ MyPosition.totalUsers r = 40
    ∧ float_to_Z (MyPosition.percentile r) = Some 57
    ∧ exact_percentile 17 40 = 58
    ∧ ¬ percentile_as_designed r.
Proof.
  eexists. split; [vm_compute; reflexivity|].
  repeat split; try (vm_compute; reflexivity).
  unfold percentile_as_designed. vm_compute. discriminate.
Qed.

(** C8, as the code has it.  The my-position query answers with position =
    1 + the number of users whose tuple (totalPoints, correctScores,
    correctMatches) is lexicographically greater than the user's own, and
    with the number of users that have totalPoints > 0.  The percentile is 0
    when no user is ranked; otherwise it is [Math.round] of the
    double-precision value of (1 - position / totalUsers) * 100, an integer
    which, for up to 100 ranked users and positions up to 200, is the
    exactly rounded percentile, or one less where the exact value lies
    halfway between two integers. *)
Theorem my_position_rule (st : Store) (reqUser : ObjectId) (user : User.t) :
  users st !! reqUser = Some user →
  ∃ r, leaderboardMyPosition reqUser st = (st, Json r)
    ∧ MyPosition.position r
      = 1 + Z.of_nat (length (filter
              (λ kd : ObjectId * User.t,
                 lexico (rank_key user) (rank_key kd.2))
              (map_to_list (users st))))
    ∧ MyPosition.totalUsers r
      = Z.of_nat (length (filter
              (λ kd : ObjectId * User.t, User.totalPoints kd.2 > 0)
              (map_to_list (users st))))
    ∧ (MyPosition.totalUsers r = 0 → MyPosition.percentile r = 0%float)
    ∧ (MyPosition.totalUsers r ≠ 0 →
       MyPosition.percentile r
       = Math_round
           (PrimFloat.mul
              (PrimFloat.sub 1%float
                 (PrimFloat.div (Z_to_float (MyPosition.position r))
                    (Z_to_float (MyPosition.totalUsers r))))
              100%float))
    ∧ (1 ≤ MyPosition.totalUsers r ≤ 100 → MyPosition.position r ≤ 200 →
       percentile_close (MyPosition.position r) (MyPosition.totalUsers r)
         (float_to_Z (MyPosition.percentile r))).
Proof.
  intros Hu. eexists. split; [by apply leaderboardMyPosition_returns|].
  simpl. split; [|split; [|split; [|split]]].
  - unfold countDocuments, find.
    rewrite (list_filter_iff _
      (λ kd : ObjectId * User.t, lexico (rank_key user) (rank_key kd.2))).
    + lia.
    + intros kd. apply betterThan_lexico.
  - reflexivity.
  - intros H0. unfold percentileOf. rewrite decide_False; [done|].
    unfold countDocuments in *. lia.
  - intros H0. unfold percentileOf. rewrite decide_True; [done|].
    unfold countDocuments in *. lia.
  - intros Ht Hp. apply (percentile_checked_spec 100).
    + exact percentile_checked_100.
    + unfold countDocuments in *. lia.
    + unfold countDocuments in *. lia.
Qed.

Lemma my_position_rule_witness :
  ∃ r, leaderboardMyPosition "u24" Sample.forty_store
       = (Sample.forty_store, Json r)
    ∧ MyPosition.position r = 17
    ∧ MyPosition.totalUsers r = 40
    ∧ percentile_close 17 40 (float_to_Z (MyPosition.percentile r))
    ∧ float_to_Z (MyPosition.percentile r) = Some 57.
Proof.
  assert (Hu : users Sample.forty_store !! "u24"
               = Some (User.mk "u24" "u24@example.com" "Online" 24 0 0))
    by (vm_compute; reflexivity).
  destruct (my_position_rule Sample.forty_store "u24" _ Hu)
    as (r & Hr & Hpos & Htot & _ & Hpct & Hclose).
  exists r. split; [exact Hr|].
  assert (Hp : MyPosition.position r = 17)
    by (rewrite Hpos; vm_compute; reflexivity).
  assert (Ht : MyPosition.totalUsers r = 40)
    by (rewrite Htot; vm_compute; reflexivity).
  split; [exact Hp|]. split; [exact Ht|]. split.
  - rewrite <- Hp at 1. rewrite <- Ht at 1. apply Hclose; lia.
  - rewrite Hpct by lia. rewrite Hp, Ht. vm_compute. reflexivity.
Defined.

Example Math_round_examples :
  float_to_Z (Math_round 87.5%float) = Some 88
  ∧ float_to_Z (Math_round (-0.5)%float) = Some 0
  ∧ float_to_Z (Math_round (-2.5)%float) = Some (-2)
  ∧ float_to_Z (Math_round 2.25%float) = Some 2.
Proof. repeat split; vm_compute; reflexivity. Qed.

(** The double-precision percentile against exact arithmetic: position 1 of
    8 is 87.5, rounded up to 88; position 17 of 40 is 57.5 exactly, but its
    double evaluation falls just below and rounds to 57. *)
Example percentileOf_examples :
  float_to_Z (percentileOf 1 8) = Some 88
  ∧ float_to_Z (percentileOf 1 3) = Some 67
  ∧ float_to_Z (percentileOf 17 40) = Some 57
  ∧ float_to_Z (percentileOf 5 0) = Some 0.
Proof. repeat split; vm_compute; reflexivity. Qed.

Lemma position_exceeds_ranked st user :
  User.totalPoints user ≤ 0 →
  countDocuments (users st) (betterThan user) + 1
  > countDocuments (users st) (λ u, User.totalPoints u > 0).
Proof.
  intros Hz. unfold countDocuments, find.
  assert (H : (length (filter (λ kd : ObjectId * User.t,
                                 (User.totalPoints kd.2 > 0)%Z)
                         (map_to_list (users st)))
               ≤ length (filter (λ kd : ObjectId * User.t,
                                   betterThan user kd.2)
                           (map_to_list (users st))))%nat).
  { induction (map_to_list (users st)) as [|kd l IH]; [done|].
    rewrite !filter_cons.
    destruct (decide (User.totalPoints kd.2 > 0)) as [Hp|Hp].
    - rewrite decide_True by (left; lia). simpl. lia.
    - case_decide; simpl; lia. }
  lia.
Qed.

(** C10. The percentile is not confined to [0, 100]: a user without points
    is placed after every ranked user, so the position exceeds the number of
    ranked users whenever there is one; with one ranked user and other
    zero-point users that differ on the tie-break fields, the user at
    position 3 of 1 gets the percentile -200. *)
Theorem percentile_below_zero :
  (∀ st reqUser user r,
      users st !! reqUser = Some user → User.totalPoints user = 0 →
      leaderboardMyPosition reqUser st = (st, Json r) →
      MyPosition.position r > MyPosition.totalUsers r)
  ∧ ∃ r, leaderboardMyPosition "dan" Sample.standings_store
         = (Sample.standings_store, Json r)
      ∧ MyPosition.totalPoints r = 0
      ∧ MyPosition.totalUsers r = 1
      ∧ MyPosition.position r = 3
      ∧ float_to_Z (MyPosition.percentile r) = Some (-200)
      ∧ PrimFloat.ltb (MyPosition.percentile r) 0%float = true.
Proof.
  split.
  - intros st reqUser user r Hu Hz Hrun.
    rewrite (leaderboardMyPosition_returns _ _ user) in Hrun by done.
    injection Hrun as <-. simpl. apply position_exceeds_ranked. lia.
  - eexists. split; [vm_compute; reflexivity|].
    repeat split; vm_compute; reflexivity.
Qed.

Lemma percentile_below_zero_witness :
  ∃ r, leaderboardMyPosition "eva" Sample.standings_store
       = (Sample.standings_store, Json r)
    ∧ MyPosition.position r > MyPosition.totalUsers r.
Proof.
  eexists. split; [apply leaderboardMyPosition_returns; reflexivity|].
  apply (proj1 percentile_below_zero Sample.standings_store "eva"
           Sample.eva); [reflexivity|reflexivity|].
  apply leaderboardMyPosition_returns. reflexivity.
Defined.

(** ** The paginated leaderboard *)

Global Instance sortsBefore_total : Total sortsBefore.
Proof. intros a b. unfold sortsBefore. lia. Qed.

Global Instance sortsBefore_trans : Transitive sortsBefore.
Proof. intros a b c. unfold sortsBefore. lia. Qed.

Lemma ranking_Permutation st : ranking st ≡ₚ map_to_list (users st).
Proof. apply merge_sort_Permutation. Qed.

Lemma ranking_sorted st : StronglySorted sortsBefore (ranking st).
Proof. apply StronglySorted_merge_sort; apply _. Qed.

Lemma ranking_cursor st : sorted_cursor st (ranking st).
Proof. split; [apply ranking_Permutation|apply ranking_sorted]. Qed.

Lemma ranking_NoDup st : NoDup (ranking st).
Proof. rewrite ranking_Permutation. apply NoDup_map_to_list. Qed.

Lemma ranking_elem_of st k u : (k, u) ∈ ranking st ↔ users st !! k = Some u.
Proof. rewrite ranking_Permutation. apply elem_of_map_to_list. Qed.

Lemma StronglySorted_lookup {A} (R : relation A) (l : list A) i j x y :
  StronglySorted R l → (i < j)%nat → l !! i = Some x → l !! j = Some y →
  R x y.
Proof.
  intros Hs. revert i j. induction Hs as [|z l Hs IH Hall]; intros i j Hij Hi Hj.
  - by rewrite lookup_nil in Hi.
  - destruct j as [|j]; [lia|]. destruct i as [|i].
    + simpl in Hi, Hj. injection Hi as ->.
      eapply Forall_forall; [exact Hall|]. by eapply list_elem_of_lookup_2.
    + simpl in Hi, Hj. apply (IH i j); [lia|done..].
Qed.

Lemma sortsBefore_between (x y z : ObjectId * User.t) :
  sortsBefore x y → sortsBefore y z → rank_key x.2 = rank_key z.2 →
  rank_key y.2 = rank_key x.2.
Proof.
  unfold sortsBefore, rank_key. intros Hxy Hyz Hk. injection Hk as H1 H2 H3.
  assert (E1 : User.totalPoints y.2 = User.totalPoints x.2) by lia.
  assert (E2 : User.correctScores y.2 = User.correctScores x.2) by lia.
  assert (E3 : User.correctMatches y.2 = User.correctMatches x.2) by lia.
  by rewrite E1, E2, E3.
Qed.

(** Between two documents with the same key a sorted cursor holds only
    documents with that key. *)
Lemma tied_block (l : list (ObjectId * User.t)) i j k x y z :
  StronglySorted sortsBefore l →
  l !! i = Some x → l !! j = Some y → rank_key x.2 = rank_key y.2 →
  (i `min` j ≤ k ≤ i `max` j)%nat → l !! k = Some z →
  rank_key z.2 = rank_key x.2.
Proof.
  intros Hs Hi Hj Hk Hrange Hz.
  destruct (decide (k = i)) as [->|Hki]; [congruence|].
  destruct (decide (k = j)) as [->|Hkj]; [congruence|].
  destruct (decide (i < j)%nat) as [Hij|Hij].
  - apply (sortsBefore_between x z y); [| |done].
    + apply (StronglySorted_lookup _ l i k); [done|lia|done..].
    + apply (StronglySorted_lookup _ l k j); [done|lia|done..].
  - rewrite Hk. apply (sortsBefore_between y z x); [| |done].
    + apply (StronglySorted_lookup _ l j k); [done|lia|done..].
    + apply (StronglySorted_lookup _ l k i); [done|lia|done..].
Qed.

Lemma skip_limit_lookup {A} (skip limit : Z) (l : list A) n x :
  skip_limit skip limit l !! n = Some x → l !! (Z.to_nat skip + n)%nat = Some x.
Proof.
  unfold skip_limit. case_decide.
  - by rewrite lookup_drop.
  - intros [H1 _]%lookup_take_Some. by rewrite lookup_drop in H1.
Qed.

Lemma skip_limit_page_one {A} (l : list A) :
  l ≠ [] → skip_limit ((1 - 1) * Z.of_nat (length l)) (Z.of_nat (length l)) l = l.
Proof.
  intros Hl. unfold skip_limit. simpl. rewrite drop_0.
  rewrite decide_False by (destruct l; [done|simpl; lia]).
  rewrite Z.abs_eq, Nat2Z.id by lia. apply firstn_all.
Qed.

Lemma leaderboard_entries cursor page limit st r n e :
  leaderboardFrom cursor page limit st = (st, Json r) →
  Leaderboard.leaderboard r !! n = Some e →
  let skip := (default 1 page - 1) * default 50 limit in
  Entry.position e = skip + Z.of_nat n + 1
  ∧ ∃ kd, cursor !! (Z.to_nat skip + n)%nat = Some kd
      ∧ e = entry_at (Z.to_nat skip + n) kd.2.
Proof.
  intros Hrun He skip. unfold leaderboardFrom, respond in Hrun.
  fold skip in Hrun.
  destruct (decide (skip < 0)) as [Hneg|Hpos]; [discriminate|].
  unfold bind, gets, ret in Hrun. injection Hrun as <-. simpl in He.
  rewrite list_lookup_imap in He.
  destruct (skip_limit skip (default 50 limit) cursor !! n)
    as [kd|] eqn:Hkd; [|discriminate].
  injection He as <-. split; [reflexivity|]. exists kd. split.
  - by apply skip_limit_lookup in Hkd.
  - unfold entry_at. f_equal. lia.
Qed.

Lemma leaderboard_full cursor st :
  cursor ≠ [] →
  ∃ r, leaderboardFrom cursor (Some 1) (Some (Z.of_nat (length cursor))) st
       = (st, Json r)
    ∧ ∀ i kd, cursor !! i = Some kd →
        Leaderboard.leaderboard r !! i = Some (entry_at i kd.2).
Proof.
  intros Hne. eexists. split.
  - unfold leaderboardFrom, respond. simpl. unfold bind, gets, ret.
    reflexivity.
  - intros i kd Hi. simpl. rewrite list_lookup_imap.
    rewrite (skip_limit_page_one cursor Hne), Hi. simpl.
    reflexivity.
Qed.

Lemma countDocuments_tied st ua ub :
  rank_key ua = rank_key ub →
  countDocuments (users st) (betterThan ua)
  = countDocuments (users st) (betterThan ub).
Proof.
  intros Hk. unfold countDocuments, find. do 2 f_equal.
  apply list_filter_iff. intros kd. by rewrite !betterThan_lexico, Hk.
Qed.

Lemma tied_adjacent (l : list (ObjectId * User.t)) i j x y :
  StronglySorted sortsBefore l → NoDup l →
  l !! i = Some x → l !! j = Some y → rank_key x.2 = rank_key y.2 →
  (∀ z, z ∈ l → rank_key z.2 = rank_key x.2 → z = x ∨ z = y) →
  (i < j)%nat → j = S i.
Proof.
  intros Hs Hnd Hi Hj Hk Honly Hij.
  destruct (decide (j = S i)) as [|Hne]; [done|]. exfalso.
  assert (Hlen : (S i < length l)%nat).
  { apply lookup_lt_Some in Hj. lia. }
  destruct (lookup_lt_is_Some_2 l (S i) Hlen) as [z Hz].
  assert (Hkz : rank_key z.2 = rank_key x.2).
  { apply (tied_block l i j (S i) x y z); [done..|lia|done]. }
  destruct (Honly z (list_elem_of_lookup_2 _ _ _ Hz) Hkz) as [->| ->].
  - pose proof (NoDup_lookup _ _ _ _ Hnd Hz Hi). lia.
  - pose proof (NoDup_lookup _ _ _ _ Hnd Hz Hj). lia.
Qed.

Lemma filter_all {A} (P : A → Prop) `{!∀ x, Decision (P x)} (l : list A) :
  Forall P l → filter P l = l.
Proof.
  induction 1 as [|x l Hx _ IH]; [done|].
  by rewrite filter_cons_True, IH.
Qed.

(** A stretch of a list whose elements all satisfy [P] is no longer than
    the number of elements of the list that satisfy [P]. *)
Lemma block_count {A} (P : A → Prop) `{!∀ x, Decision (P x)} (l : list A) i j :
  (i ≤ j)%nat → (j < length l)%nat →
  (∀ k x, (i ≤ k ≤ j)%nat → l !! k = Some x → P x) →
  (j - i < length (filter P l))%nat.
Proof.
  intros Hij Hj Hall.
  assert (Hmid : Forall P (take (S (j - i)) (drop i l))).
  { apply Forall_lookup. intros k x Hk.
    apply lookup_take_Some in Hk as [Hk Hlt]. rewrite lookup_drop in Hk.
    apply (Hall (i + k)%nat); [lia|done]. }
  rewrite <- (take_drop i l), filter_app, length_app.
  rewrite <- (take_drop (S (j - i)) (drop i l)), filter_app, length_app.
  rewrite (filter_all P _ Hmid), length_take, length_drop. lia.
Qed.

(** C9 as stated fails: with three users on one tuple the leaderboard puts
    them at positions 2, 3 and 4, and the rows at 2 and 4 are rows of tied
    users that are not consecutive. *)
Lemma tied_rows_not_consecutive :
  ∃ r, leaderboard None None Sample.tied_store = (Sample.tied_store, Json r)
    ∧ Entry.position <$> Leaderboard.leaderboard r = [1; 2; 3; 4]
    ∧ Entry.totalPoints <$> Leaderboard.leaderboard r = [10; 5; 5; 5]
    ∧ ¬ tied_rows_consecutive r.
Proof.
  eexists. split; [vm_compute; reflexivity|].
  split; [reflexivity|]. split; [reflexivity|]. intros H.
  match type of H with
  | tied_rows_consecutive
      {| Leaderboard.leaderboard := [_; ?e2; _; ?e4] |} =>
      specialize (H e2 e4)
  end.
  destruct H as [H|H]; try discriminate; try reflexivity.
  - right. left.
  - right. right. right. left.
Qed.

(** C9, as the code has it.  Two users with the same (totalPoints,
    correctScores, correctMatches) get the same position from the
    my-position query.  The leaderboard, whichever sorted cursor the
    database returns for the request, shows each row with the position
    offset + index + 1 of the cursor, so a response that lists the two, as
    the page of all users does, gives them different positions.  The rows
    between theirs belong to users with the same tuple, so the two positions
    differ by less than the number of users that share the tuple: they are
    consecutive when no third user shares it, and need not be otherwise. *)
Theorem ranking_queries_disagree_on_ties (st : Store) (a b : ObjectId)
    (ua ub : User.t) :
  a ≠ b → users st !! a = Some ua → users st !! b = Some ub →
  rank_key ua = rank_key ub →
  (∃ ra rb, leaderboardMyPosition a st = (st, Json ra)
     ∧ leaderboardMyPosition b st = (st, Json rb)
     ∧ MyPosition.position ra = MyPosition.position rb)
  ∧ ∀ cursor, sorted_cursor st cursor →
      (∀ page limit r n e,
         leaderboardFrom cursor page limit st = (st, Json r) →
         Leaderboard.leaderboard r !! n = Some e →
         let skip := (default 1 page - 1) * default 50 limit in
         Entry.position e = skip + Z.of_nat n + 1
         ∧ ∃ kd, cursor !! (Z.to_nat skip + n)%nat = Some kd
             ∧ e = entry_at (Z.to_nat skip + n) kd.2)
      ∧ ∃ i j : nat,
          i ≠ j
          ∧ cursor !! i = Some (a, ua) ∧ cursor !! j = Some (b, ub)
          ∧ (∃ r, leaderboardFrom cursor (Some 1)
                    (Some (Z.of_nat (length cursor))) st = (st, Json r)
               ∧ Leaderboard.leaderboard r !! i = Some (entry_at i ua)
               ∧ Leaderboard.leaderboard r !! j = Some (entry_at j ub)
               ∧ Entry.position (entry_at i ua)
                 ≠ Entry.position (entry_at j ub))
          ∧ (∀ k kd, (i `min` j ≤ k ≤ i `max` j)%nat →
               cursor !! k = Some kd → rank_key kd.2 = rank_key ua)
          ∧ Z.of_nat (i `max` j - i `min` j)
            < countDocuments (users st) (λ u, rank_key u = rank_key ua)
          ∧ ((∀ c uc, users st !! c = Some uc → rank_key uc = rank_key ua →
                c = a ∨ c = b) →
             i = S j ∨ j = S i).
Proof.
  intros Hab Ha Hb Hk. split.
  - eexists _, _. split; [by apply leaderboardMyPosition_returns|].
    split; [by apply leaderboardMyPosition_returns|]. simpl.
    by rewrite (countDocuments_tied st ua ub).
  - intros cursor [Hperm Hsorted]. split.
    { intros page limit r n e Hrun He.
      by apply (leaderboard_entries cursor page limit st r n e). }
    assert (Hnd : NoDup cursor).
    { rewrite Hperm. apply NoDup_map_to_list. }
    assert (Hin : ∀ k u, (k, u) ∈ cursor ↔ users st !! k = Some u).
    { intros k u. rewrite Hperm. apply elem_of_map_to_list. }
    destruct (list_elem_of_lookup_1 cursor (a, ua)) as [i Hi]; [by apply Hin|].
    destruct (list_elem_of_lookup_1 cursor (b, ub)) as [j Hj]; [by apply Hin|].
    assert (Hij : i ≠ j) by (intros ->; congruence).
    assert (Hblock : ∀ k kd, (i `min` j ≤ k ≤ i `max` j)%nat →
              cursor !! k = Some kd → rank_key kd.2 = rank_key ua).
    { intros k kd Hrange Hkd.
      by apply (tied_block cursor i j k (a, ua) (b, ub) kd). }
    exists i, j. split; [done|]. split; [done|]. split; [done|].
    split.
    { destruct (leaderboard_full cursor st) as (r & Hr & Hall).
      { intros Hnil. by rewrite Hnil, lookup_nil in Hi. }
      exists r. split; [done|].
      split; [apply (Hall i _ Hi)|]. split; [apply (Hall j _ Hj)|].
      simpl. lia. }
    split; [exact Hblock|]. split.
    + unfold countDocuments, find.
      assert (Hlen : length (filter (λ kd : ObjectId * User.t,
                                       rank_key kd.2 = rank_key ua)
                               (map_to_list (users st)))
                     = length (filter (λ kd : ObjectId * User.t,
                                         rank_key kd.2 = rank_key ua) cursor)).
      { apply Permutation_length. by rewrite Hperm. }
      rewrite Hlen. apply inj_lt.
      apply (block_count (λ kd : ObjectId * User.t,
                            rank_key kd.2 = rank_key ua)).
      * lia.
      * apply lookup_lt_Some in Hi, Hj. lia.
      * exact Hblock.
    + intros Honly.
      assert (Honly' : ∀ z, z ∈ cursor →
                rank_key z.2 = rank_key (a, ua).2 → z = (a, ua) ∨ z = (b, ub)).
      { intros [c uc] Hc Hkc. apply Hin in Hc.
        destruct (Honly c uc Hc Hkc) as [-> | ->]; [left|right]; congruence. }
      destruct (decide (i < j)%nat) as [Hlt|Hge].
      * right. by apply (tied_adjacent cursor i j (a, ua) (b, ub)).
      * left. apply (tied_adjacent cursor j i (b, ub) (a, ua));
          [done|done|done|done|done| |lia].
        intros z Hz Hkz. simpl in *.
        destruct (Honly' z Hz) as [?|?]; [congruence|by right|by left].
Qed.

Lemma ranking_queries_disagree_on_ties_witness :
  (∃ ra rb, leaderboardMyPosition "bea" Sample.tied_store
            = (Sample.tied_store, Json ra)
     ∧ leaderboardMyPosition "eva" Sample.tied_store
       = (Sample.tied_store, Json rb)
     ∧ MyPosition.position ra = 2 ∧ MyPosition.position rb = 2)
  ∧ ∃ r, leaderboard None None Sample.tied_store
         = (Sample.tied_store, Json r)
      ∧ Entry.position <$> Leaderboard.leaderboard r = [1; 2; 3; 4]
      ∧ Entry.totalPoints <$> Leaderboard.leaderboard r = [10; 5; 5; 5].
Proof.
  destruct (ranking_queries_disagree_on_ties Sample.tied_store
              "bea" "eva" (User.mk "bea" "bea@example.com" "Online" 5 2 1)
              (User.mk "eva" "eva@example.com" "Online" 5 2 1)
              ltac:(discriminate) eq_refl eq_refl eq_refl)
    as ((ra & rb & Hra & Hrb & Heq) & _).
  split.
  - exists ra, rb. split; [exact Hra|]. split; [exact Hrb|].
    assert (H2 : MyPosition.position rb = 2).
    { vm_compute in Hrb. injection Hrb as <-. reflexivity. }
    split; [by rewrite Heq|exact H2].
  - eexists. split; [vm_compute; reflexivity|].
    split; vm_compute; reflexivity.
Defined.

(** ** The knockout results query *)

Lemma foldOf_realById (l : list Played.t) (acc rb : gmap string Real.t) st st' :
  foldOf (λ (realById : gmap string Real.t) m,
            match realFor m with
            | Some real => ret (<[Played.id m := real]> realById)
            | None => throw TypeError
            end) acc l st = (st', Returned rb) →
  NoDup (Played.id <$> l) →
  st' = st
  ∧ (∀ m, m ∈ l → is_Some (realFor m) ∧ rb !! Played.id m = realFor m)
  ∧ (∀ id, id ∉ Played.id <$> l → rb !! id = acc !! id).
Proof.
  revert acc. induction l as [|m l IH]; intros acc Hrun Hnd.
  - simpl in Hrun. injection Hrun as <- <-. split; [done|]. split; [|done].
    intros m Hm. by apply elem_of_nil in Hm.
  - rewrite fmap_cons in Hnd. apply NoDup_cons in Hnd as [Hm Hnd].
    simpl in Hrun. unfold bind at 1 in Hrun.
    destruct (realFor m) as [real|] eqn:Hreal; [|discriminate].
    unfold ret at 1 in Hrun.
    destruct (IH _ Hrun Hnd) as (-> & Hin & Hout).
    split; [done|]. split.
    + intros m' [->|Hm']%elem_of_cons.
      * rewrite Hreal. split; [done|]. rewrite Hout by done.
        apply lookup_insert_eq.
      * by apply Hin.
    + intros id Hid. rewrite fmap_cons in Hid.
      apply not_elem_of_cons in Hid as [Hne Hid].
      rewrite Hout by done. by apply lookup_insert_ne.
Qed.

Lemma knockoutResults_returns st userId r :
  knockoutResults userId st = (st, Json r) →
  ∃ rb : gmap string Real.t,
    (∀ id m, matches st !! id = Some m →
       Match.phase m ∈ knockout_phases → Match.status m = Finished →
       let pm := Played.mk id m (teams st !! Match.homeTeam m)
                   (teams st !! Match.awayTeam m) in
       is_Some (realFor pm) ∧ rb !! id = realFor pm)
    ∧ (∀ id m, matches st !! id = Some m →
         ¬ (Match.phase m ∈ knockout_phases ∧ Match.status m = Finished) →
         rb !! id = None)
    ∧ ∀ id p, knockoutPredictions st !! id = Some p →
        KnockoutPrediction.user p = Some userId →
        resultFor rb
          (Populated.mk p
             (populate (teams st) (Some (KnockoutPrediction.predictedWinnerTeam p)))
             (populate (matches st) (KnockoutPrediction.match_ p)))
        ∈ KnockoutResults.results r.
Proof.
  unfold knockoutResults, respond. unfold bind at 1 2, gets at 1 2.
  unfold bind at 1.
  set (played := (λ km : ObjectId * Match.t,
           Played.mk km.1 km.2 (teams st !! Match.homeTeam km.2)
                     (teams st !! Match.awayTeam km.2))
        <$> find (matches st)
              (λ m, Match.phase m ∈ knockout_phases
                    ∧ Match.status m = Finished)).
  destruct (foldOf _ ∅ played st) as [st1 [rb|e]] eqn:Hfold; [|discriminate].
  unfold ret. intros Hrun. injection Hrun as -> <-.
  assert (Hids : Played.id <$> played
                 = (find (matches st)
                      (λ m, Match.phase m ∈ knockout_phases
                            ∧ Match.status m = Finished)).*1).
  { unfold played. rewrite <- list_fmap_compose. reflexivity. }
  apply foldOf_realById in Hfold as (_ & Hin & Hout).
  2: { rewrite Hids. apply find_NoDup_keys. }
  exists rb. split; [|split].
  - intros id m Hm Hphase Hstatus. cbv zeta.
    apply (Hin (Played.mk id m (teams st !! Match.homeTeam m)
                  (teams st !! Match.awayTeam m))). unfold played.
    apply list_elem_of_fmap. exists (id, m). split; [done|].
    apply find_lookup. done.
  - intros id m Hm Hnot. rewrite Hout; [done|]. rewrite Hids.
    intros Hid. apply list_elem_of_fmap in Hid as ([id' m'] & -> & Hin').
    apply find_lookup in Hin' as [Hm' HP]. simpl in *. congruence.
  - intros id p Hp Hu. simpl. apply list_elem_of_fmap.
    eexists. split; [reflexivity|]. apply list_elem_of_fmap.
    exists (id, p). split; [done|]. rewrite merge_sort_Permutation.
    by apply find_lookup.
Qed.

Lemma foldOf_realById_returns (l : list Played.t) (acc : gmap string Real.t) st :
  Forall (λ m, is_Some (realFor m)) l →
  ∃ rb, foldOf (λ (realById : gmap string Real.t) m,
                  match realFor m with
                  | Some real => ret (<[Played.id m := real]> realById)
                  | None => throw TypeError
                  end) acc l st = (st, Returned rb).
Proof.
  intros Hall. revert acc.
  induction Hall as [|m l [real Hreal] _ IH]; intros acc; simpl.
  - by eexists.
  - unfold bind. rewrite Hreal. unfold ret at 1. apply IH.
Qed.

(** The query answers whenever the teams of the matches exist. *)
Lemma knockoutResults_total st userId :
  (∀ id m, matches st !! id = Some m →
     is_Some (teams st !! Match.homeTeam m)
     ∧ is_Some (teams st !! Match.awayTeam m)) →
  ∃ r, knockoutResults userId st = (st, Json r).
Proof.
  intros Hteams. unfold knockoutResults, respond.
  unfold bind at 1 2, gets at 1 2. unfold bind at 1.
  edestruct (foldOf_realById_returns) as [rb ->].
  2: { unfold ret. by eexists. }
  apply Forall_fmap, Forall_forall. intros [id m] Hin.
  apply find_lookup in Hin as [Hm _].
  destruct (Hteams id m Hm) as [[h Hh] [a Ha]].
  unfold realFor. simpl. rewrite Hh, Ha. simpl.
  repeat case_match; by eexists.
Qed.

Lemma phasePoints_stage_values stage v :
  (stage, v) ∈ stage_values →
  match phasePoints !! stage with Some v' => or1 v' | None => 1 end = v.
Proof.
  unfold stage_values. rewrite !elem_of_cons, elem_of_nil.
  intros [H|[H|[H|[H|[H|[H|[]]]]]]]; injection H as -> ->; reflexivity.
Qed.

(** C6 as stated fails.  A knockout prediction may link to any match; the
    query looks for the result among the finished matches of the six
    knockout phases only.  A pick for the final linked to a group-stage
    match that the picked team won 2-0 gets [isCorrect = null] and no
    points. *)
Lemma correct_pick_of_other_phase_earns_nothing :
  (∃ r, knockoutResults "ana" Sample.linked_store
        = (Sample.linked_store, Json r)
     ∧ KnockoutResult.isCorrect <$> KnockoutResults.results r = [None]
     ∧ KnockoutResult.pointsEarned <$> KnockoutResults.results r = [0])
  ∧ ¬ correct_pick_earns_stage_value Sample.linked_store "ana".
Proof.
  split.
  - eexists. split; [vm_compute; reflexivity|]. split; reflexivity.
  - intros H.
    assert (Hrun : ∃ r, knockoutResults "ana" Sample.linked_store
                        = (Sample.linked_store, Json r)
                     ∧ KnockoutResult.pointsEarned <$> KnockoutResults.results r
                       = [0])
      by (eexists; split; [vm_compute; reflexivity|reflexivity]).
    destruct Hrun as (r & Hrun & Hzero).
    destruct (H r "a"%string Sample.linked_guess "m1"%string Sample.m1 2 0 10)
      as (res & Hin & _ & _ & _ & Hpts);
      [exact Hrun|reflexivity..|discriminate|reflexivity| |].
    { unfold stage_values. rewrite !elem_of_cons. tauto. }
    assert (Hpt : KnockoutResult.pointsEarned res
                  ∈ KnockoutResult.pointsEarned <$> KnockoutResults.results r)
      by (apply list_elem_of_fmap; by exists res).
    rewrite Hzero, Hpts in Hpt. apply list_elem_of_singleton in Hpt.
    discriminate.
Qed.

(** C6, as the code has it.  In the answer of the knockout results query
    every prediction of the user has an entry.  When its linked match is
    finished with equal scores the entry has [isCorrect = null] and no
    points, and so it has when the linked match is not finished or is not a
    match of one of the six knockout phases.  When the linked match is a
    finished match of a knockout phase with a winner, [isCorrect] says
    whether the predicted team is that winner, and the entry earns the value
    of the prediction's stage (Round of 32: 1, Round of 16: 2, Quarter
    Finals: 3, Semi Finals: 5, Third Place: 3, Final: 10) if it is, 0 if
    not. *)
Theorem knockout_results_rule (st : Store) (userId : ObjectId)
    (r : KnockoutResults.t) (id : ObjectId) (p : KnockoutPrediction.t) :
  knockoutResults userId st = (st, Json r) →
  knockoutPredictions st !! id = Some p →
  KnockoutPrediction.user p = Some userId →
  ∃ res, res ∈ KnockoutResults.results r
    ∧ KnockoutResult.stage res = KnockoutPrediction.stage p
    ∧ KnockoutResult.matchOrder res = KnockoutPrediction.matchOrder p
    ∧ (∀ mid m h,
         KnockoutPrediction.match_ p = Some mid → matches st !! mid = Some m →
         Match.status m = Finished →
         Match.homeScore m = Some h → Match.awayScore m = Some h →
         KnockoutResult.isCorrect res = None
         ∧ KnockoutResult.pointsEarned res = 0)
    ∧ (∀ mid m,
         KnockoutPrediction.match_ p = Some mid → matches st !! mid = Some m →
         Match.status m ≠ Finished ∨ Match.phase m ∉ knockout_phases →
         KnockoutResult.isCorrect res = None
         ∧ KnockoutResult.pointsEarned res = 0)
    ∧ (∀ mid m h a v,
         KnockoutPrediction.match_ p = Some mid → matches st !! mid = Some m →
         Match.status m = Finished → Match.phase m ∈ knockout_phases →
         Match.homeScore m = Some h → Match.awayScore m = Some a → h ≠ a →
         (KnockoutPrediction.stage p, v) ∈ stage_values →
         let winner :=
           if decide (h > a) then Match.homeTeam m else Match.awayTeam m in
         KnockoutResult.isCorrect res
         = Some (bool_decide (KnockoutPrediction.predictedWinnerTeam p = winner))
         ∧ KnockoutResult.pointsEarned res
           = if decide (KnockoutPrediction.predictedWinnerTeam p = winner)
             then v else 0).
Proof.
  intros Hrun Hp Hu.
  destruct (knockoutResults_returns st userId r Hrun) as (rb & Hin & Hout & Hres).
  eexists. split; [exact (Hres id p Hp Hu)|]. split; [reflexivity|].
  split; [reflexivity|]. split; [|split].
  - intros mid m h Hmid Hm Hs Hh Ha. unfold resultFor, populate. simpl.
    rewrite Hmid. simpl. rewrite Hm. simpl.
    destruct (decide (Match.phase m ∈ knockout_phases)) as [Hph|Hph].
    + destruct (Hin mid m Hm Hph Hs) as [_ Hrb]. rewrite Hrb.
      unfold realFor, js_gt. simpl. rewrite Hh, Ha. simpl.
      rewrite !bool_decide_eq_false_2 by lia. done.
    + rewrite (Hout mid m Hm) by tauto. done.
  - intros mid m Hmid Hm Hnot. unfold resultFor, populate. simpl.
    rewrite Hmid. simpl. rewrite Hm. simpl.
    rewrite (Hout mid m Hm) by tauto. done.
  - intros mid m h a v Hmid Hm Hs Hph Hh Ha Hne Hv winner.
    unfold resultFor, populate. simpl. rewrite Hmid. simpl. rewrite Hm. simpl.
    destruct (Hin mid m Hm Hph Hs) as [Hsome Hrb]. rewrite Hrb.
    rewrite (phasePoints_stage_values _ v Hv).
    clear Hin Hout Hres Hrun.
    unfold realFor, js_gt in Hsome |- *. simpl in Hsome |- *.
    rewrite Hh, Ha in Hsome |- *. simpl in Hsome |- *. unfold winner.
    destruct (decide (h > a)) as [Hgt|Hle].
    + rewrite (bool_decide_eq_true_2 _ Hgt) in Hsome |- *.
      destruct (teams st !! Match.homeTeam m) as [t|] eqn:Ht;
        [|by destruct Hsome]. simpl.
      destruct (decide (KnockoutPrediction.predictedWinnerTeam p
                        = Match.homeTeam m)) as [Heq|Hneq].
      * rewrite Heq, Ht. simpl. by rewrite !bool_decide_eq_true_2.
      * rewrite (bool_decide_eq_false_2 _ Hneq).
        rewrite bool_decide_eq_false_2; [done|].
        destruct (teams st !! KnockoutPrediction.predictedWinnerTeam p);
          simpl; [intros [= ?]; done|discriminate].
    + rewrite (bool_decide_eq_false_2 _ Hle) in Hsome |- *.
      assert (Hlt : a > h) by lia.
      rewrite (bool_decide_eq_true_2 _ Hlt) in Hsome |- *.
      destruct (teams st !! Match.awayTeam m) as [t|] eqn:Ht;
        [|by destruct Hsome]. simpl.
      destruct (decide (KnockoutPrediction.predictedWinnerTeam p
                        = Match.awayTeam m)) as [Heq|Hneq].
      * rewrite Heq, Ht. simpl. by rewrite !bool_decide_eq_true_2.
      * rewrite (bool_decide_eq_false_2 _ Hneq).
        rewrite bool_decide_eq_false_2; [done|].
        destruct (teams st !! KnockoutPrediction.predictedWinnerTeam p);
          simpl; [intros [= ?]; done|discriminate].
Qed.

Lemma knockout_results_rule_witness :
  ∃ r won drawn,
    knockoutResults "ana" Sample.knockout_store
    = (Sample.knockout_store, Json r)
    ∧ won ∈ KnockoutResults.results r
    ∧ KnockoutResult.stage won = "Final"%string
    ∧ KnockoutResult.isCorrect won = Some true
    ∧ KnockoutResult.pointsEarned won = 10
    ∧ drawn ∈ KnockoutResults.results r
    ∧ KnockoutResult.stage drawn = "Semi Finals"%string
    ∧ KnockoutResult.isCorrect drawn = None
    ∧ KnockoutResult.pointsEarned drawn = 0.
Proof.
  assert (Hrun : ∃ r, knockoutResults "ana" Sample.knockout_store
                      = (Sample.knockout_store, Json r))
    by (eexists; vm_compute; reflexivity).
  destruct Hrun as [r Hrun].
  destruct (knockout_results_rule Sample.knockout_store "ana" r "a"
              Sample.right_guess Hrun eq_refl eq_refl)
    as (won & Hwin & Hwstage & _ & _ & _ & Hdecided).
  destruct (Hdecided "k1" Sample.final 2 1 10 eq_refl eq_refl eq_refl)
    as [Hwc Hwpts].
  { unfold knockout_phases. rewrite !elem_of_cons. tauto. }
  { reflexivity. }
  { reflexivity. }
  { discriminate. }
  { unfold stage_values. rewrite !elem_of_cons. tauto. }
  destruct (knockout_results_rule Sample.knockout_store "ana" r "b"
              Sample.drawn_guess Hrun eq_refl eq_refl)
    as (drawn & Hdin & Hdstage & _ & Hdraw & _).
  destruct (Hdraw "k2" Sample.semi 1 eq_refl eq_refl eq_refl eq_refl eq_refl)
    as [Hdc Hdpts].
  exists r, won, drawn. repeat split; assumption.
Defined.

Example knockout_results_sample :
  ∃ r, knockoutResults "ana" Sample.knockout_store
       = (Sample.knockout_store, Json r)
    ∧ KnockoutResult.isCorrect <$> KnockoutResults.results r
      = [Some true; Some false; None]
    ∧ KnockoutResult.pointsEarned <$> KnockoutResults.results r = [10; 0; 0].
Proof. eexists. split; [vm_compute; reflexivity|]. split; reflexivity. Qed.

(** ** Which operations write the aggregate *)

Lemma preserves_users_ret {A} (a : A) : preserves_users (ret a).
Proof. intros st st' o [= <- _]. done. Qed.

Lemma preserves_users_throw {A} e : preserves_users (@throw A e).
Proof. intros st st' o [= <- _]. done. Qed.

Lemma preserves_users_gets {A} (f : Store → A) : preserves_users (gets f).
Proof. intros st st' o [= <- _]. done. Qed.

Lemma preserves_users_castId id : preserves_users (castId id).
Proof. intros st st' o. destruct id; intros [= <- _]; done. Qed.

Lemma preserves_users_modify (f : Store → Store) :
  (∀ st, users (f st) = users st) → preserves_users (modify f).
Proof. intros Hf st st' o [= <- _]. apply Hf. Qed.

Lemma preserves_users_bind {A B} (m : M A) (k : A → M B) :
  preserves_users m → (∀ a, preserves_users (k a)) → preserves_users (bind m k).
Proof.
  intros Hm Hk st st' o. unfold bind.
  destruct (m st) as [st1 [a|e]] eqn:Hrun.
  - intros Hrun'. rewrite (Hk a _ _ _ Hrun'). by eapply Hm.
  - intros [= <- _]. by eapply Hm.
Qed.

Lemma preserves_users_foldOf {A B} (body : B → A → M B) (l : list A) acc :
  (∀ b a, preserves_users (body b a)) → preserves_users (foldOf body acc l).
Proof.
  intros Hbody. revert acc. induction l as [|x l IH]; intros acc; simpl.
  - apply preserves_users_ret.
  - apply preserves_users_bind; [apply Hbody|done].
Qed.

Lemma preserves_users_forOf {A} (body : A → M unit) (l : list A) :
  (∀ a, preserves_users (body a)) → preserves_users (forOf body l).
Proof.
  intros Hbody. induction l as [|x l IH]; simpl.
  - apply preserves_users_ret.
  - apply preserves_users_bind; [apply Hbody|done].
Qed.

Lemma preserves_users_save_GroupPrediction id p :
  preserves_users (save_GroupPrediction id p).
Proof.
  unfold save_GroupPrediction. destruct (GroupPrediction.validate p).
  - by apply preserves_users_modify.
  - apply preserves_users_throw.
Qed.

Lemma save_User_users id u st st' o :
  save_User id u st = (st', o) →
  (o = Returned tt ∧ users st' = <[id := u]> (users st))
  ∨ (o = Threw ValidationError ∧ st' = st).
Proof.
  unfold save_User. destruct (User.validate u); intros [= <- <-]; auto.
Qed.

Lemma preserves_users_save_MatchPrediction id p :
  preserves_users (save_MatchPrediction id p).
Proof.
  unfold save_MatchPrediction. destruct (MatchPrediction.validate p).
  - by apply preserves_users_modify.
  - apply preserves_users_throw.
Qed.

Create HintDb effects.

#[local] Hint Resolve preserves_users_ret preserves_users_throw
  preserves_users_gets preserves_users_castId
  preserves_users_save_GroupPrediction
  preserves_users_save_MatchPrediction : effects.

(** Walks through a computation built from [bind], the loops, [modify] on
    a collection other than the users, and the leaves above. *)
Ltac preserves :=
  repeat first
    [ solve [eauto with effects]
    | by apply preserves_users_modify
    | apply preserves_users_bind; [|intros ?]
    | apply preserves_users_foldOf; intros ? ?
    | apply preserves_users_forOf; intros ?
    | case_match ].

Lemma writes_by_recalc_preserves {A} (m : M A) :
  preserves_users m → writes_by_recalc m.
Proof. intros Hm st st' o Hrun. exists []. by rewrite (Hm _ _ _ Hrun). Qed.

Lemma writes_by_recalc_after {A B} (m : M A) (k : A → M B) :
  preserves_users m → (∀ a, writes_by_recalc (k a)) →
  writes_by_recalc (bind m k).
Proof.
  intros Hm Hk st st' o. unfold bind.
  destruct (m st) as [st1 [a|e]] eqn:Hrun.
  - intros Hrun'. destruct (Hk a _ _ _ Hrun') as [uids Hu].
    exists uids. by rewrite <- (Hm _ _ _ Hrun).
  - intros [= <- _]. exists []. by rewrite (Hm _ _ _ Hrun).
Qed.

Lemma writes_by_recalc_then_ret {A B} (m : M A) (k : A → B) :
  writes_by_recalc m → writes_by_recalc (bind m (λ a, ret (k a))).
Proof.
  intros Hm st st' o. unfold bind, ret.
  destruct (m st) as [st1 [a|e]] eqn:Hrun; intros [= <- _]; by eapply Hm.
Qed.

Lemma writes_by_recalc_recalcUserTotals uid :
  writes_by_recalc (recalcUserTotals uid).
Proof.
  intros st st' o. rewrite recalcUserTotals_unfold.
  destruct (users st !! uid) as [u|] eqn:Hu; [|intros [= <- _]; by exists []].
  destruct (User.validate u); intros [= <- _].
  - exists [uid]. unfold recalc_users. simpl. by rewrite Hu.
  - by exists [].
Qed.

Lemma writes_by_recalc_loop uids :
  writes_by_recalc (forOf (λ uid, recalcUserTotals uid ;; ret tt) uids).
Proof.
  intros st st' o.
  destruct (recalc_loop_outcome uids st)
    as [[_ ->]|(l1 & uid & l2 & _ & _ & _ & ->)]; intros [= <- _].
  - by exists uids.
  - by exists l1.
Qed.

Lemma forOf_fmap {A B} (f : A → B) (body : B → M unit) (l : list A) :
  forOf (λ x, body (f x)) l = forOf body (f <$> l).
Proof. induction l as [|x l IH]; simpl; [done|]. by rewrite IH. Qed.

Lemma writes_by_recalc_respond {A} (m : M (Response A)) st :
  writes_by_recalc m →
  ∃ uids, users (respond m st).1
          = recalc_users (respond m st).1 uids (users st).
Proof.
  intros Hm. unfold respond. destruct (m st) as [st' [r|e]] eqn:Hrun;
    by eapply Hm.
Qed.

Lemma preserves_users_respond {A} (m : M (Response A)) st :
  preserves_users m → users (respond m st).1 = users st.
Proof.
  intros Hm. unfold respond. destruct (m st) as [st' [r|e]] eqn:Hrun;
    by eapply Hm.
Qed.

Lemma writes_by_recalc_calculate mid :
  writes_by_recalc (calculateMatchPointsForAllUsers mid).
Proof.
  unfold calculateMatchPointsForAllUsers.
  apply writes_by_recalc_after; [apply preserves_users_gets|].
  intros [m|]; [|apply writes_by_recalc_preserves, preserves_users_ret].
  case_decide; [apply writes_by_recalc_preserves, preserves_users_ret|].
  apply writes_by_recalc_after; [apply preserves_users_gets|]. intros preds.
  apply writes_by_recalc_after; [preserves|].
  intros _. apply writes_by_recalc_loop.
Qed.

Lemma writes_by_recalc_adminRecalculate groupResults st :
  aggregates_only_recomputed (AdminRecalculateGroupPoints groupResults) st.
Proof.
  apply writes_by_recalc_respond. destruct groupResults as [entries|].
  2: { apply writes_by_recalc_preserves, preserves_users_ret. }
  apply writes_by_recalc_after; [preserves|].
  - intros results.
    apply (writes_by_recalc_then_ret _
             (λ _, Json (RecalcGroups.mk (Z.of_nat (length results)) results))).
    apply writes_by_recalc_loop.
Qed.

Lemma writes_by_recalc_adminCalculateAll st :
  aggregates_only_recomputed AdminCalculateAllPoints st.
Proof.
  apply writes_by_recalc_respond.
  apply writes_by_recalc_after; [apply preserves_users_gets|]. intros us.
  apply (writes_by_recalc_then_ret _ (λ _, Json (Z.of_nat (length us)))).
  rewrite (forOf_fmap fst (λ uid, recalcUserTotals uid ;; ret tt)).
  apply writes_by_recalc_loop.
Qed.

Lemma writes_by_recalc_delete {A} (f : Store → Store) (uid : ObjectId) (a : A) :
  (∀ st, users (f st) = users st) →
  writes_by_recalc (modify f ;; recalcUserTotals uid ;; ret a).
Proof.
  intros Hf. apply writes_by_recalc_after; [by apply preserves_users_modify|].
  intros _. apply (writes_by_recalc_then_ret _ (λ _, a)).
  apply writes_by_recalc_recalcUserTotals.
Qed.

Lemma groupsCalculatePoints_users reqUser group actualStandings st :
  users (run (GroupsCalculatePoints reqUser group actualStandings) st) = users st
  ∨ ∃ u id p s,
      users st !! reqUser = Some u ∧ actualStandings = Some s
      ∧ groupPredictions st !! id = Some p
      ∧ GroupPrediction.user p = Some reqUser
      ∧ users (run (GroupsCalculatePoints reqUser group actualStandings) st)
        = <[reqUser := User.set_totalPoints u
              (or0 (User.totalPoints u) - or0 (GroupPrediction.pointsAwarded p)
               + groupPoints p s)]> (users st).
Proof.
  remember (run (GroupsCalculatePoints reqUser group actualStandings) st)
    as st' eqn:Heq.
  unfold run, groupsCalculatePoints, respond in Heq.
  destruct actualStandings as [s|]; [|left; by subst].
  destruct (decide (group = EmptyString)); [left; by subst|].
  unfold bind at 1, gets at 1 in Heq.
  destruct (findOne (groupPredictions st) _) as [[id p]|] eqn:Hfind;
    [|left; by subst].
  unfold bind at 1, save_GroupPrediction in Heq.
  destruct (GroupPrediction.validate _); [|left; by subst].
  unfold modify at 1, bind at 1, gets in Heq. simpl in Heq.
  destruct (users st !! reqUser) as [u|] eqn:Hu; [|left; by subst].
  unfold bind at 1, save_User in Heq.
  change (User.validate (User.set_totalPoints u _)) with (User.validate u)
    in Heq.
  destruct (User.validate u); [|left; by subst].
  right. exists u, id, p, s. split; [done|]. split; [done|].
  unfold findOne in Hfind. apply head_Some_elem_of in Hfind.
  apply find_lookup in Hfind as [Hp [Huser _]].
  split; [done|]. split; [done|]. by subst.
Qed.

(** C3 as stated fails for the calculate-points handler.  Deleting a scored
    match leaves the totals of its predictors stale; the handler then adds
    its delta to the stale total, and the result is neither the total it
    found nor the recomputed one. *)
Lemma calculate_points_writes_totalPoints :
  ¬ aggregates_only_recomputed
      (GroupsCalculatePoints "ana" "a" (Some Sample.standings_first_only))
      (run (DeleteMatch (Id "m1")) Sample.scored_store).
Proof.
  intros [uids H].
  apply (f_equal (λ us : gmap string User.t,
                    User.totalPoints <$> us !! "ana")) in H.
  rewrite recalc_users_lookup in H.
  destruct (decide ("ana" ∈ uids)); vm_compute in H; discriminate.
Qed.

Lemma groupsCalculatePoints_scores reqUser group s st st' body :
  groupsCalculatePoints reqUser group (Some s) st = (st', Json body) →
  ∃ id p, groupPredictions st !! id = Some p
    ∧ GroupPrediction.user p = Some reqUser
    ∧ GroupPrediction.group p = toUpperCase group
    ∧ CalculatePoints.pointsEarned body = groupPoints p s
    ∧ groupPredictions st' !! id
      = Some (GroupPrediction.set_points p (groupPoints p s)).
Proof.
  unfold groupsCalculatePoints, respond.
  destruct (decide (group = EmptyString)); [discriminate|].
  unfold bind at 1, gets at 1.
  destruct (findOne (groupPredictions st) _) as [[id p]|] eqn:Hfind;
    [|discriminate].
  unfold bind at 1, save_GroupPrediction.
  destruct (GroupPrediction.validate _); [|discriminate].
  unfold modify at 1, bind at 1, gets. simpl.
  destruct (users st !! reqUser) as [u|] eqn:Hu; [|discriminate].
  unfold bind at 1, save_User.
  change (User.validate (User.set_totalPoints u _)) with (User.validate u).
  destruct (User.validate u); [|discriminate].
  unfold bind, modify, ret. intros [= <- <-].
  unfold findOne in Hfind. apply head_Some_elem_of in Hfind.
  apply find_lookup in Hfind as [Hp [Huser Hgroup]].
  exists id, p. repeat split; try done. simpl. apply lookup_insert_eq.
Qed.

(** C3, as the code has it.  Every operation but one changes the aggregate
    fields only by recomputing them.  The calculate-points handler writes
    [totalPoints] itself, as the old total minus the points the group
    prediction had plus the points it now earns, and leaves
    [correctMatches] and [correctScores] alone. *)
Theorem aggregate_writers (op : Operation) (st : Store) :
  match op with
  | GroupsCalculatePoints reqUser group actualStandings =>
      users (run op st) = users st
      ∨ ∃ u id p s,
          users st !! reqUser = Some u ∧ actualStandings = Some s
          ∧ groupPredictions st !! id = Some p
          ∧ GroupPrediction.user p = Some reqUser
          ∧ users (run op st)
            = <[reqUser := User.mk (User.username u) (User.email u)
                  (User.status u) (or0 (User.totalPoints u)
                   - or0 (GroupPrediction.pointsAwarded p) + groupPoints p s)
                  (User.correctMatches u) (User.correctScores u)]> (users st)
  | _ => aggregates_only_recomputed op st
  end.
Proof.
  destruct op.
  - unfold aggregates_only_recomputed, run.
    destruct (recalcUserTotals userId st) as [st' o] eqn:Hrun.
    by eapply writes_by_recalc_recalcUserTotals.
  - unfold aggregates_only_recomputed, run.
    destruct (calculateMatchPointsForAllUsers matchId st) as [st' o] eqn:Hrun.
    by eapply writes_by_recalc_calculate.
  - apply writes_by_recalc_respond.
    apply writes_by_recalc_after; [apply preserves_users_castId|]. intros mid.
    apply writes_by_recalc_after; [apply preserves_users_gets|].
    intros [m|]; [|apply writes_by_recalc_preserves, preserves_users_ret].
    apply writes_by_recalc_after; [by apply preserves_users_modify|]. intros _.
    apply (writes_by_recalc_then_ret _
             (λ _, Json (Match.mk (Match.homeTeam m) (Match.awayTeam m)
                           homeScore awayScore (Match.phase m) status))).
    case_decide; [apply writes_by_recalc_calculate|].
    apply writes_by_recalc_preserves, preserves_users_ret.
  - apply writes_by_recalc_adminRecalculate.
  - apply writes_by_recalc_adminCalculateAll.
  - apply groupsCalculatePoints_users.
  - apply writes_by_recalc_respond.
    apply writes_by_recalc_after; [apply preserves_users_castId|]. intros mid.
    apply writes_by_recalc_after; [apply preserves_users_gets|].
    intros [pred|]; [|apply writes_by_recalc_preserves, preserves_users_ret].
    by apply writes_by_recalc_delete.
  - apply writes_by_recalc_respond.
    apply writes_by_recalc_after; [apply preserves_users_gets|].
    intros [pred|]; [|apply writes_by_recalc_preserves, preserves_users_ret].
    by apply writes_by_recalc_delete.
  - apply writes_by_recalc_respond.
    apply writes_by_recalc_after; [apply preserves_users_gets|]. intros pred.
    apply writes_by_recalc_after.
    + destruct pred; [by apply preserves_users_modify|apply preserves_users_ret].
    + intros _. apply (writes_by_recalc_then_ret _ (λ _, Json (snd <$> pred))).
      apply writes_by_recalc_recalcUserTotals.
  - apply writes_by_recalc_respond.
    apply writes_by_recalc_after; [apply preserves_users_gets|]. intros deleted.
    by apply writes_by_recalc_delete.
  - exists []. apply preserves_users_respond. preserves.
Qed.

Example aggregate_writers_sample :
  let stale := run (DeleteMatch (Id "m1")) Sample.scored_store in
  let st := run (GroupsCalculatePoints "ana" "a"
                   (Some Sample.standings_first_only)) stale in
  sum_of_points Sample.scored_store "ana" = 8
  ∧ User.totalPoints <$> users stale !! "ana" = Some 8
  ∧ sum_of_points stale "ana" = 0
  ∧ User.totalPoints <$> users st !! "ana" = Some 13
  ∧ sum_of_points st "ana" = 5.
Proof. repeat split; vm_compute; reflexivity. Qed.

(** * Further properties

    How the operations compose, what they leave alone, and how they answer
    at the edges of their input. *)

(** ** The recomputation reads the predictions only *)

Lemma recomputed_set_users f st uid u :
  recomputed (set_users f st) uid u = recomputed st uid u.
Proof. reflexivity. Qed.

Lemma recomputed_consistent st uid u :
  unique_owner (tournamentPredictions st) →
  User.totalPoints (recomputed st uid u) = sum_of_points st uid
  ∧ User.correctMatches (recomputed st uid u) = count_correct_winner st uid
  ∧ User.correctScores (recomputed st uid u) = count_correct_score st uid.
Proof.
  intros Hu. simpl.
  by rewrite totalPointsOf_sum, correctMatchesOf_count, correctScoresOf_count.
Qed.

(** X1. Recomputing the aggregate of a user a second time changes nothing
    and returns the same document; the recomputation writes the document of
    that user only: every other collection and every other user is as
    before, no user is created and no name is changed. *)
Theorem recalcUserTotals_idempotent (userId : ObjectId) (st : Store) :
  let st1 := (recalcUserTotals userId st).1 in
  recalcUserTotals userId st1 = (st1, (recalcUserTotals userId st).2)
  ∧ teams st1 = teams st ∧ matches st1 = matches st
  ∧ matchPredictions st1 = matchPredictions st
  ∧ groupPredictions st1 = groupPredictions st
  ∧ knockoutPredictions st1 = knockoutPredictions st
  ∧ tournamentPredictions st1 = tournamentPredictions st
  ∧ ∀ k, User.username <$> users st1 !! k = User.username <$> users st !! k
       ∧ (k ≠ userId → users st1 !! k = users st !! k).
Proof.
  intros st1. subst st1. rewrite (recalcUserTotals_unfold userId st).
  destruct (users st !! userId) as [u|] eqn:Hu; simpl.
  - destruct (User.validate u) eqn:Hv; simpl.
    + split.
      * rewrite recalcUserTotals_unfold. simpl. rewrite lookup_insert_eq.
        rewrite validate_recomputed, Hv.
        rewrite recomputed_set_users, recomputed_idemp.
        unfold set_users. simpl. by rewrite insert_insert_eq.
      * repeat split; try reflexivity.
        -- destruct (decide (k = userId)) as [->|Hk].
           ++ by rewrite lookup_insert_eq, Hu.
           ++ by rewrite lookup_insert_ne.
        -- intros Hk. by rewrite lookup_insert_ne.
    + split; [by apply (recalcUserTotals_throws _ _ u)|]. by repeat split.
  - split; [by apply recalcUserTotals_missing|]. by repeat split.
Qed.

(** ** Recomputing every user *)

Lemma find_all {D} (c : gmap string D) : find c (λ _, True) = map_to_list c.
Proof.
  unfold find. induction (map_to_list c) as [|x l IH]; [done|].
  rewrite filter_cons_True by done. by rewrite IH.
Qed.

Lemma valid_user_false st uid :
  valid_user st uid = false →
  ∃ u, users st !! uid = Some u ∧ User.validate u = false.
Proof.
  unfold valid_user. destruct (users st !! uid) as [u|]; [|done]. by exists u.
Qed.

Lemma valid_user_true st uid u :
  valid_user st uid = true → users st !! uid = Some u → User.validate u = true.
Proof. unfold valid_user. intros H Hu. by rewrite Hu in H. Qed.

(** A user document without an address is rejected by [save]: its
    recomputation throws, and the recomputation of all users answers 500. *)
Example user_rejected :
  recalcUserTotals "zoe" Sample.unsaved_store
  = (Sample.unsaved_store, Threw ValidationError)
  ∧ (adminCalculateAllPoints Sample.unsaved_store).2 = Failure 500.
Proof. split; vm_compute; reflexivity. Qed.

(** X2. The admin recomputation of all points answers 200 exactly when
    [save] accepts the document of every user.  It then reports the number
    of users, and leaves the same users, each with an aggregate that is the
    sum and the counts over the predictions stored for that user.  When the
    document of some user is rejected it answers 500. *)
Theorem adminCalculateAllPoints_consistent (st : Store) :
  unique_owner (tournamentPredictions st) →
  match adminCalculateAllPoints st with
  | (st', Json n) =>
      n = Z.of_nat (size (users st))
      ∧ (∀ uid u, users st !! uid = Some u → User.validate u = true)
      ∧ (∀ uid, is_Some (users st' !! uid) ↔ is_Some (users st !! uid))
      ∧ ∀ uid u, users st' !! uid = Some u →
          User.totalPoints u = sum_of_points st' uid
          ∧ User.correctMatches u = count_correct_winner st' uid
          ∧ User.correctScores u = count_correct_score st' uid
  | (st', Failure status) =>
      status = 500
      ∧ ∃ uid u, users st !! uid = Some u ∧ User.validate u = false
  end.
Proof.
  intros Hu. unfold adminCalculateAllPoints, respond.
  unfold bind at 1, gets at 1. rewrite find_all. unfold bind at 1.
  rewrite (forOf_fmap fst (λ uid, recalcUserTotals uid ;; ret tt)).
  assert (Hin : ∀ uid u, users st !! uid = Some u →
            uid ∈ (map_to_list (users st)).*1).
  { intros uid u H. apply list_elem_of_fmap. exists (uid, u).
    split; [done|]. by apply elem_of_map_to_list. }
  destruct (recalc_loop_outcome (map_to_list (users st)).*1 st)
    as [[Hall ->]|(l1 & uid & l2 & _ & _ & Hbad & ->)].
  - unfold ret. split; [by rewrite length_map_to_list|]. split.
    { intros uid u Huid. rewrite Forall_forall in Hall.
      by apply (valid_user_true st uid u); [apply Hall; eapply Hin|]. }
    split.
    + intros uid. simpl. rewrite recalc_users_lookup.
      case_decide; [|done]. by rewrite fmap_is_Some.
    + intros uid u. simpl. rewrite recalc_users_lookup.
      destruct (users st !! uid) as [u0|] eqn:Hu0.
      2: { by case_decide. }
      rewrite decide_True by (by eapply Hin). simpl. intros [= <-].
      exact (recomputed_consistent st uid u0 Hu).
  - split; [done|]. apply valid_user_false in Hbad as (u & Hlook & Hv).
    by exists uid, u.
Qed.

Lemma adminCalculateAllPoints_consistent_witness :
  ∃ st', adminCalculateAllPoints Sample.store = (st', Json 2)
    ∧ User.totalPoints <$> users st' !! "ana" = Some 23
    ∧ sum_of_points st' "ana" = 23.
Proof.
  assert (Hu : unique_owner (tournamentPredictions Sample.store)).
  { apply (bool_decide_unpack _); vm_compute; exact I. }
  pose proof (adminCalculateAllPoints_consistent Sample.store Hu) as H.
  assert (Hrun : ∃ st', adminCalculateAllPoints Sample.store = (st', Json 2))
    by (eexists; vm_compute; reflexivity).
  destruct Hrun as [st' Hrun]. rewrite Hrun in H.
  destruct H as (_ & _ & _ & Hall).
  exists st'. split; [exact Hrun|].
  assert (Hst : st' = (adminCalculateAllPoints Sample.store).1)
    by (by rewrite Hrun).
  assert (Hana : User.totalPoints <$> users st' !! "ana" = Some 23)
    by (rewrite Hst; vm_compute; reflexivity).
  split; [exact Hana|].
  destruct (users st' !! "ana") as [u|] eqn:Hlook; [|discriminate].
  destruct (Hall "ana" u Hlook) as (<- & _). by injection Hana.
Defined.

(** ** Finalization and the aggregates *)

(** X3. When the finalization of a finished match returns, every user who
    predicted that match holds an aggregate equal to the sum and the counts
    over the stored predictions; users who did not predict it, predictions
    of other matches and the other collections are as before. *)
Theorem finalization_consistent (st st1 : Store) (matchId : ObjectId)
    (m : Match.t) :
  unique_owner (tournamentPredictions st) →
  matches st !! matchId = Some m → Match.status m = Finished →
  calculateMatchPointsForAllUsers matchId st = (st1, Returned tt) →
  (∀ id p uid u0,
     matchPredictions st !! id = Some p → MatchPrediction.match_ p = matchId →
     MatchPrediction.user p = Some uid → users st !! uid = Some u0 →
     ∃ u, users st1 !! uid = Some u
       ∧ User.totalPoints u = sum_of_points st1 uid
       ∧ User.correctMatches u = count_correct_winner st1 uid
       ∧ User.correctScores u = count_correct_score st1 uid)
  ∧ (∀ uid,
       (∀ id p, matchPredictions st !! id = Some p →
          MatchPrediction.match_ p = matchId →
          MatchPrediction.user p ≠ Some uid) →
       users st1 !! uid = users st !! uid)
  ∧ (∀ id p, matchPredictions st !! id = Some p →
       MatchPrediction.match_ p ≠ matchId →
       matchPredictions st1 !! id = Some p)
  ∧ matches st1 = matches st
  ∧ groupPredictions st1 = groupPredictions st
  ∧ knockoutPredictions st1 = knockoutPredictions st
  ∧ tournamentPredictions st1 = tournamentPredictions st.
Proof.
  intros Hu Hm Hs Hrun.
  destruct (calculate_success _ _ _ _ Hm Hs Hrun) as (-> & Hall & _).
  pose proof (affectedUserIds_owner st matchId) as Haff.
  repeat split; try reflexivity.
  - intros id p uid u0 Hp Hpm Hpu Hu0.
    exists (recomputed (set_matchPredictions (fmap (rescore m matchId)) st)
              uid u0).
    split.
    + unfold finalized. simpl. rewrite recalc_users_lookup.
      rewrite decide_True; [by rewrite Hu0|]. apply Haff; [done|].
      by exists id, p.
    + exact (recomputed_consistent
               (set_matchPredictions (fmap (rescore m matchId)) st) uid u0 Hu).
  - intros uid Hnone. unfold finalized. simpl. rewrite recalc_users_lookup.
    rewrite decide_False; [done|]. intros Hin.
    apply Haff in Hin as (id & p & Hp & Hpm & Hpu); [|done].
    by apply (Hnone id p).
  - intros id p Hp Hne. unfold finalized. simpl. rewrite lookup_fmap, Hp.
    simpl. unfold rescore. by rewrite decide_False.
Qed.

Lemma finalization_consistent_witness :
  ∃ st1 u, calculateMatchPointsForAllUsers "m1" Sample.store
           = (st1, Returned tt)
    ∧ users st1 !! "bea" = Some u
    ∧ User.totalPoints u = sum_of_points st1 "bea"
    ∧ User.totalPoints u = 3.
Proof.
  assert (Hu : unique_owner (tournamentPredictions Sample.store)).
  { apply (bool_decide_unpack _); vm_compute; exact I. }
  assert (Hrun : ∃ st1, calculateMatchPointsForAllUsers "m1" Sample.store
                        = (st1, Returned tt))
    by (eexists; vm_compute; reflexivity).
  destruct Hrun as [st1 Hrun].
  destruct (finalization_consistent Sample.store st1 "m1" Sample.m1 Hu
              eq_refl eq_refl Hrun) as (Hown & _).
  destruct (Hown "p2" Sample.winner_guess "bea" Sample.bea
              eq_refl eq_refl eq_refl eq_refl) as (u & Hlook & Htot & _).
  exists st1, u. repeat split; [exact Hrun|exact Hlook|exact Htot|].
  assert (Hst : st1 = (calculateMatchPointsForAllUsers "m1" Sample.store).1)
    by (by rewrite Hrun).
  assert (H3 : User.totalPoints <$> users st1 !! "bea" = Some 3)
    by (rewrite Hst; vm_compute; reflexivity).
  rewrite Hlook in H3. by injection H3.
Defined.

(** ** The delta of the calculate-points handler *)

Lemma sumZ_Permutation (l1 l2 : list Z) : l1 ≡ₚ l2 → sumZ l1 = sumZ l2.
Proof.
  induction 1 as [|x l1 l2 _ IH|x y l|l1 l2 l3 _ IH1 _ IH2];
    rewrite ?sumZ_cons; lia.
Qed.

Lemma owned_by_Permutation {D} (owner : D → option ObjectId) uid
    (c : gmap string D) (l : list (string * D)) :
  map_to_list c ≡ₚ l →
  owned_by owner uid c
  ≡ₚ (filter (λ kd : string * D, owner kd.2 = Some uid) l).*2.
Proof. intros H. unfold owned_by. by rewrite H. Qed.

Lemma owned_points_insert {D} (owner : D → option ObjectId) (pts : D → Z) uid
    (c : gmap string D) id p p' :
  c !! id = Some p → owner p = Some uid → owner p' = Some uid →
  sumZ (pts <$> owned_by owner uid (<[id := p']> c))
  = sumZ (pts <$> owned_by owner uid c) - pts p + pts p'.
Proof.
  intros Hp Ho Ho'.
  assert (H1 : map_to_list c ≡ₚ (id, p) :: map_to_list (delete id c)).
  { rewrite <- (insert_delete_id c id p) at 1 by done.
    apply map_to_list_insert, lookup_delete_eq. }
  assert (H2 : map_to_list (<[id := p']> c)
               ≡ₚ (id, p') :: map_to_list (delete id c)).
  { rewrite <- insert_delete_eq. apply map_to_list_insert, lookup_delete_eq. }
  rewrite (sumZ_Permutation _ _
    (fmap_Permutation pts _ _ (owned_by_Permutation owner uid _ _ H1))).
  rewrite (sumZ_Permutation _ _
    (fmap_Permutation pts _ _ (owned_by_Permutation owner uid _ _ H2))).
  rewrite !filter_cons_True by done. rewrite !fmap_cons, !sumZ_cons.
  unfold owned_by. cbn [snd]. lia.
Qed.

(** Two documents that agree on the fields of a unique index are one
    document. *)
Lemma unique_index {D K} (key : D → K) (c : gmap string D) i j p q :
  NoDup (key <$> (map_to_list c).*2) →
  c !! i = Some p → c !! j = Some q → key p = key q → i = j.
Proof.
  intros Hnd Hp Hq Hk.
  apply elem_of_map_to_list, list_elem_of_lookup in Hp as [n1 H1].
  apply elem_of_map_to_list, list_elem_of_lookup in Hq as [n2 H2].
  assert (n1 = n2) as ->.
  { eapply (NoDup_lookup _ _ _ (key p) Hnd).
    - by rewrite !list_lookup_fmap, H1.
    - by rewrite !list_lookup_fmap, H2, Hk. }
  congruence.
Qed.

Lemma findOne_Some {D} (c : gmap string D) (P : D → Prop)
    `{!∀ d, Decision (P d)} k d :
  findOne c P = Some (k, d) → c !! k = Some d ∧ P d.
Proof.
  unfold findOne. intros Hhead. apply head_Some_elem_of in Hhead.
  by apply find_lookup in Hhead.
Qed.

Lemma findOne_None {D} (c : gmap string D) (P : D → Prop)
    `{!∀ d, Decision (P d)} :
  findOne c P = None ↔ ∀ k d, c !! k = Some d → ¬ P d.
Proof.
  unfold findOne. rewrite head_None. split.
  - intros Hnil k d Hk HP.
    assert (Hin : (k, d) ∈ find c P) by by apply find_lookup.
    rewrite Hnil in Hin. by apply elem_of_nil in Hin.
  - intros Hall. destruct (find c P) as [|[k d] l] eqn:Hf; [done|].
    assert (Hin : (k, d) ∈ find c P) by (rewrite Hf; left).
    apply find_lookup in Hin as [Hk HP]. by destruct (Hall k d).
Qed.

(** With a unique index on the fields the filter fixes, [findOne] finds the
    one document that matches. *)
Lemma findOne_unique {D K} (key : D → K) (c : gmap string D) (P : D → Prop)
    `{!∀ d, Decision (P d)} k d :
  NoDup (key <$> (map_to_list c).*2) →
  (∀ d1 d2, P d1 → P d2 → key d1 = key d2) →
  c !! k = Some d → P d → findOne c P = Some (k, d).
Proof.
  intros Hnd Hkey Hk HP.
  destruct (findOne c P) as [[k' d']|] eqn:Hf.
  - apply findOne_Some in Hf as [Hk' HP'].
    assert (k' = k) as -> by (eapply (unique_index key); eauto).
    congruence.
  - rewrite findOne_None in Hf. by destruct (Hf k d).
Qed.

Lemma groupsCalculatePoints_json reqUser group s st st' body :
  groupsCalculatePoints reqUser group (Some s) st = (st', Json body) →
  ∃ id p u,
    findOne (groupPredictions st)
      (λ p, GroupPrediction.user p = Some reqUser
            ∧ GroupPrediction.group p = toUpperCase group) = Some (id, p)
    ∧ GroupPrediction.validate p = true
    ∧ users st !! reqUser = Some u ∧ User.validate u = true
    ∧ st' = set_users
              <[reqUser := User.set_totalPoints u
                  (User.totalPoints u - GroupPrediction.pointsAwarded p
                   + groupPoints p s)]>
              (set_groupPredictions
                 <[id := GroupPrediction.set_points p (groupPoints p s)]> st)
    ∧ body = CalculatePoints.mk (toUpperCase group) (groupPoints p s)
               (GroupPrediction.pointsAwarded p)
               (User.totalPoints u - GroupPrediction.pointsAwarded p
                + groupPoints p s).
Proof.
  unfold groupsCalculatePoints, respond.
  destruct (decide (group = EmptyString)); [discriminate|].
  unfold bind at 1, gets at 1.
  destruct (findOne (groupPredictions st) _) as [[id p]|] eqn:Hfind;
    [|discriminate].
  unfold bind at 1, save_GroupPrediction.
  destruct (GroupPrediction.validate _) eqn:Hv; [|discriminate].
  unfold modify at 1, bind at 1, gets. simpl.
  destruct (users st !! reqUser) as [u|] eqn:Hu; [|discriminate].
  unfold bind at 1, save_User.
  change (User.validate (User.set_totalPoints u _)) with (User.validate u).
  destruct (User.validate u) eqn:Hvu; [|discriminate].
  unfold bind, modify, ret. rewrite !or0_id. intros [= <- <-].
  by exists id, p, u.
Qed.

Lemma groupsCalculatePoints_returns reqUser group s st id p u :
  group ≠ EmptyString →
  findOne (groupPredictions st)
    (λ p, GroupPrediction.user p = Some reqUser
          ∧ GroupPrediction.group p = toUpperCase group) = Some (id, p) →
  GroupPrediction.validate p = true →
  users st !! reqUser = Some u → User.validate u = true →
  groupsCalculatePoints reqUser group (Some s) st
  = (set_users
       <[reqUser := User.set_totalPoints u
           (User.totalPoints u - GroupPrediction.pointsAwarded p
            + groupPoints p s)]>
       (set_groupPredictions
          <[id := GroupPrediction.set_points p (groupPoints p s)]> st),
     Json (CalculatePoints.mk (toUpperCase group) (groupPoints p s)
             (GroupPrediction.pointsAwarded p)
             (User.totalPoints u - GroupPrediction.pointsAwarded p
              + groupPoints p s))).
Proof.
  intros Hg Hfind Hv Hu Hvu. unfold groupsCalculatePoints, respond.
  rewrite decide_False by done. unfold bind at 1, gets at 1. rewrite Hfind.
  unfold bind at 1, save_GroupPrediction.
  change (GroupPrediction.validate (GroupPrediction.set_points p _))
    with (GroupPrediction.validate p). rewrite Hv.
  unfold modify at 1, bind at 1, gets. simpl. rewrite Hu.
  unfold bind at 1, save_User.
  change (User.validate (User.set_totalPoints u _)) with (User.validate u).
  rewrite Hvu. unfold bind, modify, ret. by rewrite !or0_id.
Qed.

(** X4. The calculate-points handler does not count a group twice: called
    again with the same standings it reports the points already awarded as
    the previous points, and leaves the prediction, the user's total and the
    rest of the store exactly as the first call left them. *)
Theorem groupsCalculatePoints_twice (reqUser : ObjectId) (group : string)
    (s : Standings.t) (st st1 : Store) (body : CalculatePoints.t) :
  unique_user_group (groupPredictions st) →
  groupsCalculatePoints reqUser group (Some s) st = (st1, Json body) →
  groupsCalculatePoints reqUser group (Some s) st1
  = (st1, Json (CalculatePoints.mk (CalculatePoints.group body)
                  (CalculatePoints.pointsEarned body)
                  (CalculatePoints.pointsEarned body)
                  (CalculatePoints.totalPoints body))).
Proof.
  intros Hnd Hrun.
  assert (Hg : group ≠ EmptyString).
  { intros ->. unfold groupsCalculatePoints, respond in Hrun. simpl in Hrun.
    discriminate. }
  apply groupsCalculatePoints_json in Hrun
    as (id & p & u & Hfind & Hv & Hu & Hvu & -> & ->).
  pose proof (findOne_Some _ _ _ _ Hfind) as [Hp [Hpu Hpg]].
  set (p' := GroupPrediction.set_points p (groupPoints p s)).
  set (T := User.totalPoints u - GroupPrediction.pointsAwarded p
            + groupPoints p s).
  assert (Hfind' :
    findOne (<[id := p']> (groupPredictions st))
      (λ p, GroupPrediction.user p = Some reqUser
            ∧ GroupPrediction.group p = toUpperCase group) = Some (id, p')).
  { destruct (findOne (<[id := p']> (groupPredictions st)) _)
      as [[k d]|] eqn:Hf.
    - apply findOne_Some in Hf as [Hk [Hdu Hdg]].
      destruct (decide (k = id)) as [->|Hne].
      + rewrite lookup_insert_eq in Hk. congruence.
      + rewrite lookup_insert_ne in Hk by done. exfalso. apply Hne.
        eapply (unique_index _ _ _ _ _ _ Hnd Hk Hp). simpl. congruence.
    - rewrite findOne_None in Hf. destruct (Hf id p'); [apply lookup_insert_eq|].
      done. }
  rewrite (groupsCalculatePoints_returns reqUser group s _ id p'
             (User.set_totalPoints u T)); try done.
  2: { simpl. apply lookup_insert_eq. }
  simpl. f_equal.
  - unfold set_users, set_groupPredictions. simpl.
    rewrite !insert_insert_eq.
    change (groupPoints p' s) with (groupPoints p s).
    replace (T - groupPoints p s + groupPoints p s) with T by lia.
    reflexivity.
  - change (groupPoints p' s) with (groupPoints p s).
    replace (T - groupPoints p s + groupPoints p s) with T by lia.
    reflexivity.
Qed.

Lemma groupsCalculatePoints_twice_witness :
  ∃ st1 body,
    groupsCalculatePoints "ana" "a" (Some Sample.standings_first_only)
      Sample.scored_store = (st1, Json body)
    ∧ groupsCalculatePoints "ana" "a" (Some Sample.standings_first_only) st1
      = (st1, Json (CalculatePoints.mk "A" 5 5 13)).
Proof.
  assert (Hnd : unique_user_group (groupPredictions Sample.scored_store)).
  { apply (bool_decide_unpack _); vm_compute; exact I. }
  assert (Hrun : ∃ st1,
    groupsCalculatePoints "ana" "a" (Some Sample.standings_first_only)
      Sample.scored_store = (st1, Json (CalculatePoints.mk "A" 5 0 13)))
    by (eexists; vm_compute; reflexivity).
  destruct Hrun as [st1 Hrun]. exists st1, (CalculatePoints.mk "A" 5 0 13).
  split; [exact Hrun|].
  exact (groupsCalculatePoints_twice "ana" "a" Sample.standings_first_only
           Sample.scored_store st1 _ Hnd Hrun).
Defined.

(** X5. The delta keeps a consistent total consistent: when the user's
    [totalPoints] is the sum of the stored points before the call, it is the
    sum of the stored points after it, and it is the total the answer
    reports. *)
Theorem groupsCalculatePoints_keeps_total (reqUser : ObjectId)
    (group : string) (s : Standings.t) (st st1 : Store)
    (body : CalculatePoints.t) :
  (∀ u, users st !! reqUser = Some u →
        User.totalPoints u = sum_of_points st reqUser) →
  groupsCalculatePoints reqUser group (Some s) st = (st1, Json body) →
  ∃ u1, users st1 !! reqUser = Some u1
    ∧ User.totalPoints u1 = sum_of_points st1 reqUser
    ∧ CalculatePoints.totalPoints body = User.totalPoints u1
    ∧ CalculatePoints.totalPoints body
      = sum_of_points st reqUser - CalculatePoints.previousPoints body
        + CalculatePoints.pointsEarned body.
Proof.
  intros Hcons Hrun.
  apply groupsCalculatePoints_json in Hrun
    as (id & p & u & Hfind & Hv & Hu & Hvu & -> & ->).
  pose proof (findOne_Some _ _ _ _ Hfind) as [Hp [Hpu Hpg]].
  eexists. split; [apply lookup_insert_eq|]. simpl.
  rewrite (Hcons u Hu). unfold sum_of_points. simpl.
  rewrite (owned_points_insert GroupPrediction.user
             GroupPrediction.pointsAwarded reqUser _ id p) by done.
  simpl. repeat split; lia.
Qed.

Lemma groupsCalculatePoints_keeps_total_witness :
  ∃ st1 u1,
    (groupsCalculatePoints "ana" "a" (Some Sample.standings_first_only)
       Sample.scored_store).1 = st1
    ∧ users st1 !! "ana" = Some u1
    ∧ User.totalPoints u1 = sum_of_points st1 "ana"
    ∧ User.totalPoints u1 = 13.
Proof.
  assert (Hcons : ∀ u, users Sample.scored_store !! "ana" = Some u →
            User.totalPoints u = sum_of_points Sample.scored_store "ana").
  { intros u Hu. vm_compute in Hu. injection Hu as <-. vm_compute.
    reflexivity. }
  assert (Hrun : ∃ st1,
    groupsCalculatePoints "ana" "a" (Some Sample.standings_first_only)
      Sample.scored_store = (st1, Json (CalculatePoints.mk "A" 5 0 13)))
    by (eexists; vm_compute; reflexivity).
  destruct Hrun as [st1 Hrun].
  destruct (groupsCalculatePoints_keeps_total "ana" "a"
              Sample.standings_first_only Sample.scored_store st1 _ Hcons Hrun)
    as (u1 & Hlook & Hsum & Hbody & _).
  exists st1, u1. split; [by rewrite Hrun|]. split; [exact Hlook|].
  split; [exact Hsum|]. by rewrite <- Hbody.
Defined.

(** ** Group codes *)

Lemma upper_char_idemp c : upper_char (upper_char c) = upper_char c.
Proof. destruct c as [[] [] [] [] [] [] [] []]; vm_compute; reflexivity. Qed.

Lemma toUpperCase_idemp s : toUpperCase (toUpperCase s) = toUpperCase s.
Proof. induction s as [|c s IH]; simpl; [done|]. by rewrite upper_char_idemp, IH. Qed.

Lemma toUpperCase_empty s : toUpperCase s = EmptyString ↔ s = EmptyString.
Proof. destruct s; simpl; split; congruence. Qed.

(** X6. The group handlers read the group code without regard to case: a
    request that names the group in lower case is answered, and changes the
    store, exactly as the request that names it in upper case. *)
Theorem group_code_case_insensitive (reqUser : ObjectId) (group : string)
    (actualStandings : option Standings.t) (st : Store) :
  groupsCalculatePoints reqUser (toUpperCase group) actualStandings st
  = groupsCalculatePoints reqUser group actualStandings st
  ∧ deleteGroupPrediction reqUser (toUpperCase group) st
    = deleteGroupPrediction reqUser group st.
Proof.
  split.
  - unfold groupsCalculatePoints. destruct actualStandings as [s|]; [|done].
    destruct (decide (group = EmptyString)) as [->|Hg]; [done|].
    rewrite decide_False by (by rewrite toUpperCase_empty).
    by rewrite toUpperCase_idemp.
  - unfold deleteGroupPrediction. by rewrite toUpperCase_idemp.
Qed.

(** ** Deleting predictions *)

Lemma recalcUserTotals_consistent_after uid st :
  unique_owner (tournamentPredictions st) → valid_user st uid = true →
  aggregate_consistent (recalcUserTotals uid st).1 uid.
Proof.
  intros Hu Hv u. rewrite recalcUserTotals_unfold. unfold valid_user in Hv.
  destruct (users st !! uid) as [u0|] eqn:Hu0; simpl.
  - rewrite Hv. simpl. rewrite lookup_insert_eq. intros [= <-].
    exact (recomputed_consistent st uid u0 Hu).
  - by rewrite Hu0.
Qed.

Lemma respond_gets {A B} (f : Store → A) (k : A → M (Response B)) st :
  respond (bind (gets f) k) st = respond (k (f st)) st.
Proof. reflexivity. Qed.

Lemma respond_castId {B} (id : IdParam) (k : ObjectId → M (Response B)) st :
  respond (bind (castId id) k) st
  = match id with
    | Id oid => respond (k oid) st
    | NotAnId => (st, Failure 500)
    end.
Proof. by destruct id. Qed.

(** A deletion followed by the recomputation: when [save] rejects the
    document of the user, the deletion stays and the answer is 500. *)
Lemma respond_delete {A} (f : Store → Store) uid (a : A) st :
  respond (modify f ;; recalcUserTotals uid ;; ret (Json a)) st
  = if valid_user (f st) uid
    then ((recalcUserTotals uid (f st)).1, Json a)
    else (f st, Failure 500).
Proof.
  unfold respond, bind, modify, valid_user. rewrite recalcUserTotals_unfold.
  destruct (users (f st) !! uid) as [u|]; [|done].
  by destruct (User.validate u).
Qed.

Lemma recalcUserTotals_predictions uid st :
  matchPredictions (recalcUserTotals uid st).1 = matchPredictions st
  ∧ groupPredictions (recalcUserTotals uid st).1 = groupPredictions st
  ∧ knockoutPredictions (recalcUserTotals uid st).1 = knockoutPredictions st
  ∧ tournamentPredictions (recalcUserTotals uid st).1
    = tournamentPredictions st.
Proof.
  rewrite recalcUserTotals_unfold. destruct (users st !! uid) as [u|]; [|done].
  by destruct (User.validate u).
Qed.

(** X7. Deleting one's match or group prediction.  When no such prediction
    is stored the answer is 404 and nothing changes; a match id that is no
    ObjectId is answered 500, nothing changed.  Otherwise exactly that
    document is removed; the aggregate is recomputed afterwards, and when
    the answer is 200 the user's totals are the sum and the counts over
    what is left.  When [save] rejects the document of the user the
    prediction is gone nevertheless and the answer is 500.  The group code
    is a string of ASCII characters. *)
Theorem delete_prediction_recomputes (reqUser : ObjectId) (st : Store) :
  unique_owner (tournamentPredictions st) →
  (∀ matchId,
     match deleteMatchPrediction reqUser matchId st with
     | (st', Json pred) =>
         (∃ mid id, matchId = Id mid
            ∧ matchPredictions st !! id = Some pred
            ∧ MatchPrediction.user pred = Some reqUser
            ∧ MatchPrediction.match_ pred = mid
            ∧ matchPredictions st' = delete id (matchPredictions st))
         ∧ valid_user st reqUser = true
         ∧ aggregate_consistent st' reqUser
     | (st', Failure status) =>
         (status = 404 ∧ st' = st
          ∧ ∃ mid, matchId = Id mid
              ∧ ∀ id p, matchPredictions st !! id = Some p →
                  ¬ (MatchPrediction.user p = Some reqUser
                     ∧ MatchPrediction.match_ p = mid))
         ∨ (status = 500 ∧ st' = st ∧ matchId = NotAnId)
         ∨ (status = 500 ∧ valid_user st reqUser = false
            ∧ ∃ mid id pred, matchId = Id mid
                ∧ matchPredictions st !! id = Some pred
                ∧ MatchPrediction.user pred = Some reqUser
                ∧ MatchPrediction.match_ pred = mid
                ∧ st' = set_matchPredictions (delete id) st)
     end)
  ∧ (∀ group, ascii_only group = true →
       match deleteGroupPrediction reqUser group st with
       | (st', Json pred) =>
           (∃ id, groupPredictions st !! id = Some pred
              ∧ GroupPrediction.user pred = Some reqUser
              ∧ GroupPrediction.group pred = toUpperCase group
              ∧ groupPredictions st' = delete id (groupPredictions st))
           ∧ valid_user st reqUser = true
           ∧ aggregate_consistent st' reqUser
       | (st', Failure status) =>
           (status = 404 ∧ st' = st
            ∧ ∀ id p, groupPredictions st !! id = Some p →
                ¬ (GroupPrediction.user p = Some reqUser
                   ∧ GroupPrediction.group p = toUpperCase group))
           ∨ (status = 500 ∧ valid_user st reqUser = false
              ∧ ∃ id pred, groupPredictions st !! id = Some pred
                  ∧ GroupPrediction.user pred = Some reqUser
                  ∧ GroupPrediction.group pred = toUpperCase group
                  ∧ st' = set_groupPredictions (delete id) st)
       end).
Proof.
  intros Hu. split.
  - intros matchId. unfold deleteMatchPrediction. rewrite respond_castId.
    destruct matchId as [mid|]; [|by right; left].
    rewrite respond_gets. cbv beta.
    destruct (findOne _ _) as [[id pred]|] eqn:Hfind.
    + rewrite respond_delete. cbn [fst snd].
      apply findOne_Some in Hfind as [Hp [Hpu Hpm]].
      change (valid_user (set_matchPredictions (delete id) st) reqUser)
        with (valid_user st reqUser).
      destruct (valid_user st reqUser) eqn:Hv.
      * split; [|split; [done|]].
        -- exists mid, id. repeat split; try done.
           by destruct (recalcUserTotals_predictions reqUser
                          (set_matchPredictions (delete id) st)) as [-> _].
        -- by apply recalcUserTotals_consistent_after.
      * right. right. split; [done|]. split; [done|]. by exists mid, id, pred.
    + unfold respond, ret. left. split; [done|]. split; [done|].
      exists mid. split; [done|]. rewrite findOne_None in Hfind. exact Hfind.
  - intros group _. unfold deleteGroupPrediction. cbv zeta.
    rewrite respond_gets. cbv beta.
    destruct (findOne _ _) as [[id pred]|] eqn:Hfind.
    + rewrite respond_delete. cbn [fst snd].
      apply findOne_Some in Hfind as [Hp [Hpu Hpm]].
      change (valid_user (set_groupPredictions (delete id) st) reqUser)
        with (valid_user st reqUser).
      destruct (valid_user st reqUser) eqn:Hv.
      * split; [|split; [done|]].
        -- exists id. repeat split; try done.
           by destruct (recalcUserTotals_predictions reqUser
                          (set_groupPredictions (delete id) st))
             as (_ & -> & _).
        -- by apply recalcUserTotals_consistent_after.
      * right. split; [done|]. split; [done|]. by exists id, pred.
    + unfold respond, ret. left. split; [done|]. split; [done|].
      rewrite findOne_None in Hfind. exact Hfind.
Qed.

Lemma delete_prediction_recomputes_witness :
  ∃ st', deleteMatchPrediction "ana" (Id "m1") Sample.scored_store
         = (st', Json (MatchPrediction.set_score Sample.exact_guess 8 true true))
    ∧ aggregate_consistent st' "ana"
    ∧ User.totalPoints <$> users st' !! "ana" = Some 0.
Proof.
  assert (Hu : unique_owner (tournamentPredictions Sample.scored_store)).
  { apply (bool_decide_unpack _); vm_compute; exact I. }
  pose proof (proj1 (delete_prediction_recomputes "ana" Sample.scored_store Hu)
                (Id "m1")) as H.
  assert (Hrun : ∃ st', deleteMatchPrediction "ana" (Id "m1") Sample.scored_store
     = (st', Json (MatchPrediction.set_score Sample.exact_guess 8 true true)))
    by (eexists; vm_compute; reflexivity).
  destruct Hrun as [st' Hrun]. rewrite Hrun in H. destruct H as (_ & _ & Hc).
  exists st'. split; [exact Hrun|]. split; [exact Hc|].
  assert (Hst : st' = (deleteMatchPrediction "ana" (Id "m1")
                         Sample.scored_store).1)
    by (by rewrite Hrun).
  rewrite Hst. vm_compute. reflexivity.
Defined.

Lemma unique_owner_delete (c : gmap string TournamentPrediction.t) id :
  unique_owner c → unique_owner (delete id c).
Proof.
  unfold unique_owner. intros Hnd.
  destruct (c !! id) as [p|] eqn:Hp; [|by rewrite delete_id].
  assert (H1 : map_to_list c ≡ₚ (id, p) :: map_to_list (delete id c)).
  { rewrite <- (insert_delete_id c id p) at 1 by done.
    apply map_to_list_insert, lookup_delete_eq. }
  rewrite H1 in Hnd. rewrite !fmap_cons in Hnd. by apply NoDup_cons in Hnd as [_ ?].
Qed.

(** X8. Deleting one's tournament prediction or all of one's knockout
    predictions leaves none of them behind, whatever the answer.  The
    aggregate is recomputed afterwards: the answer is 200, the knockout
    answer carrying the number removed, and the user's totals are the sum
    and the counts over what is left, unless [save] rejects the document of
    the user; then the answer is 500 and the totals are as they were. *)
Theorem delete_all_recomputes (reqUser : ObjectId) (st : Store) :
  unique_owner (tournamentPredictions st) →
  (∀ id p,
     tournamentPredictions (deleteTournamentPrediction reqUser st).1 !! id
     = Some p → TournamentPrediction.user p ≠ Some reqUser)
  ∧ match deleteTournamentPrediction reqUser st with
    | (st', Json pred) =>
        pred = snd <$> findOne (tournamentPredictions st)
                         (λ p, TournamentPrediction.user p = Some reqUser)
        ∧ valid_user st reqUser = true
        ∧ aggregate_consistent st' reqUser
    | (st', Failure status) =>
        status = 500 ∧ valid_user st reqUser = false ∧ users st' = users st
    end
  ∧ (∀ id p,
       knockoutPredictions (deleteKnockoutPredictions reqUser st).1 !! id
       = Some p
       ↔ knockoutPredictions st !! id = Some p
         ∧ KnockoutPrediction.user p ≠ Some reqUser)
  ∧ match deleteKnockoutPredictions reqUser st with
    | (st', Json deleted) =>
        deleted = Z.of_nat (length (owned_by KnockoutPrediction.user reqUser
                                      (knockoutPredictions st)))
        ∧ valid_user st reqUser = true
        ∧ aggregate_consistent st' reqUser
    | (st', Failure status) =>
        status = 500 ∧ valid_user st reqUser = false ∧ users st' = users st
    end.
Proof.
  intros Hu.
  assert (Ht : deleteTournamentPrediction reqUser st
    = let f := match findOne (tournamentPredictions st)
                       (λ p, TournamentPrediction.user p = Some reqUser) with
               | Some pred => set_tournamentPredictions (delete pred.1)
               | None => λ st, st
               end in
      if valid_user st reqUser
      then ((recalcUserTotals reqUser (f st)).1,
            Json (snd <$> findOne (tournamentPredictions st)
                            (λ p, TournamentPrediction.user p = Some reqUser)))
      else (f st, Failure 500)).
  { unfold deleteTournamentPrediction. rewrite respond_gets. cbv beta.
    destruct (findOne _ _) as [[id pred]|]; cbv zeta.
    - by rewrite respond_delete.
    - by rewrite <- (respond_delete (λ st, st)). }
  assert (Hk : deleteKnockoutPredictions reqUser st
    = let f := set_knockoutPredictions
                 (filter (λ kp : ObjectId * KnockoutPrediction.t,
                            KnockoutPrediction.user kp.2 ≠ Some reqUser)) in
      if valid_user st reqUser
      then ((recalcUserTotals reqUser (f st)).1,
            Json (countDocuments (knockoutPredictions st)
                    (λ p, KnockoutPrediction.user p = Some reqUser)))
      else (f st, Failure 500)).
  { unfold deleteKnockoutPredictions. rewrite respond_gets. cbv beta.
    by rewrite respond_delete. }
  rewrite Ht, Hk. clear Ht Hk. cbv zeta.
  assert (Hgone : ∀ id p,
    tournamentPredictions
      (match findOne (tournamentPredictions st)
               (λ p, TournamentPrediction.user p = Some reqUser) with
       | Some pred => set_tournamentPredictions (delete pred.1)
       | None => λ st, st
       end st) !! id = Some p →
    TournamentPrediction.user p ≠ Some reqUser).
  { intros k q. destruct (findOne _ _) as [[id pred]|] eqn:Hfind.
    - apply findOne_Some in Hfind as [Hp Hpu]. simpl.
      intros Hq Hqu. apply lookup_delete_Some in Hq as [Hne Hq].
      apply Hne. symmetry.
      eapply (unique_index _ _ _ _ _ _ Hu Hq Hp). congruence.
    - rewrite findOne_None in Hfind. intros Hq. by apply (Hfind k q). }
  assert (Hu' : unique_owner (tournamentPredictions
      (match findOne (tournamentPredictions st)
               (λ p, TournamentPrediction.user p = Some reqUser) with
       | Some pred => set_tournamentPredictions (delete pred.1)
       | None => λ st, st
       end st))).
  { destruct (findOne _ _) as [[id pred]|]; [|done].
    by apply unique_owner_delete. }
  assert (Hv' : ∀ f : Store → Store, (∀ st, users (f st) = users st) →
            valid_user (f st) reqUser = valid_user st reqUser).
  { intros f Hf. unfold valid_user. by rewrite Hf. }
  destruct (valid_user st reqUser) eqn:Hv; cbn [fst snd].
  - split; [|split; [|split]].
    + intros id p.
      destruct (recalcUserTotals_predictions reqUser
        (match findOne (tournamentPredictions st)
                 (λ p, TournamentPrediction.user p = Some reqUser) with
         | Some pred => set_tournamentPredictions (delete pred.1)
         | None => λ st, st
         end st)) as (_ & _ & _ & ->). apply Hgone.
    + split; [done|]. split; [done|].
      apply recalcUserTotals_consistent_after; [done|].
      rewrite Hv'; [done|]. intros st0. by destruct (findOne _ _).
    + intros id p.
      destruct (recalcUserTotals_predictions reqUser
        (set_knockoutPredictions
           (filter (λ kp : ObjectId * KnockoutPrediction.t,
                      KnockoutPrediction.user kp.2 ≠ Some reqUser)) st))
        as (_ & _ & -> & _). simpl. by rewrite map_lookup_filter_Some.
    + split.
      { unfold countDocuments, owned_by, find. by rewrite length_fmap. }
      split; [done|]. by apply recalcUserTotals_consistent_after.
  - split; [exact Hgone|]. split.
    { split; [done|]. split; [done|]. by destruct (findOne _ _). }
    split; [|done].
    intros id p. simpl. by rewrite map_lookup_filter_Some.
Qed.

Lemma delete_all_recomputes_witness :
  ∃ st', deleteKnockoutPredictions "ana" Sample.store = (st', Json 1)
    ∧ aggregate_consistent st' "ana"
    ∧ User.totalPoints <$> users st' !! "ana" = Some 13.
Proof.
  assert (Hu : unique_owner (tournamentPredictions Sample.store)).
  { apply (bool_decide_unpack _); vm_compute; exact I. }
  destruct (delete_all_recomputes "ana" Sample.store Hu) as (_ & _ & _ & H).
  assert (Hrun : ∃ st', deleteKnockoutPredictions "ana" Sample.store
                        = (st', Json 1))
    by (eexists; vm_compute; reflexivity).
  destruct Hrun as [st' Hrun]. rewrite Hrun in H. destruct H as (_ & _ & Hc).
  exists st'. split; [exact Hrun|]. split; [exact Hc|].
  assert (Hst : st' = (deleteKnockoutPredictions "ana" Sample.store).1)
    by (by rewrite Hrun).
  rewrite Hst. vm_compute. reflexivity.
Defined.

(** A path parameter that is no ObjectId is answered 500. *)
Example not_an_id_rejected :
  deleteMatch NotAnId Sample.store = (Sample.store, Failure 500)
  ∧ deleteMatch (Id "m9") Sample.store = (Sample.store, Failure 404)
  ∧ deleteMatchPrediction "ana" NotAnId Sample.store
    = (Sample.store, Failure 500)
  ∧ adminUpdateMatch NotAnId (Some 1) (Some 0) Finished Sample.store
    = (Sample.store, Failure 500).
Proof. repeat split. Qed.

(** X9. Deleting a match leaves no reference to it: the match is gone, so
    is every match prediction made for it, and no knockout prediction links
    to it any more, each keeping its other fields.  Users, group and
    tournament predictions are untouched.  An id that names no match is
    answered 404 and an id that is no ObjectId 500, with nothing changed. *)
Theorem deleteMatch_no_dangling (param : IdParam) (st : Store) :
  match deleteMatch param st with
  | (st', Json m) =>
      ∃ id, param = Id id
      ∧ matches st !! id = Some m
      ∧ matches st' = delete id (matches st)
      ∧ (∀ k p, matchPredictions st' !! k = Some p
           ↔ matchPredictions st !! k = Some p ∧ MatchPrediction.match_ p ≠ id)
      ∧ (∀ k p, knockoutPredictions st' !! k = Some p →
           KnockoutPrediction.match_ p ≠ Some id
           ∧ ∃ p0, knockoutPredictions st !! k = Some p0
               ∧ KnockoutPrediction.user p = KnockoutPrediction.user p0
               ∧ KnockoutPrediction.stage p = KnockoutPrediction.stage p0
               ∧ KnockoutPrediction.matchOrder p
                 = KnockoutPrediction.matchOrder p0
               ∧ KnockoutPrediction.predictedWinnerTeam p
                 = KnockoutPrediction.predictedWinnerTeam p0
               ∧ KnockoutPrediction.pointsAwarded p
                 = KnockoutPrediction.pointsAwarded p0
               ∧ (KnockoutPrediction.match_ p0 ≠ Some id → p = p0))
      ∧ (∀ k, is_Some (knockoutPredictions st' !! k)
              ↔ is_Some (knockoutPredictions st !! k))
      ∧ users st' = users st
      ∧ teams st' = teams st
      ∧ groupPredictions st' = groupPredictions st
      ∧ tournamentPredictions st' = tournamentPredictions st
  | (st', Failure status) =>
      st' = st
      ∧ match param with
        | Id id => status = 404 ∧ matches st !! id = None
        | NotAnId => status = 500
        end
  end.
Proof.
  unfold deleteMatch. rewrite respond_castId.
  destruct param as [id|]; [|done].
  rewrite respond_gets. cbv beta.
  destruct (matches st !! id) as [m|] eqn:Hm; [|done].
  unfold respond, bind, modify, ret. simpl. exists id.
  split; [done|]. split; [done|]. split; [done|]. split.
  { intros k p. by rewrite map_lookup_filter_Some. }
  split.
  { intros k p Hk. rewrite lookup_fmap in Hk.
    destruct (knockoutPredictions st !! k) as [p0|]; [|done].
    simpl in Hk. injection Hk as <-. split.
    - case_decide; simpl; congruence.
    - exists p0. case_decide; simpl; repeat split; done. }
  split.
  { intros k. by rewrite lookup_fmap, fmap_is_Some. }
  done.
Qed.

(** ** What no operation does *)

Section keeps.
Context (R : relation Store) `{!PreOrder R}.

Lemma keeps_ret {A} (a : A) : keeps R (ret a).
Proof. intros st st' o [= <- _]. reflexivity. Qed.

Lemma keeps_throw {A} e : keeps R (@throw A e).
Proof. intros st st' o [= <- _]. reflexivity. Qed.

Lemma keeps_gets {A} (f : Store → A) : keeps R (gets f).
Proof. intros st st' o [= <- _]. reflexivity. Qed.

Lemma keeps_castId id : keeps R (castId id).
Proof. intros st st' o. destruct id; intros [= <- _]; reflexivity. Qed.

Lemma keeps_modify (f : Store → Store) :
  (∀ st, R st (f st)) → keeps R (modify f).
Proof. intros Hf st st' o [= <- _]. apply Hf. Qed.

Lemma keeps_bind {A B} (m : M A) (k : A → M B) :
  keeps R m → (∀ a, keeps R (k a)) → keeps R (bind m k).
Proof.
  intros Hm Hk st st' o. unfold bind.
  destruct (m st) as [st1 [a|e]] eqn:Hrun.
  - intros Hrun'. etrans; [by eapply Hm|by eapply Hk].
  - intros [= <- _]. by eapply Hm.
Qed.

Lemma keeps_forOf {A} (body : A → M unit) (l : list A) :
  (∀ a, keeps R (body a)) → keeps R (forOf body l).
Proof.
  intros Hb. induction l as [|x l IH]; simpl.
  - apply keeps_ret.
  - apply keeps_bind; [apply Hb|intros _; apply IH].
Qed.

Lemma keeps_foldOf {A B} (body : B → A → M B) (l : list A) acc :
  (∀ b a, keeps R (body b a)) → keeps R (foldOf body acc l).
Proof.
  intros Hb. revert acc. induction l as [|x l IH]; intros acc; simpl.
  - apply keeps_ret.
  - apply keeps_bind; [apply Hb|intros b; apply IH].
Qed.

Lemma keeps_respond {A} (m : M (Response A)) st :
  keeps R m → R st (respond m st).1.
Proof.
  intros Hm. unfold respond. destruct (m st) as [st' [r|e]] eqn:Hrun; simpl;
    by eapply Hm.
Qed.
End keeps.

Ltac keeps_step :=
  lazymatch goal with
  | |- PreOrder _ => apply _
  | |- keeps _ (ret _) => apply keeps_ret
  | |- keeps _ (throw _) => apply keeps_throw
  | |- keeps _ (gets _) => apply keeps_gets
  | |- keeps _ (castId _) => apply keeps_castId
  | |- keeps _ (bind _ _) => apply keeps_bind; [| |intros ?]
  | |- keeps _ (forOf _ _) => apply keeps_forOf; [|intros ?]
  | |- keeps _ (foldOf _ _ _) => apply keeps_foldOf; [|intros ? ?]
  | |- keeps _ (match _ with _ => _ end) => case_match
  end.

Global Instance knockout_points_kept_preorder : PreOrder knockout_points_kept.
Proof.
  split.
  - intros st id p Hp. by exists p.
  - intros st1 st2 st3 H12 H23 id p3 Hp3.
    destruct (H23 id p3 Hp3) as (p2 & Hp2 & ? & ? & ? & ? & ?).
    destruct (H12 id p2 Hp2) as (p1 & Hp1 & ? & ? & ? & ? & ?).
    exists p1. repeat split; congruence.
Qed.

Lemma knockout_points_kept_same st st' :
  knockoutPredictions st' = knockoutPredictions st →
  knockout_points_kept st st'.
Proof. intros H id p Hp. exists p. by rewrite <- H. Qed.

Lemma knockout_kept_recalcUserTotals uid :
  keeps knockout_points_kept (recalcUserTotals uid).
Proof.
  intros st st' o Hrun. apply knockout_points_kept_same.
  assert (Hst : st' = (recalcUserTotals uid st).1) by (by rewrite Hrun).
  rewrite Hst. apply recalcUserTotals_predictions.
Qed.

Ltac knockout_kept :=
  repeat first
    [ apply knockout_kept_recalcUserTotals
    | apply keeps_modify; intros ?; by apply knockout_points_kept_same
    | keeps_step ].

Lemma knockout_kept_calculate mid :
  keeps knockout_points_kept (calculateMatchPointsForAllUsers mid).
Proof.
  unfold calculateMatchPointsForAllUsers, save_MatchPrediction.
  knockout_kept.
Qed.

(** X10. No operation of the engine writes the points of a knockout
    prediction or creates one: whatever is run, a knockout prediction found
    afterwards was there before with the same owner, slot, pick and
    [pointsAwarded].  The knockout results query, which computes points for
    such predictions, leaves the store as it is. *)
Theorem knockout_points_never_written (op : Operation) (st : Store) :
  knockout_points_kept st (run op st)
  ∧ ∀ userId, (knockoutResults userId st).1 = st.
Proof.
  split.
  - destruct op; unfold run.
    + assert (H := knockout_kept_recalcUserTotals userId st).
      destruct (recalcUserTotals userId st) as [st' o]. by eapply H.
    + assert (H := knockout_kept_calculate matchId st).
      destruct (calculateMatchPointsForAllUsers matchId st) as [st' o].
      by eapply H.
    + unfold adminUpdateMatch. apply keeps_respond.
      cbv zeta. knockout_kept; apply knockout_kept_calculate.
    + unfold adminRecalculateGroupPoints, save_GroupPrediction.
      apply keeps_respond. knockout_kept.
    + unfold adminCalculateAllPoints.
      apply keeps_respond. knockout_kept.
    + unfold groupsCalculatePoints, save_GroupPrediction, save_User.
      apply keeps_respond. knockout_kept.
    + unfold deleteMatchPrediction.
      apply keeps_respond. knockout_kept.
    + unfold deleteGroupPrediction.
      apply keeps_respond. knockout_kept.
    + unfold deleteTournamentPrediction.
      apply keeps_respond. knockout_kept.
    + unfold deleteKnockoutPredictions.
      apply keeps_respond. knockout_kept.
      apply keeps_modify. intros st0 id p Hp. simpl in Hp.
      apply map_lookup_filter_Some in Hp as [Hp _]. by exists p.
    + unfold deleteMatch.
      apply keeps_respond. knockout_kept.
      apply keeps_modify. intros st0 id0 p Hp. simpl in Hp.
      rewrite lookup_fmap in Hp.
      destruct (knockoutPredictions st0 !! id0) as [p0|]; [|done].
      simpl in Hp. injection Hp as <-. exists p0.
      case_decide; repeat split; done.
  - intros userId. symmetry. unfold knockoutResults.
    apply (keeps_respond eq). repeat keeps_step.
Qed.

(** ** Correct scores never outnumber correct winners *)

Global Instance invariant_preorder (I : Store → Prop) : PreOrder (invariant I).
Proof. split; unfold invariant; [intros st; tauto|intros st1 st2 st3; tauto]. Qed.

Lemma scoreMatchPrediction_implies m w p :
  MatchPrediction.isCorrectScore (scoreMatchPrediction m w p) = true →
  MatchPrediction.isCorrectWinner (scoreMatchPrediction m w p) = true.
Proof. simpl. rewrite !andb_true_iff. tauto. Qed.

Lemma filter_length_le {A} (P Q : A → Prop) `{!∀ x, Decision (P x)}
    `{!∀ x, Decision (Q x)} (l : list A) :
  Forall (λ x, P x → Q x) l →
  (length (filter P l) ≤ length (filter Q l))%nat.
Proof.
  induction 1 as [|x l Hx _ IH]; [done|].
  destruct (decide (P x)) as [HP|HP].
  - rewrite (filter_cons_True P) by done.
    rewrite (filter_cons_True Q) by auto. simpl. lia.
  - rewrite (filter_cons_False P) by done.
    destruct (decide (Q x)).
    + rewrite (filter_cons_True Q) by done. simpl. lia.
    + by rewrite (filter_cons_False Q).
Qed.

Lemma score_implies_winner_same st st' :
  users st' = users st → matchPredictions st' = matchPredictions st →
  invariant score_implies_winner st st'.
Proof. unfold invariant, score_implies_winner. by intros -> ->. Qed.

Lemma score_implies_winner_recalcUserTotals uid :
  keeps (invariant score_implies_winner) (recalcUserTotals uid).
Proof.
  intros st st' o. rewrite recalcUserTotals_unfold.
  destruct (users st !! uid) as [u|] eqn:Hu; [|intros [= <- _]; reflexivity].
  destruct (User.validate u); intros [= <- _]; [|reflexivity].
  intros [Hp Hus]. split; [exact Hp|]. intros k v. simpl.
  destruct (decide (k = uid)) as [->|Hne].
  - rewrite lookup_insert_eq. intros [= <-]. simpl.
    unfold correctScoresOf, correctMatchesOf. split; [lia|].
    apply inj_le, filter_length_le, Forall_forall. intros [i p] Hin.
    apply find_lookup in Hin as [Hin _]. simpl. by apply (Hp i).
  - rewrite lookup_insert_ne by done. apply Hus.
Qed.

Lemma score_implies_winner_save id m w p :
  keeps (invariant score_implies_winner)
        (save_MatchPrediction id (scoreMatchPrediction m w p)).
Proof.
  unfold save_MatchPrediction. case_match; [|apply keeps_throw; apply _].
  apply keeps_modify. intros st [Hp Hus]. split; [|exact Hus].
  intros k q. simpl. destruct (decide (k = id)) as [->|Hne].
  - rewrite lookup_insert_eq. intros [= <-].
    apply scoreMatchPrediction_implies.
  - rewrite lookup_insert_ne by done. apply Hp.
Qed.

Ltac winner_kept :=
  repeat first
    [ apply score_implies_winner_recalcUserTotals
    | apply score_implies_winner_save
    | apply keeps_modify; intros ?; by apply score_implies_winner_same
    | keeps_step ].

Lemma score_implies_winner_calculate mid :
  keeps (invariant score_implies_winner)
        (calculateMatchPointsForAllUsers mid).
Proof. unfold calculateMatchPointsForAllUsers. winner_kept. Qed.

Global Instance unchanged_preorder {A} (f : Store → A) : PreOrder (unchanged f).
Proof. split; unfold unchanged; [done|]. intros st1 st2 st3. congruence. Qed.

Lemma matchPredictions_groupsCalculatePoints reqUser group s st :
  matchPredictions (groupsCalculatePoints reqUser group s st).1
  = matchPredictions st.
Proof.
  apply (keeps_respond (unchanged matchPredictions)).
  unfold save_GroupPrediction, save_User.
  repeat first [ by apply keeps_modify | keeps_step ].
Qed.

(** X11. In a store where every prediction flagged as a correct score is
    also flagged as a correct winner, and every user counts no more correct
    scores than correct winners, this is still so after any operation; new
    predictions and new users, with their flags false and their counts 0,
    start that way. *)
Theorem score_implies_winner_invariant (op : Operation) (st : Store) :
  score_implies_winner st → score_implies_winner (run op st).
Proof.
  change (invariant score_implies_winner st (run op st)).
  destruct op; unfold run.
  - assert (H := score_implies_winner_recalcUserTotals userId st).
    destruct (recalcUserTotals userId st) as [st' o]. by eapply H.
  - assert (H := score_implies_winner_calculate matchId st).
    destruct (calculateMatchPointsForAllUsers matchId st) as [st' o].
    by eapply H.
  - unfold adminUpdateMatch. apply keeps_respond. cbv zeta.
    winner_kept; apply score_implies_winner_calculate.
  - unfold adminRecalculateGroupPoints, save_GroupPrediction.
    apply keeps_respond. winner_kept.
  - unfold adminCalculateAllPoints. apply keeps_respond. winner_kept.
  - intros [Hp Hus]. split.
    + by rewrite matchPredictions_groupsCalculatePoints.
    + destruct (groupsCalculatePoints_users reqUser group actualStandings st)
        as [Hsame|(u & id & p & s & Hu & _ & _ & _ & Hnew)];
        unfold run in *.
      * by rewrite Hsame.
      * rewrite Hnew. intros k v. destruct (decide (k = reqUser)) as [->|Hne].
        -- rewrite lookup_insert_eq. intros [= <-]. simpl. by apply (Hus reqUser).
        -- rewrite lookup_insert_ne by done. apply Hus.
  - unfold deleteMatchPrediction. apply keeps_respond. winner_kept.
    apply keeps_modify. intros st0 [Hp Hus]. split; [|exact Hus].
    intros k q Hq. simpl in Hq. apply lookup_delete_Some in Hq as [_ Hq].
    by apply (Hp k).
  - unfold deleteGroupPrediction. apply keeps_respond. winner_kept.
  - unfold deleteTournamentPrediction. apply keeps_respond. winner_kept.
  - unfold deleteKnockoutPredictions. apply keeps_respond. winner_kept.
  - unfold deleteMatch. apply keeps_respond. winner_kept.
    apply keeps_modify. intros st0 [Hp Hus]. split; [|exact Hus].
    intros k q Hq. simpl in Hq. apply map_lookup_filter_Some in Hq as [Hq _].
    by apply (Hp k).
Qed.

Lemma score_implies_winner_listed st :
  Forall (λ kp : ObjectId * MatchPrediction.t,
            MatchPrediction.isCorrectScore kp.2 = true →
            MatchPrediction.isCorrectWinner kp.2 = true)
         (map_to_list (matchPredictions st)) →
  Forall (λ ku : ObjectId * User.t,
            0 ≤ User.correctScores ku.2 ≤ User.correctMatches ku.2)
         (map_to_list (users st)) →
  score_implies_winner st.
Proof.
  rewrite !Forall_forall. intros Hp Hu. split.
  - intros id p Hin. apply elem_of_map_to_list in Hin. apply (Hp _ Hin).
  - intros uid u Hin. apply elem_of_map_to_list in Hin. apply (Hu _ Hin).
Qed.

Lemma score_implies_winner_invariant_witness :
  score_implies_winner Sample.store
  ∧ score_implies_winner
      (run (AdminUpdateMatch (Id "m1") (Some 2) (Some 0) Finished) Sample.store)
  ∧ User.correctScores
      <$> users (run (AdminUpdateMatch (Id "m1") (Some 2) (Some 0) Finished)
                   Sample.store) !! "ana" = Some 1.
Proof.
  assert (H0 : score_implies_winner Sample.store).
  { apply score_implies_winner_listed;
      apply (bool_decide_unpack _); vm_compute; exact I. }
  split; [exact H0|]. split.
  - exact (score_implies_winner_invariant
             (AdminUpdateMatch (Id "m1") (Some 2) (Some 0) Finished) Sample.store H0).
  - vm_compute. reflexivity.
Defined.

(** ** Pages of the leaderboard *)

Lemma skip_limit_lookup_lt {A} (skip limit : Z) (l : list A) n :
  limit ≠ 0 → (n < Z.to_nat (Z.abs limit))%nat →
  skip_limit skip limit l !! n = l !! (Z.to_nat skip + n)%nat.
Proof.
  intros Hl Hn. unfold skip_limit. rewrite decide_False by done.
  by rewrite lookup_take_lt, lookup_drop.
Qed.

Lemma skip_limit_length {A} (skip limit : Z) (l : list A) :
  length (skip_limit skip limit l)
  = if decide (limit = 0) then (length l - Z.to_nat skip)%nat
    else (Z.to_nat (Z.abs limit) `min` (length l - Z.to_nat skip))%nat.
Proof.
  unfold skip_limit. case_decide.
  - apply length_drop.
  - by rewrite length_take, length_drop.
Qed.

Lemma ranking_length st : length (ranking st) = size (users st).
Proof. by rewrite ranking_Permutation, length_map_to_list. Qed.

Lemma leaderboard_unfold page limit st :
  leaderboard page limit st
  = let skip := (default 1 page - 1) * default 50 limit in
    if decide (skip < 0) then (st, Failure 500)
    else (st, Json (Leaderboard.mk
           (imap (λ i (u : ObjectId * User.t),
                    Entry.mk (skip + Z.of_nat i + 1) (User.username u.2)
                      (User.totalPoints u.2) (User.correctMatches u.2)
                      (User.correctScores u.2))
                 (skip_limit skip (default 50 limit) (ranking st)))
           (default 1 page)
           (countDocuments (users st) (λ _, True)))).
Proof. unfold leaderboard, leaderboardFrom, respond. cbv zeta. by case_decide. Qed.

(** X12. A page of the leaderboard.  A request whose page and limit give a
    negative offset is answered 500.  Otherwise the store is untouched, the
    page holds as many rows as the limit allows and the ranking has left
    after the offset (a limit of 0 meaning all of them), the positions
    count up from the offset, the rows come in decreasing order of points,
    then of correct scores, then of correct winners, and [totalUsers] is the
    number of users. *)
Theorem leaderboard_page (page limit : option Z) (st : Store) :
  let skip := (default 1 page - 1) * default 50 limit in
  match leaderboard page limit st with
  | (st', Json r) =>
      st' = st ∧ 0 ≤ skip
      ∧ Leaderboard.page r = default 1 page
      ∧ Leaderboard.totalUsers r = Z.of_nat (size (users st))
      ∧ length (Leaderboard.leaderboard r)
        = (if decide (default 50 limit = 0)
           then (size (users st) - Z.to_nat skip)%nat
           else (Z.to_nat (Z.abs (default 50%Z limit))
                 `min` (size (users st) - Z.to_nat skip))%nat)
      ∧ (∀ n e, Leaderboard.leaderboard r !! n = Some e →
           Entry.position e = skip + Z.of_nat n + 1)
      ∧ (∀ n n' e e', (n < n')%nat →
           Leaderboard.leaderboard r !! n = Some e →
           Leaderboard.leaderboard r !! n' = Some e' →
           Entry.totalPoints e > Entry.totalPoints e'
           ∨ (Entry.totalPoints e = Entry.totalPoints e'
              ∧ (Entry.correctScores e > Entry.correctScores e'
                 ∨ (Entry.correctScores e = Entry.correctScores e'
                    ∧ Entry.correctMatches e' ≤ Entry.correctMatches e))))
  | (st', Failure status) => status = 500 ∧ st' = st ∧ skip < 0
  end.
Proof.
  intros skip. rewrite leaderboard_unfold. cbv zeta. fold skip.
  destruct (decide (skip < 0)) as [Hneg|Hpos]; [done|].
  split; [done|]. split; [lia|]. split; [done|]. simpl. split.
  { unfold countDocuments. by rewrite find_all, length_map_to_list. }
  split.
  { by rewrite length_imap, skip_limit_length, ranking_length. }
  split.
  - intros n e. rewrite list_lookup_imap.
    destruct (skip_limit _ _ _ !! n); [|done]. by intros [= <-].
  - intros n n' e e' Hlt. rewrite !list_lookup_imap.
    destruct (skip_limit skip _ (ranking st) !! n) as [kd|] eqn:Hn; [|done].
    destruct (skip_limit skip _ (ranking st) !! n') as [kd'|] eqn:Hn'; [|done].
    intros [= <-] [= <-]. simpl.
    apply skip_limit_lookup in Hn, Hn'.
    apply (StronglySorted_lookup sortsBefore (ranking st)
             (Z.to_nat skip + n) (Z.to_nat skip + n') kd kd');
      [apply ranking_sorted|lia|done..].
Qed.

(** Two sorted arrangements of the same elements are one list when the
    order decides between any two of them. *)
Lemma sorted_unique {A} (R : relation A) (l1 l2 : list A) :
  StronglySorted R l1 → StronglySorted R l2 → l1 ≡ₚ l2 →
  (∀ x y, x ∈ l1 → y ∈ l1 → R x y → R y x → x = y) →
  l1 = l2.
Proof.
  intros Hs1. revert l2. induction Hs1 as [|x l1 Hs1 IH Hx]; intros l2 Hs2 Hp Ha.
  - by apply Permutation_nil_l in Hp.
  - destruct Hs2 as [|y l2 Hs2 Hy].
    { by apply Permutation_nil_r in Hp. }
    assert (x = y) as <-.
    { assert (Hxin : x ∈ y :: l2) by (rewrite <- Hp; left).
      assert (Hyin : y ∈ x :: l1) by (rewrite Hp; left).
      apply elem_of_cons in Hxin as [?|Hxin]; [done|].
      apply elem_of_cons in Hyin as [?|Hyin]; [done|].
      rewrite Forall_forall in Hx, Hy. apply Ha.
      - left.
      - by right.
      - by apply Hx.
      - by apply Hy. }
    f_equal. apply IH; [done|by apply Permutation_cons_inv in Hp|].
    intros a b Hin1 Hin2. apply Ha; by right.
Qed.

Lemma NoDup_fmap_eq {A B} (f : A → B) (l : list A) x y :
  NoDup (f <$> l) → x ∈ l → y ∈ l → f x = f y → x = y.
Proof.
  intros Hnd Hx Hy Hf.
  apply list_elem_of_lookup in Hx as [i Hi], Hy as [j Hj].
  assert (i = j) as ->.
  { eapply (NoDup_lookup _ _ _ (f x) Hnd).
    - by rewrite list_lookup_fmap, Hi.
    - by rewrite list_lookup_fmap, Hj, Hf. }
  congruence.
Qed.

(** Without ties every sorted cursor is the cursor of the leaderboard. *)
Lemma sorted_cursor_unique st cursor :
  no_ties st → sorted_cursor st cursor → cursor = ranking st.
Proof.
  intros Hnt [Hperm Hsorted].
  apply (sorted_unique sortsBefore); [done|apply ranking_sorted| |].
  - by rewrite Hperm, ranking_Permutation.
  - intros x y Hin1 Hin2 Hxy Hyx. rewrite Hperm in Hin1, Hin2.
    apply (NoDup_fmap_eq _ _ x y Hnt Hin1 Hin2).
    unfold sortsBefore in *.
    assert (E1 : User.totalPoints x.2 = User.totalPoints y.2) by lia.
    assert (E2 : User.correctScores x.2 = User.correctScores y.2) by lia.
    assert (E3 : User.correctMatches x.2 = User.correctMatches y.2) by lia.
    unfold rank_key. by rewrite E1, E2, E3.
Qed.

(** X13. When no two users have the same tuple, the pages tile the
    ranking, whichever cursor [served] the sorted query returns for a
    request: with a positive limit the user at index [i] of the sorted order
    is on page [i / limit + 1], in row [i mod limit] of that page, at
    position [i + 1]. *)
Theorem leaderboard_pages_cover (limit : Z) (st : Store)
    (cursor served : list (ObjectId * User.t)) (i : nat)
    (kd : ObjectId * User.t) :
  no_ties st → sorted_cursor st cursor → sorted_cursor st served →
  0 < limit → cursor !! i = Some kd →
  ∃ r, leaderboardFrom served (Some (Z.of_nat i `div` limit + 1))
         (Some limit) st = (st, Json r)
    ∧ Leaderboard.leaderboard r !! Z.to_nat (Z.of_nat i `mod` limit)
      = Some (entry_at i kd.2).
Proof.
  intros Hnt Hcur Hserved Hl Hi.
  rewrite (sorted_cursor_unique st cursor Hnt Hcur) in Hi.
  rewrite (sorted_cursor_unique st served Hnt Hserved).
  change (leaderboardFrom (ranking st) ?p ?l st) with (leaderboard p l st).
  rewrite leaderboard_unfold. cbv zeta. simpl.
  pose proof (Z.div_mod (Z.of_nat i) limit ltac:(lia)) as Hdm.
  pose proof (Z.mod_pos_bound (Z.of_nat i) limit Hl) as Hm.
  pose proof (Z.div_pos (Z.of_nat i) limit ltac:(lia) Hl) as Hd.
  set (q := Z.of_nat i `div` limit) in *.
  set (m := Z.of_nat i `mod` limit) in *.
  rewrite decide_False by nia. eexists. split; [reflexivity|]. simpl.
  rewrite list_lookup_imap, skip_limit_lookup_lt by lia.
  replace (Z.to_nat ((q + 1 - 1) * limit) + Z.to_nat m)%nat with i by nia.
  rewrite Hi. simpl. unfold entry_at. f_equal. f_equal. nia.
Qed.

Lemma leaderboard_pages_cover_witness :
  ∃ r, leaderboard (Some 2) (Some 15) Sample.forty_store
       = (Sample.forty_store, Json r)
    ∧ Leaderboard.leaderboard r !! 1%nat
      = Some (Entry.mk 17 "u24" 24 0 0).
Proof.
  assert (Hnt : no_ties Sample.forty_store).
  { apply (bool_decide_unpack _). vm_compute. exact I. }
  exact (leaderboard_pages_cover 15 Sample.forty_store
           (ranking Sample.forty_store) (ranking Sample.forty_store) 16
           ("u24"%string, User.mk "u24" "u24@example.com" "Online" 24 0 0)
           Hnt (ranking_cursor _) (ranking_cursor _) ltac:(lia)
           ltac:(vm_compute; reflexivity)).
Defined.

(** ** The position query against the leaderboard *)

Lemma betterThan_not_sortsBefore (x y : ObjectId * User.t) :
  betterThan x.2 y.2 → sortsBefore x y → False.
Proof. unfold betterThan, sortsBefore. lia. Qed.

Lemma betterThan_upward user (x y : ObjectId * User.t) :
  betterThan user y.2 → sortsBefore x y → betterThan user x.2.
Proof. unfold betterThan, sortsBefore. lia. Qed.

Lemma tied_of_not_better (x y : ObjectId * User.t) :
  ¬ betterThan y.2 x.2 → sortsBefore x y → rank_key x.2 = rank_key y.2.
Proof.
  unfold betterThan, sortsBefore, rank_key. intros Hnb Hs.
  assert (E1 : User.totalPoints x.2 = User.totalPoints y.2) by lia.
  assert (E2 : User.correctScores x.2 = User.correctScores y.2) by lia.
  assert (E3 : User.correctMatches x.2 = User.correctMatches y.2) by lia.
  by rewrite E1, E2, E3.
Qed.

Lemma filter_nil_Forall {A} (P : A → Prop) `{!∀ x, Decision (P x)} (l : list A) :
  Forall (λ x, ¬ P x) l → filter P l = [].
Proof.
  induction 1 as [|x l Hx _ IH]; [done|]. by rewrite filter_cons_False.
Qed.

(** In a sorted cursor the documents that rank above [user] come first. *)
Lemma better_prefix user (l : list (ObjectId * User.t)) :
  StronglySorted sortsBefore l →
  filter (λ kd : ObjectId * User.t, betterThan user kd.2) l
  = take (length (filter (λ kd : ObjectId * User.t, betterThan user kd.2) l)) l.
Proof.
  induction 1 as [|x l Hs IH Hall]; [done|].
  destruct (decide (betterThan user x.2)) as [Hx|Hx].
  - rewrite filter_cons_True by done. simpl. by rewrite <- IH.
  - rewrite filter_cons_False by done.
    rewrite filter_nil_Forall; [done|].
    eapply Forall_impl; [exact Hall|]. intros y Hxy Hy. apply Hx.
    by apply (betterThan_upward user x y).
Qed.

(** X14. The position query gives the competition rank on the full
    leaderboard: for the user at index [i] of the sorted cursor the
    position is [b + 1], where the [b] rows before row [b] all rank strictly
    above the user and the rows from [b] to [i] are tied with the user.  So
    the position is at least 1 and never below the user's row. *)
Theorem my_position_is_competition_rank (st : Store) (reqUser : ObjectId)
    (user : User.t) (i : nat) :
  ranking st !! i = Some (reqUser, user) →
  ∃ r b, leaderboardMyPosition reqUser st = (st, Json r)
    ∧ MyPosition.position r = Z.of_nat b + 1 ∧ (b ≤ i)%nat
    ∧ (∀ j kd, (j < b)%nat → ranking st !! j = Some kd →
         betterThan user kd.2)
    ∧ (∀ j kd, (b ≤ j ≤ i)%nat → ranking st !! j = Some kd →
         rank_key kd.2 = rank_key user).
Proof.
  intros Hi.
  assert (Hu : users st !! reqUser = Some user).
  { apply ranking_elem_of. by eapply list_elem_of_lookup_2. }
  set (P := λ kd : ObjectId * User.t, betterThan user kd.2).
  set (B := filter P (ranking st)).
  exists (MyPosition.mk
            (countDocuments (users st) (betterThan user) + 1)
            (countDocuments (users st) (λ u, User.totalPoints u > 0))
            (User.totalPoints user) (User.correctMatches user)
            (User.correctScores user)
            (percentileOf (countDocuments (users st) (betterThan user) + 1)
               (countDocuments (users st) (λ u, User.totalPoints u > 0)))),
         (length B).
  split; [by apply leaderboardMyPosition_returns|]. simpl.
  assert (Hcount : countDocuments (users st) (betterThan user)
                   = Z.of_nat (length B)).
  { unfold countDocuments, find, B, P. f_equal. apply Permutation_length.
    by rewrite ranking_Permutation. }
  pose proof (better_prefix user (ranking st) (ranking_sorted st)) as Hpre.
  fold P in Hpre. fold B in Hpre.
  assert (HB : (length B ≤ length (ranking st))%nat) by apply length_filter.
  assert (Hlt : ∀ j kd, (j < length B)%nat → ranking st !! j = Some kd → P kd).
  { intros j kd Hj Hjk.
    assert (Hin : kd ∈ B).
    { apply list_elem_of_lookup. exists j. by rewrite Hpre, lookup_take_lt. }
    by apply list_elem_of_filter in Hin as [? _]. }
  assert (Hge : ∀ j kd, (length B ≤ j)%nat → ranking st !! j = Some kd →
                 ¬ P kd).
  { intros j kd Hj Hjk HP.
    assert (Hin : kd ∈ B).
    { apply list_elem_of_filter. split; [done|].
      by eapply list_elem_of_lookup_2. }
    apply list_elem_of_lookup in Hin as [n Hn].
    pose proof (lookup_lt_Some _ _ _ Hn) as Hnlt.
    rewrite Hpre, lookup_take_lt in Hn by done.
    pose proof (NoDup_lookup _ _ _ _ (ranking_NoDup st) Hn Hjk). lia. }
  assert (Hirr : ¬ P (reqUser, user)) by (unfold P, betterThan; simpl; lia).
  split; [lia|]. split.
  { destruct (decide (length B ≤ i)%nat) as [|Hn]; [done|].
    destruct Hirr. apply (Hlt i); [lia|done]. }
  split; [exact Hlt|].
  intros j kd [Hbj Hji] Hj.
  destruct (decide (j = i)) as [Heq|Hne].
  { subst j. rewrite Hi in Hj. by injection Hj as <-. }
  apply (tied_of_not_better kd (reqUser, user)).
  - by apply (Hge j).
  - apply (StronglySorted_lookup sortsBefore (ranking st) j i);
      [apply ranking_sorted|lia|done..].
Qed.

Lemma my_position_is_competition_rank_witness :
  ∃ r, leaderboardMyPosition "dan" Sample.standings_store
       = (Sample.standings_store, Json r)
    ∧ MyPosition.position r = 3
    ∧ ranking Sample.standings_store !! 3%nat
      = Some ("dan", Sample.dan).
Proof.
  assert (Hi : ranking Sample.standings_store !! 3%nat
               = Some ("dan", Sample.dan)) by reflexivity.
  destruct (my_position_is_competition_rank Sample.standings_store "dan"
              Sample.dan 3 Hi) as (r & b & Hrun & Hpos & _).
  exists r. split; [exact Hrun|]. split; [|exact Hi].
  rewrite (leaderboardMyPosition_returns _ _ Sample.dan) in Hrun
    by reflexivity.
  injection Hrun as <-. vm_compute. reflexivity.
Defined.

(** ** The summary of the knockout results *)



Lemma filter_split_length {A} (P : A → Prop) `{!∀ x, Decision (P x)}
    (l : list A) :
  (length (filter (λ x, ¬ P x) l) + length (filter P l) = length l)%nat.
Proof.
  induction l as [|x l IH]; [done|].
  destruct (decide (P x)).
  - rewrite (filter_cons_True P), (filter_cons_False (λ x, ¬ P x)) by auto.
    simpl. lia.
  - rewrite (filter_cons_False P), (filter_cons_True (λ x, ¬ P x)) by auto.
    simpl. lia.
Qed.





(** ** Entering a result *)

Lemma adminUpdateMatch_finished id h a st m0 :
  matches st !! id = Some m0 →
  let m := Match.mk (Match.homeTeam m0) (Match.awayTeam m0) (Some h) (Some a)
             (Match.phase m0) Finished in
  adminUpdateMatch (Id id) (Some h) (Some a) Finished st
  = match calculateMatchPointsForAllUsers id (set_matches <[id := m]> st) with
    | (st', Returned _) => (st', Json m)
    | (st', Threw _) => (st', Failure 500)
    end.
Proof.
  intros Hm0. cbv zeta. unfold adminUpdateMatch.
  rewrite respond_castId, respond_gets.
  cbv beta. rewrite Hm0. cbv zeta. unfold respond, bind at 1, modify at 1.
  rewrite decide_True by (simpl; by repeat split). unfold bind at 1.
  by destruct (calculateMatchPointsForAllUsers _ _) as [st' [[]|e]].
Qed.

Lemma adminUpdateMatch_other id homeScore awayScore status st m0 :
  matches st !! id = Some m0 →
  ¬ (status = Finished ∧ homeScore ≠ None ∧ awayScore ≠ None) →
  let m := Match.mk (Match.homeTeam m0) (Match.awayTeam m0) homeScore
             awayScore (Match.phase m0) status in
  adminUpdateMatch (Id id) homeScore awayScore status st
  = (set_matches <[id := m]> st, Json m).
Proof.
  intros Hm0 Hn. cbv zeta. unfold adminUpdateMatch.
  rewrite respond_castId, respond_gets.
  cbv beta. rewrite Hm0. cbv zeta. unfold respond, bind, modify.
  by rewrite decide_False.
Qed.

(** X16. The admin update of a match.  An id that is no ObjectId is
    answered 500 and an id that names no match 404, with nothing changed.
    An update that does not leave the match finished with both scores
    changes the match document only: points awarded earlier stay as they
    are.  An update to a finished match with scores [h] and [a] stores the
    result and scores every prediction of the match against it, whatever the
    prediction held before; the answer is 500, the result stored
    nevertheless, when [save] rejects a prediction of the match or the
    document of a user who predicted it. *)
Theorem adminUpdateMatch_rescoring (param : IdParam)
    (homeScore awayScore : option Z) (status : MatchStatus) (st : Store) :
  match param with
  | NotAnId =>
      adminUpdateMatch param homeScore awayScore status st = (st, Failure 500)
  | Id id =>
    match matches st !! id with
    | None =>
        adminUpdateMatch param homeScore awayScore status st = (st, Failure 404)
    | Some m0 =>
        let m := Match.mk (Match.homeTeam m0) (Match.awayTeam m0) homeScore
                   awayScore (Match.phase m0) status in
        match status, homeScore, awayScore with
        | Finished, Some h, Some a =>
            let w := if decide (h > a) then HOME
                     else if decide (a > h) then AWAY else DRAW in
            matches (adminUpdateMatch param homeScore awayScore status st).1
              !! id = Some m
            ∧ match (adminUpdateMatch param homeScore awayScore status st).2
              with
              | Json body =>
                  body = m
                  ∧ ∀ k p, matchPredictions st !! k = Some p →
                      MatchPrediction.match_ p = id →
                      matchPredictions
                        (adminUpdateMatch param homeScore awayScore status
                           st).1 !! k
                      = Some (scoreMatchPrediction m w p)
              | Failure code =>
                  code = 500
                  ∧ ∃ k p, matchPredictions st !! k = Some p
                      ∧ MatchPrediction.match_ p = id
                      ∧ (MatchPrediction.validate p = false
                         ∨ ∃ uid, MatchPrediction.user p = Some uid
                             ∧ valid_user st uid = false)
              end
        | _, _, _ =>
            adminUpdateMatch param homeScore awayScore status st
            = (set_matches <[id := m]> st, Json m)
        end
    end
  end.
Proof.
  destruct param as [id|].
  2: { unfold adminUpdateMatch. by rewrite respond_castId. }
  destruct (matches st !! id) as [m0|] eqn:Hm0.
  2: { unfold adminUpdateMatch. rewrite respond_castId, respond_gets.
       cbv beta. by rewrite Hm0. }
  cbv zeta.
  destruct homeScore as [h|], awayScore as [a|], status;
    try (apply adminUpdateMatch_other; [done|];
         intros (? & ? & ?); congruence).
  rewrite (adminUpdateMatch_finished id h a st m0 Hm0). cbv zeta.
  set (m := Match.mk (Match.homeTeam m0) (Match.awayTeam m0) (Some h)
              (Some a) (Match.phase m0) Finished).
  set (st1 := set_matches <[id := m]> st).
  assert (Hm : matches st1 !! id = Some m) by apply lookup_insert_eq.
  destruct (calculate_outcome id st1 m Hm eq_refl)
    as [(_ & _ & Hrun)|[(l1 & k & d & l2 & Hl & Hbad & Hrun)
                       |(Hall & l1 & uid & l2 & Hl & Hbad & Hrun)]];
    rewrite Hrun.
  - simpl. split; [apply lookup_insert_eq|]. split; [done|].
    intros k p Hp Hpm. rewrite lookup_fmap, Hp. simpl. unfold rescore.
    rewrite decide_True by done. do 2 f_equal.
    by apply computeActualWinner_scores.
  - simpl. split; [apply lookup_insert_eq|]. split; [done|].
    assert (Hin : (k, d) ∈ find (matchPredictions st1)
                    (λ p, MatchPrediction.match_ p = id)).
    { rewrite Hl. apply elem_of_app. right. left. }
    apply find_lookup in Hin as [Hk Hkm]. exists k, d.
    split; [exact Hk|]. split; [exact Hkm|]. by left.
  - simpl. split; [apply lookup_insert_eq|]. split; [done|].
    assert (Hin : uid ∈ affectedUserIds st1 id).
    { rewrite Hl. apply elem_of_app. right. left. }
    apply affectedUserIds_owner in Hin as (k & p & Hp & Hpm & Hpu); [|done].
    exists k, p. split; [exact Hp|]. split; [exact Hpm|]. right.
    by exists uid.
Qed.

(** ** The predictions summary *)

Lemma predictionsSummary_unfold reqUser st :
  predictionsSummary reqUser st
  = match users st !! reqUser with
    | None => (st, Failure 500)
    | Some user =>
        (st, Json (Summary.mk (User.username user) (User.totalPoints user)
           (User.correctMatches user) (User.correctScores user) 12
           (Z.of_nat (length (filter
              (λ p : ObjectId * GroupPrediction.t,
                 is_Some (GroupPrediction.firstPlaceTeam p.2)
                 ∧ is_Some (GroupPrediction.secondPlaceTeam p.2))
              (find (groupPredictions st)
                    (λ p, GroupPrediction.user p = Some reqUser)))))
           (sumZ (GroupPrediction.pointsAwarded
                    <$> owned_by GroupPrediction.user reqUser
                                 (groupPredictions st)))
           (Z.of_nat (length (find (matchPredictions st)
                                (λ p, MatchPrediction.user p = Some reqUser))))
           (sumZ (MatchPrediction.pointsAwarded
                    <$> owned_by MatchPrediction.user reqUser
                                 (matchPredictions st)))))
    end.
Proof.
  unfold predictionsSummary, respond, bind, gets, ret, throw.
  destruct (users st !! reqUser) as [user|]; [|done].
  by rewrite !owned_points.
Qed.

(** X17. The summary against the aggregate.  For a user whose aggregate
    is consistent with the stored predictions, the total the summary shows
    is the group points plus the match points it shows, plus the points of
    the user's knockout and tournament predictions, which it does not show;
    the correct winners and correct scores it shows do not exceed the number
    of match predictions.  A session without a user document is answered
    500.  The store is never changed. *)
Theorem predictionsSummary_adds_up (reqUser : ObjectId) (st : Store) :
  aggregate_consistent st reqUser →
  match predictionsSummary reqUser st with
  | (st', Json r) =>
      st' = st
      ∧ Summary.totalPoints r
        = Summary.groupPointsEarned r + Summary.matchPointsEarned r
          + sumZ (KnockoutPrediction.pointsAwarded
                    <$> owned_by KnockoutPrediction.user reqUser
                                 (knockoutPredictions st))
          + sumZ (TournamentPrediction.pointsAwarded
                    <$> owned_by TournamentPrediction.user reqUser
                                 (tournamentPredictions st))
      ∧ 0 ≤ Summary.correctMatches r ≤ Summary.matchesTotal r
      ∧ 0 ≤ Summary.correctScores r ≤ Summary.matchesTotal r
  | (st', Failure status) =>
      st' = st ∧ status = 500 ∧ users st !! reqUser = None
  end.
Proof.
  intros Hc. rewrite predictionsSummary_unfold.
  destruct (users st !! reqUser) as [user|] eqn:Hu; [|done].
  destruct (Hc user Hu) as (Htp & Hcm & Hcs). split; [done|]. simpl.
  split; [rewrite Htp; unfold sum_of_points; lia|].
  rewrite Hcm, Hcs. unfold count_correct_winner, count_correct_score, owned_by.
  unfold find.
  pose proof (length_filter (λ p, MatchPrediction.isCorrectWinner p = true)
    (filter (λ kd : string * MatchPrediction.t,
               MatchPrediction.user kd.2 = Some reqUser)
            (map_to_list (matchPredictions st))).*2) as H1.
  pose proof (length_filter (λ p, MatchPrediction.isCorrectScore p = true)
    (filter (λ kd : string * MatchPrediction.t,
               MatchPrediction.user kd.2 = Some reqUser)
            (map_to_list (matchPredictions st))).*2) as H2.
  rewrite length_fmap in H1, H2. lia.
Qed.

Lemma predictionsSummary_adds_up_witness :
  aggregate_consistent Sample.scored_store "ana"
  ∧ ∃ r, predictionsSummary "ana" Sample.scored_store
         = (Sample.scored_store, Json r)
      ∧ Summary.totalPoints r = 8
      ∧ Summary.totalPoints r
        = Summary.groupPointsEarned r + Summary.matchPointsEarned r
          + sumZ (KnockoutPrediction.pointsAwarded
                    <$> owned_by KnockoutPrediction.user "ana"
                          (knockoutPredictions Sample.scored_store))
          + sumZ (TournamentPrediction.pointsAwarded
                    <$> owned_by TournamentPrediction.user "ana"
                          (tournamentPredictions Sample.scored_store)).
Proof.
  assert (Hc : aggregate_consistent Sample.scored_store "ana").
  { intros u Hu. vm_compute in Hu. injection Hu as <-.
    repeat split; vm_compute; reflexivity. }
  split; [exact Hc|].
  pose proof (predictionsSummary_adds_up "ana" Sample.scored_store Hc) as H.
  destruct (predictionsSummary "ana" Sample.scored_store) as [st' [r|code]]
    eqn:Hrun.
  - destruct H as (-> & Hsum & _). exists r. split; [reflexivity|].
    split; [|exact Hsum].
    rewrite predictionsSummary_unfold in Hrun. vm_compute in Hrun.
    by injection Hrun as <-.
  - rewrite predictionsSummary_unfold in Hrun. vm_compute in Hrun.
    discriminate.
Defined.

Lemma validate_places p :
  GroupPrediction.validate p = true →
  is_Some (GroupPrediction.user p) ∧ GroupPrediction.group p ∈ GroupPrediction.group_codes
  ∧ is_Some (GroupPrediction.firstPlaceTeam p)
  ∧ is_Some (GroupPrediction.secondPlaceTeam p).
Proof.
  unfold GroupPrediction.validate. rewrite !andb_true_iff.
  rewrite !bool_decide_eq_true. tauto.
Qed.

Lemma owned_groups_NoDup (c : gmap string GroupPrediction.t) uid :
  unique_user_group c →
  NoDup ((λ kp : ObjectId * GroupPrediction.t, GroupPrediction.group kp.2)
         <$> find c (λ p, GroupPrediction.user p = Some uid)).
Proof.
  intros Hnd. apply NoDup_alt. intros i j g.
  rewrite !list_lookup_fmap.
  destruct (find c _ !! i) as [[k1 p1]|] eqn:H1; [|done].
  destruct (find c _ !! j) as [[k2 p2]|] eqn:H2; [|done].
  simpl. intros [= Hg1] [= Hg2].
  pose proof (list_elem_of_lookup_2 _ _ _ H1) as Hin1.
  pose proof (list_elem_of_lookup_2 _ _ _ H2) as Hin2.
  apply find_lookup in Hin1 as [Hk1 Hu1]. apply find_lookup in Hin2 as [Hk2 Hu2].
  assert (k1 = k2) as ->.
  { eapply (unique_index _ _ _ _ _ _ Hnd Hk1 Hk2). simpl. congruence. }
  eapply (NoDup_lookup _ _ _ k2 (find_NoDup_keys c _)).
  - by rewrite list_lookup_fmap, H1.
  - by rewrite list_lookup_fmap, H2.
Qed.

(** X18. With the unique index on user and group, and stored group
    predictions that pass the schema, the groups the summary counts as
    completed are all the group predictions of the user, and they never
    exceed the total of 12 it shows beside them. *)
Theorem predictionsSummary_groups_within_total (reqUser : ObjectId)
    (st st' : Store) (r : Summary.t) :
  unique_user_group (groupPredictions st) →
  (∀ id p, groupPredictions st !! id = Some p →
           GroupPrediction.validate p = true) →
  predictionsSummary reqUser st = (st', Json r) →
  Summary.groupsCompleted r
  = Z.of_nat (length (owned_by GroupPrediction.user reqUser
                        (groupPredictions st)))
  ∧ 0 ≤ Summary.groupsCompleted r ≤ Summary.groupsTotal r
  ∧ Summary.groupsTotal r = 12.
Proof.
  intros Hnd Hval. rewrite predictionsSummary_unfold.
  destruct (users st !! reqUser) as [user|]; [|discriminate].
  intros [= _ <-]. simpl.
  set (l := find (groupPredictions st)
                 (λ p, GroupPrediction.user p = Some reqUser)).
  assert (Hlen : length (filter (λ p : ObjectId * GroupPrediction.t,
                   is_Some (GroupPrediction.firstPlaceTeam p.2)
                   ∧ is_Some (GroupPrediction.secondPlaceTeam p.2)) l)
                 = length l).
  { pose proof (filter_split_length
      (λ p : ObjectId * GroupPrediction.t,
         is_Some (GroupPrediction.firstPlaceTeam p.2)
         ∧ is_Some (GroupPrediction.secondPlaceTeam p.2)) l) as Hs.
    rewrite filter_nil_Forall in Hs; [simpl in Hs; lia|].
    apply Forall_forall. intros [k p] Hin Hn. apply Hn.
    apply find_lookup in Hin as [Hk _].
    apply Hval, validate_places in Hk. tauto. }
  rewrite Hlen.
  assert (Hown : length (owned_by GroupPrediction.user reqUser
                           (groupPredictions st)) = length l).
  { unfold owned_by. by rewrite length_fmap. }
  rewrite Hown. split; [done|]. split; [|done].
  pose proof (owned_groups_NoDup (groupPredictions st) reqUser Hnd) as Hgroups.
  fold l in Hgroups.
  apply NoDup_submseteq with (k := GroupPrediction.group_codes) in Hgroups.
  - apply submseteq_length in Hgroups. rewrite length_fmap in Hgroups.
    simpl in Hgroups. lia.
  - intros g Hg. apply list_elem_of_fmap in Hg as ([k p] & -> & Hin).
    apply find_lookup in Hin as [Hk _].
    apply Hval, validate_places in Hk. tauto.
Qed.

Lemma predictionsSummary_groups_within_total_witness :
  ∃ r, predictionsSummary "ana" Sample.scored_store
       = (Sample.scored_store, Json r)
    ∧ Summary.groupsCompleted r = 1
    ∧ 0 ≤ Summary.groupsCompleted r ≤ Summary.groupsTotal r.
Proof.
  assert (Hnd : unique_user_group (groupPredictions Sample.scored_store)).
  { apply (bool_decide_unpack _); vm_compute; exact I. }
  assert (Hval : ∀ id p, groupPredictions Sample.scored_store !! id = Some p →
                   GroupPrediction.validate p = true).
  { intros id p Hp. apply elem_of_map_to_list in Hp.
    assert (Hall : Forall (λ kp : ObjectId * GroupPrediction.t,
                             GroupPrediction.validate kp.2 = true)
                     (map_to_list (groupPredictions Sample.scored_store))).
    { apply (bool_decide_unpack _); vm_compute; exact I. }
    rewrite Forall_forall in Hall. apply (Hall _ Hp). }
  assert (Hrun : ∃ r, predictionsSummary "ana" Sample.scored_store
                      = (Sample.scored_store, Json r)
                      ∧ Summary.groupsCompleted r = 1)
    by (eexists; split; [vm_compute; reflexivity|reflexivity]).
  destruct Hrun as (r & Hrun & H1). exists r. split; [exact Hrun|].
  split; [exact H1|].
  exact (proj1 (proj2 (predictionsSummary_groups_within_total "ana"
           Sample.scored_store Sample.scored_store r Hnd Hval Hrun))).
Defined.

(** ** The admin recalculation of group points *)

Lemma regroup_fields g s p :
  GroupPrediction.user (regroup g s p) = GroupPrediction.user p
  ∧ GroupPrediction.group (regroup g s p) = GroupPrediction.group p
  ∧ (∀ s', groupPoints (regroup g s p) s' = groupPoints p s')
  ∧ (∀ x, GroupPrediction.set_points (regroup g s p) x
          = GroupPrediction.set_points p x).
Proof. unfold regroup. by case_decide. Qed.

Lemma regroup_loop g s (l : list (ObjectId * GroupPrediction.t))
    results st st' results' :
  foldOf (λ results (prediction : ObjectId * GroupPrediction.t),
            let points := groupPoints prediction.2 s in
            save_GroupPrediction prediction.1
              (GroupPrediction.set_points prediction.2 points) ;;
            ret (results ++
                 [RecalcResult.mk (GroupPrediction.user prediction.2) g points]))
         results l st = (st', Returned results') →
  st' = set_groupPredictions
          (λ c, write_all (λ p, GroupPrediction.set_points p (groupPoints p s))
                          c l) st
  ∧ results' = results
      ++ ((λ kp : ObjectId * GroupPrediction.t,
             RecalcResult.mk (GroupPrediction.user kp.2) g (groupPoints kp.2 s))
          <$> l).
Proof.
  revert results st. induction l as [|[k p] l IH]; intros results st Hrun.
  - simpl in Hrun. injection Hrun as <- <-. split.
    + by destruct st.
    + by rewrite app_nil_r.
  - simpl in Hrun. unfold bind at 1 2, save_GroupPrediction in Hrun.
    destruct (GroupPrediction.validate _); [|discriminate].
    unfold modify, ret at 1 in Hrun.
    apply IH in Hrun as [-> ->]. split; [done|].
    by rewrite <- app_assoc.
Qed.

Lemma regroup_entries (entries : list (string * Standings.t))
    results st st' results' :
  foldOf (λ results (entry : string * Standings.t),
            let g := toUpperCase entry.1 in
            let! predictions :=
              gets (λ st, find (groupPredictions st)
                               (λ p, GroupPrediction.group p = g)) in
            foldOf (λ results (prediction : ObjectId * GroupPrediction.t),
              let points := groupPoints prediction.2 entry.2 in
              save_GroupPrediction prediction.1
                (GroupPrediction.set_points prediction.2 points) ;;
              ret (results ++
                   [RecalcResult.mk (GroupPrediction.user prediction.2) g points]))
              results predictions)
         results entries st = (st', Returned results') →
  st' = set_groupPredictions
          (λ c, foldl (λ c (e : string * Standings.t),
                         regroup (toUpperCase e.1) e.2 <$> c) c entries) st
  ∧ ∀ r, r ∈ results'
      ↔ r ∈ results
        ∨ ∃ e id p, e ∈ entries ∧ groupPredictions st !! id = Some p
            ∧ GroupPrediction.group p = toUpperCase e.1
            ∧ r = RecalcResult.mk (GroupPrediction.user p) (toUpperCase e.1)
                    (groupPoints p e.2).
Proof.
  revert results st. induction entries as [|[g s] entries IH];
    intros results st Hrun.
  - simpl in Hrun. injection Hrun as <- <-. split; [by destruct st|].
    intros r. split; [tauto|]. intros [?|(e & _ & _ & He & _)]; [done|].
    by apply elem_of_nil in He.
  - simpl in Hrun. unfold bind at 1 in Hrun.
    destruct (bind _ _ st) as [st1 [res1|e]] eqn:Hinner; [|discriminate].
    unfold bind at 1, gets in Hinner. apply regroup_loop in Hinner as [-> ->].
    apply IH in Hrun as [-> Hres]. clear IH. split.
    + unfold set_groupPredictions. simpl. do 2 f_equal.
      apply (write_all_find (λ p, GroupPrediction.set_points p (groupPoints p s))).
    + intros r. rewrite Hres. clear Hres. simpl. rewrite elem_of_app.
      rewrite (write_all_find
        (λ p, GroupPrediction.set_points p (groupPoints p s))).
      fold (regroup (toUpperCase g) s). split.
      * intros [[Hr|Hr]|(e & id & p & He & Hp & Hg & ->)].
        -- by left.
        -- right. apply list_elem_of_fmap in Hr as ([k p] & -> & Hin).
           apply find_lookup in Hin as [Hk Hkg]. exists (g, s), k, p.
           split; [left|done].
        -- right. rewrite lookup_fmap in Hp.
           destruct (groupPredictions st !! id) as [p0|] eqn:Hp0; [|done].
           simpl in Hp. injection Hp as <-.
           destruct (regroup_fields (toUpperCase g) s p0) as (Hu & Hgr & Hpt & _).
           exists e, id, p0. split; [by right|]. split; [done|].
           split; [congruence|]. by rewrite Hu, Hpt.
      * intros [Hr|(e & id & p & He & Hp & Hg & ->)]; [by left; left|].
        apply elem_of_cons in He as [->|He].
        -- left. right. apply list_elem_of_fmap. exists (id, p).
           split; [done|]. by apply find_lookup.
        -- right.
           destruct (regroup_fields (toUpperCase g) s p) as (Hu & Hgr & Hpt & _).
           exists e, id, (regroup (toUpperCase g) s p).
           split; [done|]. split; [by rewrite lookup_fmap, Hp|].
           split; [congruence|]. by rewrite Hu, Hpt.
Qed.

Lemma regroup_all_lookup (entries : list (string * Standings.t))
    (c : gmap string GroupPrediction.t) id :
  foldl (λ c (e : string * Standings.t), regroup (toUpperCase e.1) e.2 <$> c)
        c entries !! id
  = regroup_all entries <$> c !! id.
Proof.
  revert c. induction entries as [|e entries IH]; intros c; simpl.
  - by destruct (c !! id).
  - rewrite IH, lookup_fmap. by destruct (c !! id).
Qed.

Lemma regroup_all_other entries p :
  GroupPrediction.group p ∉ toUpperCase <$> entries.*1 →
  regroup_all entries p = p.
Proof.
  induction entries as [|[g s] entries IH]; intros Hn; [done|].
  rewrite !fmap_cons in Hn. apply not_elem_of_cons in Hn as [Hne Hn].
  unfold regroup_all. simpl. unfold regroup at 2.
  rewrite decide_False by done. by apply IH.
Qed.

Lemma regroup_all_named entries p g s :
  NoDup (toUpperCase <$> entries.*1) → (g, s) ∈ entries →
  GroupPrediction.group p = toUpperCase g →
  regroup_all entries p = GroupPrediction.set_points p (groupPoints p s).
Proof.
  induction entries as [|[g' s'] entries IH]; intros Hnd Hin Hg.
  { by apply elem_of_nil in Hin. }
  rewrite !fmap_cons in Hnd. apply NoDup_cons in Hnd as [Hhd Hnd].
  unfold regroup_all. simpl. apply elem_of_cons in Hin as [[= <- <-]|Hin].
  - unfold regroup at 2. rewrite decide_True by done.
    apply regroup_all_other. simpl. by rewrite Hg.
  - unfold regroup at 2. rewrite decide_False; [by apply IH|].
    simpl in Hhd. intros Heq. apply Hhd. rewrite <- Heq, Hg.
    apply list_elem_of_fmap. exists g. split; [done|].
    apply list_elem_of_fmap. by exists (g, s).
Qed.

(** X19. The admin recalculation of group points, when it answers 200 for
    a request whose group codes are strings of ASCII characters, distinct
    once in upper case: every stored prediction of a named group holds the
    points its picks earn against the standings of that group, whatever it
    held before; predictions of other groups are untouched; the answer
    lists exactly the predictions of the named groups with their new
    points; and the owner of every such prediction has an aggregate equal
    to the sum and the counts over the stored predictions. *)
Theorem adminRecalculateGroupPoints_applies
    (entries : list (string * Standings.t)) (st st' : Store)
    (body : RecalcGroups.t) :
  unique_owner (tournamentPredictions st) →
  Forall (λ e : string * Standings.t, ascii_only e.1 = true) entries →
  NoDup (toUpperCase <$> entries.*1) →
  adminRecalculateGroupPoints (Some entries) st = (st', Json body) →
  (∀ id p g s, groupPredictions st !! id = Some p → (g, s) ∈ entries →
     GroupPrediction.group p = toUpperCase g →
     groupPredictions st' !! id
     = Some (GroupPrediction.set_points p (groupPoints p s))
     ∧ ∀ uid, GroupPrediction.user p = Some uid →
         aggregate_consistent st' uid)
  ∧ (∀ id p, groupPredictions st !! id = Some p →
       GroupPrediction.group p ∉ toUpperCase <$> entries.*1 →
       groupPredictions st' !! id = Some p)
  ∧ (∀ r, r ∈ RecalcGroups.results body
       ↔ ∃ g s id p, (g, s) ∈ entries ∧ groupPredictions st !! id = Some p
           ∧ GroupPrediction.group p = toUpperCase g
           ∧ r = RecalcResult.mk (GroupPrediction.user p) (toUpperCase g)
                   (groupPoints p s))
  ∧ RecalcGroups.updated body = Z.of_nat (length (RecalcGroups.results body))
  ∧ matchPredictions st' = matchPredictions st
  ∧ knockoutPredictions st' = knockoutPredictions st
  ∧ tournamentPredictions st' = tournamentPredictions st.
Proof.
  intros Hu _ Hnd. unfold adminRecalculateGroupPoints, respond.
  unfold bind at 1.
  destruct (foldOf _ [] entries st) as [st2 [results|e]] eqn:Hloop;
    [|discriminate].
  apply regroup_entries in Hloop as [-> Hres].
  unfold bind at 1.
  match goal with
  | |- context [forOf _ ?uids ?st0] =>
      destruct (recalc_loop_outcome uids st0)
        as [[_ ->]|(l1 & uid & l2 & _ & _ & _ & ->)]; [|discriminate]
  end.
  unfold ret. intros [= <- <-]. simpl.
  set (st2 := set_groupPredictions
                (λ c, foldl (λ c (e : string * Standings.t),
                               regroup (toUpperCase e.1) e.2 <$> c) c entries)
                st).
  split; [|split; [|split; [|done]]].
  - intros id p g s Hp Hin Hg. split.
    + rewrite regroup_all_lookup, Hp. simpl. f_equal.
      by apply (regroup_all_named entries p g s).
    + intros uid Hpu u. cbn [users set_users]. rewrite recalc_users_lookup.
      rewrite decide_True.
      * destruct (users st2 !! uid) as [u0|]; [|done]. simpl. intros [= <-].
        exact (recomputed_consistent st2 uid u0 Hu).
      * apply elem_of_uniq, list_elem_of_fmap.
        exists (RecalcResult.mk (Some uid) (toUpperCase g) (groupPoints p s)).
        split; [done|]. apply Hres. right. exists (g, s), id, p.
        by rewrite <- Hpu.
  - intros id p Hp Hn. rewrite regroup_all_lookup, Hp. simpl. f_equal.
    by apply regroup_all_other.
  - intros r. rewrite Hres. split.
    + intros [Hr|([g s] & id & p & He & Hp & Hg & ->)].
      * by apply elem_of_nil in Hr.
      * by exists g, s, id, p.
    + intros (g & s & id & p & He & Hp & Hg & ->). right.
      by exists (g, s), id, p.
Qed.

Lemma adminRecalculateGroupPoints_applies_witness :
  ∃ st' body,
    adminRecalculateGroupPoints (Some [("a"%string, Sample.standings_first_only)])
      Sample.store = (st', Json body)
    ∧ GroupPrediction.pointsAwarded <$> groupPredictions st' !! "g1" = Some 5
    ∧ aggregate_consistent st' "ana".
Proof.
  assert (Hu : unique_owner (tournamentPredictions Sample.store)).
  { apply (bool_decide_unpack _); vm_compute; exact I. }
  assert (Hnd : NoDup (toUpperCase
            <$> [("a"%string, Sample.standings_first_only)].*1)).
  { apply (bool_decide_unpack _); vm_compute; exact I. }
  assert (Hascii : Forall (λ e : string * Standings.t, ascii_only e.1 = true)
                     [("a"%string, Sample.standings_first_only)])
    by (repeat constructor).
  assert (Hrun : ∃ st' body,
    adminRecalculateGroupPoints (Some [("a"%string, Sample.standings_first_only)])
      Sample.store = (st', Json body))
    by (do 2 eexists; vm_compute; reflexivity).
  destruct Hrun as (st' & body & Hrun). exists st', body.
  split; [exact Hrun|].
  destruct (adminRecalculateGroupPoints_applies _ _ _ _ Hu Hascii Hnd Hrun)
    as (Hnamed & _).
  destruct (Hnamed "g1"%string
              (GroupPrediction.mk (Some "ana"%string) "A" (Some "t1"%string)
                 (Some "t2"%string) None 8)
              "a"%string Sample.standings_first_only eq_refl
              ltac:(left) eq_refl) as [Hlook Hcons].
  split.
  - by rewrite Hlook.
  - by apply Hcons.
Defined.

(** ** Saving a match prediction *)

Lemma unique_index_insert_same {D K} (key : D → K) (c : gmap string D) id p p' :
  NoDup (key <$> (map_to_list c).*2) →
  c !! id = Some p → key p' = key p →
  NoDup (key <$> (map_to_list (<[id := p']> c)).*2).
Proof.
  intros Hnd Hp Hk.
  assert (H1 : map_to_list c ≡ₚ (id, p) :: map_to_list (delete id c)).
  { rewrite <- (insert_delete_id c id p) at 1 by done.
    apply map_to_list_insert, lookup_delete_eq. }
  assert (H2 : map_to_list (<[id := p']> c)
               ≡ₚ (id, p') :: map_to_list (delete id c)).
  { rewrite <- insert_delete_eq. apply map_to_list_insert, lookup_delete_eq. }
  rewrite H2. rewrite H1 in Hnd. rewrite !fmap_cons in *. simpl in *.
  by rewrite Hk.
Qed.

Lemma unique_index_insert_new {D K} (key : D → K) (c : gmap string D) id p' :
  NoDup (key <$> (map_to_list c).*2) →
  c !! id = None → (∀ k d, c !! k = Some d → key d ≠ key p') →
  NoDup (key <$> (map_to_list (<[id := p']> c)).*2).
Proof.
  intros Hnd Hid Hnew. rewrite map_to_list_insert by done.
  rewrite !fmap_cons. apply NoDup_cons. split; [|done]. simpl.
  intros Hin. apply list_elem_of_fmap in Hin as (d & Hd & Hin).
  apply list_elem_of_fmap in Hin as ([k d'] & -> & Hin).
  apply elem_of_map_to_list in Hin. by apply (Hnew k d').
Qed.

Lemma postMatchPrediction_unfold newId reqUser matchId h a winnerPred st :
  postMatchPrediction newId reqUser matchId h a winnerPred st
  = match matchId ≫= nonempty, winnerPred ≫= nonempty with
    | Some mid, Some wp =>
        match matches st !! mid with
        | None => (st, Failure 404)
        | Some m =>
            if decide (Match.status m = Finished) then (st, Failure 400)
            else match Winner_of wp with
                 | None => (st, Failure 500)
                 | Some w =>
                     if bool_decide (0 ≤ h) && bool_decide (0 ≤ a)
                     then
                       let doc :=
                         match findOne (matchPredictions st)
                                 (λ p, MatchPrediction.user p = Some reqUser
                                       ∧ MatchPrediction.match_ p = mid) with
                         | Some (id, p) =>
                             (id, MatchPrediction.mk (MatchPrediction.user p)
                                    (MatchPrediction.match_ p) h a w
                                    (MatchPrediction.pointsAwarded p)
                                    (MatchPrediction.isCorrectWinner p)
                                    (MatchPrediction.isCorrectScore p))
                         | None =>
                             (newId, MatchPrediction.mk (Some reqUser) mid h a
                                       w 0 false false)
                         end in
                       (set_matchPredictions <[doc.1 := doc.2]> st, Json doc.2)
                     else (st, Failure 500)
                 end
        end
    | _, _ => (st, Failure 400)
    end.
Proof.
  unfold postMatchPrediction, respond.
  destruct (matchId ≫= nonempty) as [mid|]; [|done].
  destruct (winnerPred ≫= nonempty) as [wp|]; [|done].
  unfold bind at 1, gets at 1.
  destruct (matches st !! mid) as [m|]; [|done].
  case_decide; [done|]. unfold upsertMatchPrediction.
  destruct (Winner_of wp) as [w|]; [|done].
  destruct (bool_decide (0 ≤ h) && bool_decide (0 ≤ a)); done.
Qed.

(** X20. Saving a match prediction either stores it or changes nothing:
    every answer other than 201 (400 for a missing field or a finished
    match, 404 for an unknown match, 500 for an invalid winner or a negative
    goal count) leaves the store as it was.  A prediction is accepted only
    for a match that exists and is not finished, and what is stored then
    passes the schema. *)
Theorem postMatchPrediction_accepts (newId reqUser : ObjectId)
    (matchId : option ObjectId) (homeGoalsPred awayGoalsPred : Z)
    (winnerPred : option string) (st : Store) :
  match postMatchPrediction newId reqUser matchId homeGoalsPred awayGoalsPred
          winnerPred st with
  | (st', Json p) =>
      (∃ mid m, matchId = Some mid ∧ matches st !! mid = Some m
         ∧ Match.status m ≠ Finished ∧ MatchPrediction.match_ p = mid)
      ∧ (∃ wp, winnerPred = Some wp
           ∧ Winner_of wp = Some (MatchPrediction.winnerPred p))
      ∧ MatchPrediction.user p = Some reqUser
      ∧ MatchPrediction.homeGoalsPred p = homeGoalsPred
      ∧ MatchPrediction.awayGoalsPred p = awayGoalsPred
      ∧ MatchPrediction.validate p = true
  | (st', Failure code) =>
      st' = st ∧ (code = 400 ∨ code = 404 ∨ code = 500)
  end.
Proof.
  rewrite postMatchPrediction_unfold.
  destruct matchId as [mid0|]; simpl; [|tauto].
  unfold nonempty at 1. destruct (decide (mid0 = EmptyString)); [tauto|].
  destruct winnerPred as [wp0|]; simpl; [|tauto].
  unfold nonempty at 1. destruct (decide (wp0 = EmptyString)); [tauto|].
  destruct (matches st !! mid0) as [m|] eqn:Hm; [|tauto].
  case_decide; [tauto|].
  destruct (Winner_of wp0) as [w|] eqn:Hw; [|tauto].
  destruct (bool_decide (0 ≤ homeGoalsPred) && bool_decide (0 ≤ awayGoalsPred))
    eqn:Hgoals; [|tauto].
  cbv zeta.
  destruct (findOne _ _) as [[id p]|] eqn:Hfind; simpl.
  - apply findOne_Some in Hfind as [Hp [Hpu Hpm]].
    split; [by exists mid0, m|]. split; [by exists wp0|].
    repeat split; try done.
    unfold MatchPrediction.validate. simpl. rewrite Hpu.
    apply andb_true_iff in Hgoals as [-> ->].
    by rewrite bool_decide_true by done.
  - split; [by exists mid0, m|]. split; [by exists wp0|].
    by repeat split.
Qed.

(** X21. Saving a match prediction is an upsert on the pair of user and
    match.  After an answer 201 the query by user and match finds exactly
    the document answered; the unique index still holds; a prediction that
    existed keeps its id, its points and its flags while its picks are
    replaced, and a new one starts with no points under the fresh id; no
    user, match or other prediction is touched. *)
Theorem postMatchPrediction_upserts (newId reqUser mid : ObjectId)
    (homeGoalsPred awayGoalsPred : Z) (winnerPred : string)
    (st st' : Store) (p : MatchPrediction.t) :
  unique_user_match (matchPredictions st) →
  matchPredictions st !! newId = None →
  postMatchPrediction newId reqUser (Some mid) homeGoalsPred awayGoalsPred
    (Some winnerPred) st = (st', Json p) →
  ∃ id, matchPredictions st' = <[id := p]> (matchPredictions st)
    ∧ findOne (matchPredictions st')
        (λ q, MatchPrediction.user q = Some reqUser
              ∧ MatchPrediction.match_ q = mid) = Some (id, p)
    ∧ unique_user_match (matchPredictions st')
    ∧ match matchPredictions st !! id with
      | Some old =>
          MatchPrediction.user old = Some reqUser
          ∧ MatchPrediction.match_ old = mid
          ∧ MatchPrediction.pointsAwarded p = MatchPrediction.pointsAwarded old
          ∧ MatchPrediction.isCorrectWinner p
            = MatchPrediction.isCorrectWinner old
          ∧ MatchPrediction.isCorrectScore p
            = MatchPrediction.isCorrectScore old
      | None =>
          id = newId ∧ MatchPrediction.pointsAwarded p = 0
          ∧ MatchPrediction.isCorrectWinner p = false
          ∧ MatchPrediction.isCorrectScore p = false
      end
    ∧ users st' = users st ∧ matches st' = matches st
    ∧ teams st' = teams st
    ∧ groupPredictions st' = groupPredictions st
    ∧ knockoutPredictions st' = knockoutPredictions st
    ∧ tournamentPredictions st' = tournamentPredictions st.
Proof.
  intros Hnd Hfresh. rewrite postMatchPrediction_unfold. simpl.
  destruct (nonempty mid) as [mid'|] eqn:Hmid; [|discriminate].
  assert (mid' = mid) as ->.
  { unfold nonempty in Hmid. case_decide; congruence. }
  destruct (nonempty winnerPred) as [wp|]; [|discriminate].
  destruct (matches st !! mid) as [m|]; [|discriminate].
  case_decide; [discriminate|].
  destruct (Winner_of wp) as [w|]; [|discriminate].
  destruct (bool_decide (0 ≤ homeGoalsPred) && bool_decide (0 ≤ awayGoalsPred));
    [|discriminate].
  cbv zeta.
  assert (Hkey : ∀ d1 d2 : MatchPrediction.t,
            MatchPrediction.user d1 = Some reqUser
            ∧ MatchPrediction.match_ d1 = mid →
            MatchPrediction.user d2 = Some reqUser
            ∧ MatchPrediction.match_ d2 = mid →
            (MatchPrediction.user d1, MatchPrediction.match_ d1)
            = (MatchPrediction.user d2, MatchPrediction.match_ d2)).
  { intros d1 d2 [-> ->] [-> ->]. done. }
  destruct (findOne _ _) as [[id old]|] eqn:Hfind; simpl; intros [= <- <-].
  - apply findOne_Some in Hfind as [Hold [Hou Hom]].
    exists id. simpl.
    assert (Hnd' : unique_user_match
              (<[id := MatchPrediction.mk (MatchPrediction.user old)
                         (MatchPrediction.match_ old) homeGoalsPred
                         awayGoalsPred w (MatchPrediction.pointsAwarded old)
                         (MatchPrediction.isCorrectWinner old)
                         (MatchPrediction.isCorrectScore old)]>
                 (matchPredictions st))).
    { by apply (unique_index_insert_same _ _ id old). }
    split; [done|]. split.
    { apply (findOne_unique _ _ _ _ _ Hnd' Hkey); [apply lookup_insert_eq|done]. }
    split; [done|]. rewrite Hold. done.
  - rewrite findOne_None in Hfind. exists newId. simpl.
    assert (Hnd' : unique_user_match
              (<[newId := MatchPrediction.mk (Some reqUser) mid homeGoalsPred
                            awayGoalsPred w 0 false false]>
                 (matchPredictions st))).
    { apply unique_index_insert_new; [done..|]. simpl.
      intros k d Hk [= Hdu Hdm]. by apply (Hfind k d). }
    split; [done|]. split.
    { apply (findOne_unique _ _ _ _ _ Hnd' Hkey); [apply lookup_insert_eq|done]. }
    split; [done|]. rewrite Hfresh. done.
Qed.

Lemma postMatchPrediction_upserts_witness :
  ∃ st' p, postMatchPrediction "new1" "bea" (Some "m2"%string) 1 1
             (Some "DRAW"%string) Cases.open_store = (st', Json p)
    ∧ findOne (matchPredictions st')
        (λ q, MatchPrediction.user q = Some "bea"%string
              ∧ MatchPrediction.match_ q = "m2"%string)
      = Some ("new1"%string, p)
    ∧ MatchPrediction.winnerPred p = DRAW.
Proof.
  assert (Hnd : unique_user_match (matchPredictions Cases.open_store)).
  { apply (bool_decide_unpack _); vm_compute; exact I. }
  assert (Hrun : ∃ st',
    postMatchPrediction "new1" "bea" (Some "m2"%string) 1 1
      (Some "DRAW"%string) Cases.open_store
    = (st', Json (MatchPrediction.mk (Some "bea"%string) "m2" 1 1 DRAW 0
                    false false)))
    by (eexists; vm_compute; reflexivity).
  destruct Hrun as [st' Hrun].
  exists st', (MatchPrediction.mk (Some "bea"%string) "m2" 1 1 DRAW 0
                 false false).
  split; [exact Hrun|].
  assert (Hfresh : matchPredictions Cases.open_store !! "new1"%string = None)
    by reflexivity.
  destruct (postMatchPrediction_upserts _ _ _ _ _ _ _ _ _ Hnd Hfresh Hrun)
    as (id & Hst & Hfind & _ & Hold & _).
  split; [|reflexivity].
  destruct (matchPredictions Cases.open_store !! id) as [old|] eqn:Hid.
  - destruct Hold as (Hou & Hom & _).
    assert (Hall : Forall (λ kp : ObjectId * MatchPrediction.t,
                     MatchPrediction.match_ kp.2 ≠ "m2"%string)
                   (map_to_list (matchPredictions Cases.open_store))).
    { apply (bool_decide_unpack _); vm_compute; exact I. }
    rewrite Forall_forall in Hall.
    apply elem_of_map_to_list in Hid. by destruct (Hall _ Hid).
  - destruct Hold as (-> & _). exact Hfind.
Defined.

(** ** Saving group predictions in bulk *)

Lemma bulkItem_cases newId reqUser acc entry st :
  ∃ st' acc', bulkItem newId reqUser acc entry st = (st', Returned acc')
    ∧ ((st' = st ∧ acc'.1 = acc.1 ∧ ∃ err, acc'.2 = acc.2 ++ [err])
       ∨ ∃ id doc, upserted newId reqUser st id doc
           ∧ st' = set_groupPredictions <[id := doc]> st
           ∧ acc' = (acc.1 ++ [doc], acc.2)).
Proof.
  destruct entry as [groupKey value]. unfold bulkItem, catch. simpl.
  case_decide as Hg.
  { do 2 eexists. split; [reflexivity|]. left. simpl. eauto. }
  destruct value as [groupPred|].
  2: { do 2 eexists. split; [reflexivity|]. left. simpl. eauto. }
  unfold bind at 1, ret at 1.
  destruct (truthy (GroupPick.first groupPred)) as [first|].
  2: { do 2 eexists. split; [reflexivity|]. left. simpl. eauto. }
  destruct (truthy (GroupPick.second groupPred)) as [second|].
  2: { do 2 eexists. split; [reflexivity|]. left. simpl. eauto. }
  unfold bind at 1, gets at 1. case_decide.
  { do 2 eexists. split; [reflexivity|]. left. simpl. eauto. }
  unfold upsertGroupPrediction, bind, gets, modify, ret.
  do 2 eexists. split; [reflexivity|]. right. do 2 eexists.
  split; [|split; reflexivity].
  exists (toUpperCase groupKey), first, second,
    (truthy (GroupPick.third groupPred)).
  split; [done|]. by destruct (findOne _ _) as [[id0 p]|].
Qed.

Section bulk_loop.
Context (newId : gmap string GroupPrediction.t → ObjectId) (reqUser : ObjectId).
Context (R : relation Store) `{!PreOrder R}.
Hypothesis R_upserted :
  ∀ st id doc, upserted newId reqUser st id doc →
    R st (set_groupPredictions <[id := doc]> st).

Lemma bulk_loop entries acc st :
  ∃ st' acc', foldOf (bulkItem newId reqUser) acc entries st
              = (st', Returned acc')
    ∧ R st st'
    ∧ (length acc'.1 + length acc'.2
       = length acc.1 + length acc.2 + length entries)%nat.
Proof.
  revert acc st. induction entries as [|entry entries IH]; intros acc st.
  - exists st, acc. split; [done|]. split; [reflexivity|simpl; lia].
  - destruct (bulkItem_cases newId reqUser acc entry st)
      as (st1 & acc1 & Hitem & Hcases).
    destruct (IH acc1 st1) as (st' & acc' & Hrest & HR & Hlen).
    exists st', acc'. split.
    { simpl. unfold bind. by rewrite Hitem. }
    destruct Hcases as [(-> & H1 & err & H2)|(id & doc & Hup & -> & ->)].
    + split; [done|]. rewrite H1, H2, length_app in Hlen. simpl in *. lia.
    + split; [etrans; [by apply R_upserted|done]|].
      simpl in Hlen. rewrite length_app in Hlen. simpl in *. lia.
Qed.

Lemma postGroupsBulk_loop entries st :
  ∃ st' body, postGroupsBulk newId reqUser (Some entries) st = (st', Json body)
    ∧ R st st'
    ∧ Bulk.total body = Z.of_nat (length entries)
    ∧ Bulk.saved body + Z.of_nat (length (Bulk.errors body)) = Bulk.total body
    ∧ Bulk.saved body = Z.of_nat (length (Bulk.predictions body)).
Proof.
  destruct (bulk_loop entries ([], []) st) as (st' & acc' & Hrun & HR & Hlen).
  unfold postGroupsBulk, respond, bind. rewrite Hrun. unfold ret.
  do 2 eexists. split; [reflexivity|]. split; [done|]. simpl in *.
  repeat split; lia.
Qed.
End bulk_loop.

(** X22. The bulk save never fails as a whole: for any list of entries it
    answers 201, every entry is either saved or reported in [errors], so
    that the two counts add up to [total], and nothing but group
    predictions is written: users, and with them every total, matches,
    teams and the other predictions are as before. *)
Theorem postGroupsBulk_accounts
    (newId : gmap string GroupPrediction.t → ObjectId) (reqUser : ObjectId)
    (entries : list (string * option GroupPick.t)) (st : Store) :
  ∃ st' body,
    postGroupsBulk newId reqUser (Some entries) st = (st', Json body)
    ∧ Bulk.total body = Z.of_nat (length entries)
    ∧ Bulk.saved body + Z.of_nat (length (Bulk.errors body)) = Bulk.total body
    ∧ Bulk.saved body = Z.of_nat (length (Bulk.predictions body))
    ∧ users st' = users st ∧ teams st' = teams st ∧ matches st' = matches st
    ∧ matchPredictions st' = matchPredictions st
    ∧ knockoutPredictions st' = knockoutPredictions st
    ∧ tournamentPredictions st' = tournamentPredictions st.
Proof.
  destruct (postGroupsBulk_loop newId reqUser
    (unchanged (λ st, (users st, teams st, matches st, matchPredictions st,
                       knockoutPredictions st, tournamentPredictions st)))
    ltac:(done) entries st) as (st' & body & Hrun & HR & Htot & Hsum & Hsaved).
  exists st', body. unfold unchanged in HR. injection HR as -> -> -> -> -> ->.
  by repeat split.
Qed.

Global Instance picks_saved_preorder reqUser : PreOrder (picks_saved reqUser).
Proof.
  split.
  - intros st. split; [|split; [|done]].
    + intros id p Hp. by exists p.
    + intros id p Hp Hn. congruence.
  - intros st1 st2 st3 (Hold12 & Hnew12 & Hu12) (Hold23 & Hnew23 & Hu23).
    split; [|split; [|tauto]].
    + intros id p Hp.
      destruct (Hold12 id p Hp) as (p2 & Hp2 & Hus & Hg & Hpt & Hv & Hsame).
      destruct (Hold23 id p2 Hp2)
        as (p3 & Hp3 & Hus' & Hg' & Hpt' & Hv' & Hsame').
      exists p3. repeat split; try congruence; [tauto|].
      intros Hne. rewrite Hsame' by congruence. by apply Hsame.
    + intros id p3 Hp3 Hn.
      destruct (groupPredictions st2 !! id) as [p2|] eqn:Hp2.
      * destruct (Hnew12 id p2 Hp2 Hn) as (Hus & Hpt & Hv).
        destruct (Hold23 id p2 Hp2) as (p3' & Hp3' & Hus' & Hpt' & Hg' & Hv' & _).
        assert (p3' = p3) as -> by congruence.
        repeat split; try congruence. tauto.
      * by apply (Hnew23 id p3).
Qed.

Lemma picks_saved_upserted newId reqUser st id doc :
  (∀ c : gmap string GroupPrediction.t, c !! newId c = None) →
  upserted newId reqUser st id doc →
  picks_saved reqUser st (set_groupPredictions <[id := doc]> st).
Proof.
  intros Hfresh (g & first & second & third & Hg & Hdoc).
  destruct (findOne _ _) as [[id0 old]|] eqn:Hfind.
  - destruct Hdoc as [-> ->].
    apply findOne_Some in Hfind as [Hold [Hou Hog]].
    assert (Hvalid : GroupPrediction.validate
              (GroupPrediction.mk (GroupPrediction.user old)
                 (GroupPrediction.group old) (Some first) (Some second) third
                 (GroupPrediction.pointsAwarded old)) = true).
    { unfold GroupPrediction.validate. simpl. rewrite Hou, Hog.
      rewrite !bool_decide_true; done. }
    split; [|split].
    + intros id p Hp. simpl. destruct (decide (id = id0)) as [->|Hne].
      * rewrite lookup_insert_eq. eexists. split; [done|].
        assert (p = old) as -> by congruence. simpl.
        repeat split; try done; intros Hn; by rewrite Hou in Hn.
      * rewrite lookup_insert_ne by done. by exists p.
    + intros id p' Hp' Hn. simpl in Hp'.
      destruct (decide (id = id0)) as [->|Hne]; [congruence|].
      rewrite lookup_insert_ne in Hp' by done. congruence.
    + intros Hnd. simpl. by apply (unique_index_insert_same _ _ id0 old).
  - destruct Hdoc as [-> ->]. rewrite findOne_None in Hfind.
    pose proof (Hfresh (groupPredictions st)) as Hid.
    split; [|split].
    + intros id p Hp. simpl. rewrite lookup_insert_ne by congruence.
      by exists p.
    + intros id p' Hp' Hn. simpl in Hp'.
      destruct (decide (id = newId (groupPredictions st))) as [->|Hne].
      * rewrite lookup_insert_eq in Hp'. injection Hp' as <-. simpl.
        split; [done|]. split; [done|].
        unfold GroupPrediction.validate. simpl.
        rewrite !bool_decide_true; done.
      * rewrite lookup_insert_ne in Hp' by done. congruence.
    + intros Hnd. simpl. apply unique_index_insert_new; [done..|]. simpl.
      intros k d Hk [= Hdu Hdg]. by apply (Hfind k d).
Qed.

(** X23. What the bulk save writes, the driver generating ids that are not
    in use.  A group prediction that was stored keeps its owner, its group
    and its points, also when its picks are replaced; it stays valid if it
    was, and it is untouched when it belongs to another user.  A prediction
    that was not stored before belongs to the signed-in user, passes the
    schema and has no points.  The unique index on user and group is
    kept. *)
Theorem postGroupsBulk_saves
    (newId : gmap string GroupPrediction.t → ObjectId) (reqUser : ObjectId)
    (entries : list (string * option GroupPick.t)) (st st' : Store)
    (body : Bulk.t) :
  (∀ c : gmap string GroupPrediction.t, c !! newId c = None) →
  postGroupsBulk newId reqUser (Some entries) st = (st', Json body) →
  (∀ id p, groupPredictions st !! id = Some p →
     ∃ p', groupPredictions st' !! id = Some p'
       ∧ GroupPrediction.user p' = GroupPrediction.user p
       ∧ GroupPrediction.group p' = GroupPrediction.group p
       ∧ GroupPrediction.pointsAwarded p' = GroupPrediction.pointsAwarded p
       ∧ (GroupPrediction.validate p = true →
          GroupPrediction.validate p' = true)
       ∧ (GroupPrediction.user p ≠ Some reqUser → p' = p))
  ∧ (∀ id p', groupPredictions st' !! id = Some p' →
       groupPredictions st !! id = None →
       GroupPrediction.user p' = Some reqUser
       ∧ GroupPrediction.pointsAwarded p' = 0
       ∧ GroupPrediction.validate p' = true)
  ∧ (unique_user_group (groupPredictions st) →
     unique_user_group (groupPredictions st')).
Proof.
  intros Hfresh Hrun.
  destruct (postGroupsBulk_loop newId reqUser (picks_saved reqUser)
    (λ st id doc, picks_saved_upserted newId reqUser st id doc Hfresh)
    entries st) as (st1 & body1 & Hrun1 & HR & _).
  rewrite Hrun in Hrun1. injection Hrun1 as <- <-. exact HR.
Qed.

Lemma length_append (s1 s2 : string) :
  String.length (s1 +:+ s2) = (String.length s1 + String.length s2)%nat.
Proof. induction s1 as [|c s1 IH]; simpl; [done|]. by rewrite IH. Qed.

Lemma long_id_fresh {D} (c : gmap string D) : c !! Cases.long_id c = None.
Proof.
  destruct (c !! Cases.long_id c) as [d|] eqn:Hd; [|done]. exfalso.
  apply elem_of_map_to_list in Hd. unfold Cases.long_id in Hd.
  assert (Hlen : ∀ (l : list (string * D)) k d, (k, d) ∈ l →
    (String.length k
     ≤ String.length (foldr (λ (kd : string * D) acc, kd.1 +:+ acc)
                        EmptyString l))%nat).
  { induction l as [|[k' d'] l IH]; intros k d0 Hin.
    - by apply elem_of_nil in Hin.
    - simpl. rewrite length_append.
      apply elem_of_cons in Hin as [[= -> ->]|Hin]; [apply Nat.le_add_r|].
      specialize (IH k d0 Hin). etrans; [exact IH|]. apply Nat.le_add_l. }
  specialize (Hlen _ _ _ Hd). simpl in Hlen.
  by apply Nat.nle_succ_diag_l in Hlen.
Qed.

Lemma postGroupsBulk_saves_witness :
  ∃ st' body p',
    postGroupsBulk Cases.long_id "ana"
      (Some [("a"%string,
              Some (GroupPick.mk (JStr "t2") (JStr "t1") JNull));
             ("z"%string, None)])
      Sample.store = (st', Json body)
    ∧ Bulk.saved body = 1
    ∧ groupPredictions st' !! "g1" = Some p'
    ∧ GroupPrediction.firstPlaceTeam p' = Some "t2"%string
    ∧ GroupPrediction.pointsAwarded p' = 8.
Proof.
  assert (Hrun : ∃ st' body,
    postGroupsBulk Cases.long_id "ana"
      (Some [("a"%string,
              Some (GroupPick.mk (JStr "t2") (JStr "t1") JNull));
             ("z"%string, None)])
      Sample.store = (st', Json body)
    ∧ Bulk.saved body = 1
    ∧ GroupPrediction.firstPlaceTeam <$> groupPredictions st' !! "g1"
      = Some (Some "t2"%string)).
  { do 2 eexists. split; [vm_compute; reflexivity|].
    split; vm_compute; reflexivity. }
  destruct Hrun as (st' & body & Hrun & Hsaved & Hfirst).
  destruct (postGroupsBulk_saves Cases.long_id "ana" _ Sample.store st' body
              (@long_id_fresh _) Hrun) as (Hold & _).
  destruct (Hold "g1"%string
              (GroupPrediction.mk (Some "ana"%string) "A" (Some "t1"%string)
                 (Some "t2"%string) None 8) eq_refl)
    as (p' & Hp' & _ & _ & Hpts & _).
  exists st', body, p'. split; [exact Hrun|]. split; [exact Hsaved|].
  split; [exact Hp'|]. split; [|exact Hpts].
  rewrite Hp' in Hfirst. by injection Hfirst.
Defined.

(** ** The admin whitelist *)

Lemma split_blank (s : string) :
  Forall (λ c, c = comma ∨ is_space c = true) (String.list_ascii_of_string s) →
  Forall (λ piece, trimStart piece = EmptyString) (split comma s).
Proof.
  induction s as [|c s IH]; simpl; intros Hall.
  - by constructor.
  - apply Forall_cons in Hall as [Hc Hall]. specialize (IH Hall).
    destruct (decide (c = comma)) as [->|Hne].
    + by constructor.
    + destruct Hc as [?|Hc]; [done|].
      destruct (split comma s) as [|piece pieces].
      * constructor; [simpl; by rewrite Hc|done].
      * apply Forall_cons in IH as [Hp Hps].
        constructor; [simpl; by rewrite Hc|done].
Qed.

Lemma adminEmails_blank (s : string) :
  Forall (λ c, c = comma ∨ is_space c = true) (String.list_ascii_of_string s) →
  filter (λ e, e ≠ EmptyString)
         ((λ e, toLowerCase (trim e)) <$> split comma s) = [].
Proof.
  intros Hall. apply filter_nil_Forall, Forall_fmap.
  eapply Forall_impl; [by apply split_blank|]. intros piece Hp Hn.
  apply Hn. simpl. unfold trim. by rewrite Hp.
Qed.

(** X24. With no address configured nobody is an admin: when
    [ADMIN_EMAILS] is unset, empty, or made of commas and white space only,
    [isAdmin] is false for every session user, and [requireAdmin] lets no
    request through: it answers 401 without a session and 403 with one. *)
Theorem isAdmin_empty_whitelist (ADMIN_EMAILS : option string)
    (isAuthenticated : bool) (user : option SessionUser.t) :
  Forall (λ c, c = comma ∨ is_space c = true)
         (String.list_ascii_of_string (default EmptyString ADMIN_EMAILS)) →
  isAdmin ADMIN_EMAILS user = false
  ∧ requireAdmin ADMIN_EMAILS isAuthenticated user
    = if isAuthenticated then Rejected 403 else Rejected 401.
Proof.
  intros Hall.
  assert (Hf : isAdmin ADMIN_EMAILS user = false).
  { unfold isAdmin. destruct user as [user|]; [|done].
    destruct (SessionUser.email user ≫= nonempty) as [email|]; [|done].
    cbv zeta. rewrite adminEmails_blank.
    - apply bool_decide_false, not_elem_of_nil.
    - destruct ADMIN_EMAILS as [env|]; simpl in *; [|by constructor].
      unfold nonempty. case_decide; simpl; [by constructor|done]. }
  split; [exact Hf|]. unfold requireAdmin. rewrite Hf.
  by destruct isAuthenticated.
Qed.

Lemma isAdmin_empty_whitelist_witness :
  isAdmin (Some " , ,"%string)
    (Some (SessionUser.mk (Some "ana@example.com"%string))) = false
  ∧ requireAdmin (Some " , ,"%string) true
      (Some (SessionUser.mk (Some "ana@example.com"%string)))
    = Rejected 403.
Proof.
  apply (isAdmin_empty_whitelist (Some " , ,"%string) true).
  apply (bool_decide_unpack _). vm_compute. exact I.
Defined.

Lemma lower_upper_char c : lower_char (upper_char c) = lower_char c.
Proof. destruct c as [[] [] [] [] [] [] [] []]; vm_compute; reflexivity. Qed.

Lemma is_space_upper_char c : is_space (upper_char c) = is_space c.
Proof. destruct c as [[] [] [] [] [] [] [] []]; vm_compute; reflexivity. Qed.

Lemma comma_upper_char c : upper_char c = comma ↔ c = comma.
Proof.
  destruct c as [[] [] [] [] [] [] [] []]; vm_compute; split; congruence.
Qed.

Lemma toLowerCase_toUpperCase s : toLowerCase (toUpperCase s) = toLowerCase s.
Proof.
  induction s as [|c s IH]; simpl; [done|]. by rewrite lower_upper_char, IH.
Qed.

Lemma trimStart_toUpperCase s :
  trimStart (toUpperCase s) = toUpperCase (trimStart s).
Proof.
  induction s as [|c s IH]; simpl; [done|]. rewrite is_space_upper_char.
  by destruct (is_space c).
Qed.

Lemma trimEnd_toUpperCase s : trimEnd (toUpperCase s) = toUpperCase (trimEnd s).
Proof.
  induction s as [|c s IH]; simpl; [done|]. rewrite IH, is_space_upper_char.
  destruct (trimEnd s); simpl; [|done]. by destruct (is_space c).
Qed.

Lemma trim_toUpperCase s : trim (toUpperCase s) = toUpperCase (trim s).
Proof. unfold trim. by rewrite trimStart_toUpperCase, trimEnd_toUpperCase. Qed.

Lemma split_toUpperCase s :
  split comma (toUpperCase s) = toUpperCase <$> split comma s.
Proof.
  induction s as [|c s IH]; simpl; [done|]. rewrite IH.
  destruct (decide (c = comma)) as [Hc|Hc].
  - rewrite decide_True by (by apply comma_upper_char). done.
  - rewrite decide_False by (by rewrite comma_upper_char).
    by destruct (split comma s).
Qed.

Lemma nonempty_toUpperCase s :
  nonempty (toUpperCase s) = toUpperCase <$> nonempty s.
Proof.
  unfold nonempty. destruct (decide (s = EmptyString)) as [->|Hs]; [done|].
  rewrite decide_False; [done|]. by rewrite toUpperCase_empty.
Qed.

Lemma toLowerCase_empty s : toLowerCase s = EmptyString ↔ s = EmptyString.
Proof. destruct s; simpl; split; congruence. Qed.

(** X25. The admin check, for a list and an address of ASCII characters,
    compares addresses without regard to case and to blanks around the
    listed entries: a session user is an admin exactly when the address is
    not empty and equals, lower-cased, some entry of the comma-separated
    list, trimmed and lower-cased.  So writing the address of the user, or
    the list, in upper case changes nothing. *)
Theorem isAdmin_case_insensitive (ADMIN_EMAILS : option string)
    (email : string) :
  ascii_only (default EmptyString ADMIN_EMAILS) = true →
  ascii_only email = true →
  (isAdmin ADMIN_EMAILS (Some (SessionUser.mk (Some email))) = true
   ↔ email ≠ EmptyString
     ∧ ∃ entry, entry ∈ split comma (default EmptyString ADMIN_EMAILS)
         ∧ toLowerCase (trim entry) = toLowerCase email)
  ∧ isAdmin ADMIN_EMAILS (Some (SessionUser.mk (Some (toUpperCase email))))
    = isAdmin ADMIN_EMAILS (Some (SessionUser.mk (Some email)))
  ∧ isAdmin (toUpperCase <$> ADMIN_EMAILS) (Some (SessionUser.mk (Some email)))
    = isAdmin ADMIN_EMAILS (Some (SessionUser.mk (Some email))).
Proof.
  intros _ _.
  assert (Henv : ∀ env : option string,
            default EmptyString (env ≫= nonempty) = default EmptyString env).
  { intros [env|]; simpl; [|done]. unfold nonempty. by case_decide. }
  split; [|split].
  - unfold isAdmin. simpl. unfold nonempty at 1.
    destruct (decide (email = EmptyString)) as [->|He]; simpl.
    { split; [done|]. by intros [? _]. }
    rewrite Henv, bool_decide_eq_true, list_elem_of_filter, list_elem_of_fmap.
    split.
    + intros [_ (entry & Heq & Hin)]. split; [done|]. by exists entry.
    + intros [_ (entry & Hin & Heq)]. split.
      * by rewrite toLowerCase_empty.
      * by exists entry.
  - unfold isAdmin. simpl. rewrite nonempty_toUpperCase.
    destruct (nonempty email) as [e|]; simpl; [|done].
    by rewrite toLowerCase_toUpperCase.
  - unfold isAdmin. simpl. destruct (nonempty email) as [e|]; simpl; [|done].
    rewrite !Henv.
    assert (default EmptyString (toUpperCase <$> ADMIN_EMAILS)
            = toUpperCase (default EmptyString ADMIN_EMAILS)) as ->
      by (by destruct ADMIN_EMAILS).
    rewrite split_toUpperCase, <- list_fmap_compose.
    assert (Hl : ∀ l : list string,
              (λ e, toLowerCase (trim e)) ∘ toUpperCase <$> l
              = (λ e, toLowerCase (trim e)) <$> l).
    { intros l. apply list_fmap_ext. intros i piece _. simpl.
      by rewrite trim_toUpperCase, toLowerCase_toUpperCase. }
    by rewrite Hl.
Qed.

Lemma isAdmin_case_insensitive_witness :
  isAdmin (Some " Ana@Example.com ,bea@example.com"%string)
    (Some (SessionUser.mk (Some "ana@example.com"%string))) = true
  ∧ isAdmin (Some " Ana@Example.com ,bea@example.com"%string)
      (Some (SessionUser.mk (Some "ANA@EXAMPLE.COM"%string))) = true
  ∧ isAdmin (Some " Ana@Example.com ,bea@example.com"%string)
      (Some (SessionUser.mk (Some "eva@example.com"%string))) = false.
Proof.
  destruct (isAdmin_case_insensitive
              (Some " Ana@Example.com ,bea@example.com"%string)
              "ana@example.com" eq_refl eq_refl) as (Hiff & Hup & _).
  assert (H : isAdmin (Some " Ana@Example.com ,bea@example.com"%string)
                (Some (SessionUser.mk (Some "ana@example.com"%string))) = true).
  { apply Hiff. split; [discriminate|].
    exists " Ana@Example.com "%string. split; [left|reflexivity]. }
  split; [exact H|]. split; [by rewrite <- H, <- Hup|].
  destruct (isAdmin_case_insensitive
              (Some " Ana@Example.com ,bea@example.com"%string)
              "eva@example.com" eq_refl eq_refl) as (Hiff' & _).
  apply not_true_iff_false. intros Htrue. apply Hiff' in Htrue as [_ (e & Hin & He)].
  simpl in Hin. rewrite !elem_of_cons, elem_of_nil in Hin.
  destruct Hin as [->|[->|[]]]; discriminate.
Defined.

(** ** When the knockout results query fails *)

Lemma realFor_None st id m :
  realFor (Played.mk id m (teams st !! Match.homeTeam m)
             (teams st !! Match.awayTeam m)) = None
  ↔ winner_missing st m.
Proof.
  unfold realFor, winner_missing, computeActualWinner. simpl.
  destruct (js_gt (Match.homeScore m) (Match.awayScore m)).
  - destruct (teams st !! Match.homeTeam m); simpl; split;
      [done|intros [[_ ?]|[? _]]; done|tauto|done].
  - destruct (js_gt (Match.awayScore m) (Match.homeScore m)).
    + destruct (teams st !! Match.awayTeam m); simpl; split;
        [done|intros [[? _]|[_ ?]]; done|tauto|done].
    + split; [done|]. intros [[? _]|[? _]]; done.
Qed.

Lemma foldOf_realById_throws (l : list Played.t) (acc : gmap string Real.t) st :
  Exists (λ m, realFor m = None) l →
  foldOf (λ (realById : gmap string Real.t) m,
            match realFor m with
            | Some real => ret (<[Played.id m := real]> realById)
            | None => throw TypeError
            end) acc l st = (st, Threw TypeError).
Proof.
  intros Hex. revert acc.
  induction Hex as [m l Hnone|m l _ IH]; intros acc; simpl.
  - unfold bind. by rewrite Hnone.
  - unfold bind. destruct (realFor m) as [real|]; [|done].
    unfold ret at 1. apply IH.
Qed.

Lemma foldOf_realById_outcome (l : list Played.t) st :
  (Forall (λ m, is_Some (realFor m)) l
   ∧ ∃ rb, foldOf (λ (realById : gmap string Real.t) m,
                     match realFor m with
                     | Some real => ret (<[Played.id m := real]> realById)
                     | None => throw TypeError
                     end) ∅ l st = (st, Returned rb))
  ∨ (Exists (λ m, realFor m = None) l
     ∧ foldOf (λ (realById : gmap string Real.t) m,
                 match realFor m with
                 | Some real => ret (<[Played.id m := real]> realById)
                 | None => throw TypeError
                 end) ∅ l st = (st, Threw TypeError)).
Proof.
  destruct (first_failure (λ m, is_Some (realFor m)) l)
    as [Hall|(l1 & m & l2 & -> & _ & Hbad)].
  - left. split; [done|]. by apply foldOf_realById_returns.
  - assert (Hex : Exists (λ m, realFor m = None) (l1 ++ m :: l2)).
    { apply Exists_app. right. apply Exists_cons_hd.
      by apply eq_None_not_Some. }
    right. split; [done|]. by apply foldOf_realById_throws.
Qed.

(** X26. The knockout results query fails for every user as soon as one
    finished knockout match has a winning side whose team is not in the
    store: it answers 500 exactly then, and a result otherwise.  In either
    case the store is unchanged. *)
Theorem knockoutResults_fails_iff (userId : ObjectId) (st : Store) :
  match knockoutResults userId st with
  | (st', Json r) =>
      st' = st
      ∧ ∀ id m, matches st !! id = Some m →
          Match.phase m ∈ knockout_phases → Match.status m = Finished →
          ¬ winner_missing st m
  | (st', Failure status) =>
      st' = st ∧ status = 500
      ∧ ∃ id m, matches st !! id = Some m
          ∧ Match.phase m ∈ knockout_phases ∧ Match.status m = Finished
          ∧ winner_missing st m
  end.
Proof.
  unfold knockoutResults, respond. unfold bind at 1 2, gets at 1 2.
  unfold bind at 1.
  set (played := (λ km : ObjectId * Match.t,
           Played.mk km.1 km.2 (teams st !! Match.homeTeam km.2)
                     (teams st !! Match.awayTeam km.2))
        <$> find (matches st)
              (λ m, Match.phase m ∈ knockout_phases
                    ∧ Match.status m = Finished)).
  destruct (foldOf_realById_outcome played st)
    as [[Hall [rb Hrun]]|[Hex Hrun]]; rewrite Hrun.
  - unfold ret. split; [done|]. intros id m Hm Hphase Hstatus Hmiss.
    apply (realFor_None st id) in Hmiss. rewrite Forall_forall in Hall.
    assert (Hin : Played.mk id m (teams st !! Match.homeTeam m)
                    (teams st !! Match.awayTeam m) ∈ played).
    { unfold played. apply list_elem_of_fmap. exists (id, m).
      split; [done|]. by apply find_lookup. }
    specialize (Hall _ Hin). rewrite Hmiss in Hall.
    by destruct Hall.
  - split; [done|]. split; [done|].
    apply Exists_exists in Hex as (pm & Hin & Hnone).
    unfold played in Hin.
    apply list_elem_of_fmap in Hin as ([id m] & -> & Hin).
    apply find_lookup in Hin as [Hm [Hphase Hstatus]].
    exists id, m. repeat split; try done. by apply (realFor_None st id).
Qed.

(** ** Creating a match *)

(** X27. The route that creates a match never creates one.  The document
    it hands to [Match.create] has no [matchKey], which the schema
    requires, so a request that passes the checks of the handler (both
    teams and the date given, the teams different) is answered 500; the
    others are answered 400.  The store is never changed. *)
Theorem postMatch_never_creates (newId : ObjectId) (matchKeys : list string)
    (homeTeam awayTeam matchDate phase status : option string) (st : Store) :
  postMatch newId matchKeys homeTeam awayTeam matchDate phase status st
  = (st, Failure
           (match homeTeam ≫= nonempty, awayTeam ≫= nonempty,
                  matchDate ≫= nonempty with
            | Some h, Some a, Some _ => if decide (h = a) then 400 else 500
            | _, _, _ => 400
            end)).
Proof.
  unfold postMatch, respond.
  destruct (homeTeam ≫= nonempty) as [h|]; [|done].
  destruct (awayTeam ≫= nonempty) as [a|]; [|done].
  destruct (matchDate ≫= nonempty) as [d|]; [|done].
  by case_decide.
Qed.

(** A document that carries a fresh key and valid enum values is stored. *)
Lemma createMatch_returns newId matchKeys doc key status st :
  NewMatch.matchKey doc = Some key → key ≠ EmptyString →
  key ∉ matchKeys → Status_of (NewMatch.status doc) = Some status →
  NewMatch.phase doc ∈ match_phases →
  ∃ m, createMatch newId matchKeys doc st
       = (set_matches <[newId := m]> st, Returned (newId, m))
    ∧ Match.status m = status ∧ Match.homeScore m = None
    ∧ Match.awayScore m = None.
Proof.
  intros Hk Hne Hfresh Hs Hp. unfold createMatch. rewrite Hk, Hs. simpl.
  unfold nonempty. rewrite decide_False by done. simpl.
  rewrite decide_True by done. rewrite decide_False by done.
  eexists. split; [reflexivity|done].
Qed.

(** ** When the finalization returns *)

(** X28. The finalization of a finished match returns, rather than throws,
    exactly when the schema validation accepts every prediction stored for
    the match and the document of every user who made one; for an id that
    names no match, or a match that is not finished, it returns without
    touching the store. *)
Theorem finalization_returns_iff (st : Store) (matchId : ObjectId) :
  match matches st !! matchId with
  | Some m =>
      if decide (Match.status m = Finished)
      then (∃ st', calculateMatchPointsForAllUsers matchId st
                   = (st', Returned tt))
           ↔ (∀ id p, matchPredictions st !! id = Some p →
                MatchPrediction.match_ p = matchId →
                MatchPrediction.validate p = true
                ∧ ∀ uid u, MatchPrediction.user p = Some uid →
                    users st !! uid = Some u → User.validate u = true)
      else calculateMatchPointsForAllUsers matchId st = (st, Returned tt)
  | None => calculateMatchPointsForAllUsers matchId st = (st, Returned tt)
  end.
Proof.
  destruct (matches st !! matchId) as [m|] eqn:Hm;
    [|by apply calculate_missing].
  case_decide as Hs; [|by apply (calculate_not_finished _ _ m)].
  rewrite (calculate_returns_iff matchId st m Hm Hs). split.
  - intros [Hall Hus] id p Hp Hpm. split; [by apply (Hall id)|].
    intros uid u Hpu Hu. apply (valid_user_true st uid); [|done].
    by apply (Hus id p).
  - intros H. split.
    + intros id p Hp Hpm. by apply (H id p).
    + intros id p uid Hp Hpm Hpu. unfold valid_user.
      destruct (users st !! uid) as [u|] eqn:Hu; [|done].
      by apply (proj2 (H id p Hp Hpm) uid u).
Qed.

(** ** A ranked user is within the ranked users *)

Lemma filter_length_lt {A} (P Q : A → Prop) `{!∀ x, Decision (P x)}
    `{!∀ x, Decision (Q x)} (l : list A) x :
  Forall (λ y, P y → Q y) l → x ∈ l → Q x → ¬ P x →
  (length (filter P l) < length (filter Q l))%nat.
Proof.
  intros Hall Hin HQ HP. induction Hall as [|y l Hy Hall IH].
  { by apply elem_of_nil in Hin. }
  apply elem_of_cons in Hin as [->|Hin].
  - rewrite (filter_cons_False P), (filter_cons_True Q) by done. simpl.
    pose proof (filter_length_le P Q l Hall). lia.
  - specialize (IH Hin). destruct (decide (P y)).
    + rewrite (filter_cons_True P), (filter_cons_True Q) by auto. simpl. lia.
    + rewrite (filter_cons_False P) by done. destruct (decide (Q y)).
      * rewrite (filter_cons_True Q) by done. simpl. lia.
      * by rewrite (filter_cons_False Q).
Qed.

(** X29. For a user with points the position query stays within the
    ranked users: the position is at least 1 and at most [totalUsers], the
    number of users with points, which is then at least 1. *)
Theorem ranked_position_within_total (st : Store) (reqUser : ObjectId)
    (user : User.t) :
  users st !! reqUser = Some user → User.totalPoints user > 0 →
  ∃ r, leaderboardMyPosition reqUser st = (st, Json r)
    ∧ 1 ≤ MyPosition.position r ≤ MyPosition.totalUsers r.
Proof.
  intros Hu Hpos. eexists. split; [by apply leaderboardMyPosition_returns|].
  simpl. unfold countDocuments, find.
  pose proof (filter_length_lt
    (λ kd : ObjectId * User.t, betterThan user kd.2)
    (λ kd : ObjectId * User.t, User.totalPoints kd.2 > 0)
    (map_to_list (users st)) (reqUser, user)) as Hlt.
  split; [lia|]. apply Zlt_le_succ, inj_lt, Hlt.
  - apply Forall_forall. intros [k u] _. unfold betterThan. simpl. lia.
  - by apply elem_of_map_to_list.
  - done.
  - unfold betterThan. simpl. lia.
Qed.

Lemma ranked_position_within_total_witness :
  ∃ r, leaderboardMyPosition "ana" Sample.standings_store
       = (Sample.standings_store, Json r)
    ∧ 1 ≤ MyPosition.position r ≤ MyPosition.totalUsers r.
Proof.
  apply (ranked_position_within_total Sample.standings_store "ana"
           (User.mk "ana" "ana@example.com" "Online" 10 0 0)); [reflexivity|simpl; lia].
Defined.
